(** * Bachelor_project: the mixer privacy analysis and the public ledger

    A shallow embedding of [Implementations/Mixer.py] (the simulated mixer,
    [main], and the function [analyze_mixer_privacy] with its nested
    [find_solutions_recursive]) and of [Implementations/Public.py] (the
    wallet registry, the constructor [Transaction.__init__] and [main]).

    Numbers.  The Python code computes on floats; the specification speaks of
    real balances and amounts.  A finite float is a rational number: balances
    and amounts are rationals in canonical form ([Qc]), so that [==] on
    amounts is Leibniz equality.  The sums and differences that the code
    stores are rounded by the machine.  The two simulations take the rounding
    as a parameter [rnd] and apply it where the machine rounds; [binary64] is
    the rounding of the machine and [exact] is no rounding.  The analysis is
    given twice: in the module [Mixer] with the arithmetic as it is written,
    on the rationals and with the tolerance 1/10^9, and in the module
    [Rounded] as the machine runs it; the two agree on inputs on which
    nothing is rounded.  Infinities and NaN are outside this model.

    Containers.  A Python [dict] keyed by names is a [gmap string Qc]; a
    subscript on a missing key raises [KeyError].  A [frozenset] of
    (label, amount) tuples is a [gset (string * Qc)] and the [set] of
    solutions a [gset] of those. *)

From Stdlib Require Import QArith Qcanon Qabs Qcabs Qround Lqa.
From stdpp Require Import gmap strings list fin_maps fin_sets functions sorting.

Local Open Scope Qc_scope.

(** ** Exceptions and the error monad *)

Inductive exn := KeyError | IndexError | ValueError.

Inductive result (A : Type) :=
  | Ok (a : A)
  | Raise (e : exn).
Arguments Ok {A} a.
Arguments Raise {A} e.

Global Instance exn_eq_dec : EqDecision exn.
Proof. solve_decision. Defined.
Global Instance result_eq_dec `{EqDecision A} : EqDecision (result A).
Proof. solve_decision. Defined.

Global Instance result_ret : MRet result := λ A a, Ok a.
Global Instance result_bind : MBind result := λ A B f m,
  match m with Ok a => f a | Raise e => Raise e end.
Global Instance result_fmap : FMap result := λ A B f m,
  match m with Ok a => Ok (f a) | Raise e => Raise e end.

(** [for x in l: s = body(x, s)], an exception leaving the loop. *)
Definition for_each {A S : Type} (body : A → S → result S)
  : list A → S → result S :=
  fix go l s :=
    match l with
    | [] => Ok s
    | x :: l' => s' ← body x s; go l' s'
    end.

(** The same loop, with the cost of each iteration added up. *)
Definition for_each_counted {A S : Type} (body : A → S → nat * result S)
  : list A → S → nat * result S :=
  fix go l s :=
    match l with
    | [] => (0%nat, Ok s)
    | x :: l' =>
        match body x s with
        | (n, Ok s') => let '(m, r) := go l' s' in ((n + m)%nat, r)
        | (n, Raise e) => (n, Raise e)
        end
    end.

(** A loop body or a loop that only ever adds to the set it is given: run
    on [acc] it yields what it yields on the empty set, together with
    [acc]. *)
Definition accumulates `{Countable K} (g : gset K → result (gset K)) : Prop :=
  ∀ acc, g acc = (λ T, T ∪ acc) <$> g ∅.

(** ** Numbers *)

(** The tolerance [1e-9] as it is written, the rational 1/10^9.  The machine
    reads the literal as the binary64 number nearest to it. *)
Definition tolerance : Qc := Q2Qc (1 # 1000000000).

(** ** Rounding

    A finite Python float is a rational number, and an operation on floats
    gives the exact result rounded to the nearest binary64 number, ties to
    the even significand.  Where a definition below has a parameter [rnd],
    it stands for this rounding: the definition does the arithmetic of the
    source and rounds each result.  Two roundings are at hand: [exact], which
    does not round, and [binary64], the rounding of the machine.  Results
    beyond the largest binary64 number, which the machine turns into an
    infinity, are outside the model. *)

Module Binary64.
Local Open Scope Q_scope.

(** The power of two with exponent [k], negative exponents included. *)
Definition pow2 (k : Z) : Q :=
  if (0 <=? k)%Z then inject_Z (2 ^ k) else 1 # Z.to_pos (2 ^ (- k)).

(** For a positive [q], the exponent [e] with [2^e <= q < 2^(e+1)]. *)
Definition Qlog2 (q : Q) : Z :=
  let k := (Z.log2 (Qnum q) - Z.log2 (Zpos (Qden q)))%Z in
  if Qle_bool (pow2 k) q then k else (k - 1)%Z.

(** The nearest whole number, the even one of two that are equally near. *)
Definition round_half_even (q : Q) : Z :=
  let f := Qfloor q in
  match (q - inject_Z f ?= 1 # 2)%Q with
  | Lt => f
  | Gt => (f + 1)%Z
  | Eq => if Z.even f then f else (f + 1)%Z
  end.

(** The nearest number with a significand of 53 bits and an exponent of at
    least -1022, below which the spacing of the numbers stays at 2^-1074. *)
Definition round (q : Q) : Q :=
  if Qeq_bool q 0 then 0
  else
    let a := Qabs q in
    let s := (Z.max (Qlog2 a) (-1022) - 52)%Z in
    let r := inject_Z (round_half_even (a / pow2 s)) * pow2 s in
    if Qle_bool 0 q then r else - r.

End Binary64.

Definition binary64 (x : Qc) : Qc := Q2Qc (Binary64.round x).

Definition exact (x : Qc) : Qc := x.

(** A whole number. *)
Definition whole (x : Qc) : Prop := ∃ z : Z, x = Qc_of_Z z.

(** What the theorems on whole numbers ask of a rounding: a whole number
    below 2^53 in magnitude is a binary64 number, and is left as it is. *)
Definition keeps_small_wholes (rnd : Qc → Qc) : Prop :=
  ∀ z : Z, (Z.abs z < 2 ^ 53)%Z → rnd (Qc_of_Z z) = Qc_of_Z z.

(** The rounded literal [1e-9] is positive and at most 1. *)
Definition keeps_tolerance_small (rnd : Qc → Qc) : Prop :=
  0 < rnd tolerance ∧ rnd tolerance ≤ 1.

(** A rounding gives nothing negative for a number that is not negative. *)
Definition keeps_sign (rnd : Qc → Qc) : Prop := ∀ x, 0 ≤ x → 0 ≤ rnd x.

(** ** Dictionaries keyed by participant name *)

Abbreviation balances := (gmap string Qc).

(** [d[k]] *)
Definition dict_get (d : balances) (k : string) : result Qc :=
  match d !! k with
  | Some v => Ok v
  | None => Raise KeyError
  end.

(** [d[k] -= a] in the arithmetic of the rationals: reads [d[k]], then
    stores the difference.  [Rounded.dict_isub] is the update of the
    machine, which rounds the difference. *)
Definition dict_isub (d : balances) (k : string) (a : Qc) : result balances :=
  v ← dict_get d k; Ok (<[k := v - a]> d).

(** [d[k] += a] in the arithmetic of the rationals. *)
Definition dict_iadd (d : balances) (k : string) (a : Qc) : result balances :=
  v ← dict_get d k; Ok (<[k := v + a]> d).

Module Mixer.

(** A [User] object.  [uid] stands for the identity of the object: the class
    defines no [__eq__], so [sender == receiver] compares identities. *)
Record User := { uid : nat; name : string }.

(** A path entry [(f"{sender.name} -> {receiver.name}", amount)]. *)
Abbreviation flow := (string * Qc)%type.
(** [frozenset(path)] *)
Abbreviation solution := (gset flow).
(** [unique_solutions] *)
Abbreviation solution_set := (gset (gset flow)).

Definition flow_label (sender receiver : User) : string :=
  name sender +:+ " -> " +:+ name receiver.

(** [frozenset(path)] *)
Definition frozenset (path : list flow) : solution := list_to_set path.

(** [unique_solutions.add(s)] *)
Definition set_add (s : solution) (unique_solutions : solution_set)
  : solution_set := {[ s ]} ∪ unique_solutions.

(** ** [itertools.permutations]

    The library documents [permutations(iterable)] as equivalent to taking
    every tuple of [n] indices from [product(range(n), repeat=n)], keeping
    those without a repeated index, and reading the pool at these indices. *)

(** [product(range(n), repeat=r)] *)
Fixpoint index_product (n r : nat) : list (list nat) :=
  match r with
  | O => [[]]
  | S r' => i ← seq 0 n; (λ t, i :: t) <$> index_product n r'
  end.

Definition itertools_permutations {A} (pool : list A) : list (list A) :=
  let n := length pool in
  (λ indices : list nat, omap (λ i, pool !! i) indices)
    <$> filter (λ indices, NoDup indices) (index_product n n).

Section analyze_mixer_privacy.

Variables (initial_balances final_balances : balances).
Variable tx_amounts : list Qc.
Variable users : list User.

(** [num_tx = len(tx_amounts)] *)
Definition num_tx : nat := length tx_amounts.

(** [user_names = [u.name for u in users]] *)
Definition user_names : list string := name <$> users.

(** [amount_permutations = list(set(itertools.permutations(tx_amounts)))].
    The order in which a Python set is iterated is not specified; [elements]
    fixes one. *)
Definition amount_permutations : list (list Qc) :=
  elements (list_to_set (itertools_permutations tx_amounts)
              : gset (list Qc)).

(** [all(abs(current_balances[name] - final_balances[name]) < 1e-9
         for name in user_names)]: names are visited in order and the
    first failing comparison stops the iteration. *)
Fixpoint balances_match (current_balances : balances) (names : list string)
  : result bool :=
  match names with
  | [] => Ok true
  | name :: names' =>
      c ← dict_get current_balances name;
      f ← dict_get final_balances name;
      if decide (Qcabs (c - f) < tolerance)
      then balances_match current_balances names'
      else Ok false
  end.

(** The body of the two nested loops for one pair of users. *)
Definition try_pair
    (recurse : balances → list flow → solution_set → result solution_set)
    (current_balances : balances) (path : list flow) (amount : Qc)
    (sender receiver : User) (unique_solutions : solution_set)
  : result solution_set :=
  if decide (uid sender = uid receiver) then Ok unique_solutions
  else
    new_balances ← dict_isub current_balances (name sender) amount;
    new_balances ← dict_iadd new_balances (name receiver) amount;
    let new_path := path ++ [(flow_label sender receiver, amount)] in
    recurse new_balances new_path unique_solutions.

(** The body of [find_solutions_recursive], on the slots of
    [ordered_amounts] from [tx_index] on: [suffix] stands for
    [ordered_amounts[tx_index:]], so that [ordered_amounts[tx_index]] is its
    head, and raises [IndexError] when it is empty.  Every recursive call
    has one slot less.  The set [unique_solutions], which the Python closure
    mutates, is threaded through. *)
Fixpoint find_solutions_from (suffix : list Qc) (tx_index : nat)
    (current_balances : balances) (path : list flow)
    (unique_solutions : solution_set) : result solution_set :=
  if decide (tx_index = num_tx) then
    ok ← balances_match current_balances user_names;
    if ok : bool then Ok (set_add (frozenset path) unique_solutions)
    else Ok unique_solutions
  else
    match suffix with
    | [] => Raise IndexError
    | amount :: suffix' =>
        for_each (λ sender,
          for_each (λ receiver,
            try_pair (find_solutions_from suffix' (tx_index + 1))
                     current_balances path amount sender receiver) users)
          users unique_solutions
    end.

(** [find_solutions_recursive(tx_index, current_balances, path,
    ordered_amounts)] *)
Definition find_solutions_recursive (tx_index : nat)
    (current_balances : balances) (path : list flow)
    (ordered_amounts : list Qc) (unique_solutions : solution_set)
  : result solution_set :=
  find_solutions_from (drop tx_index ordered_amounts) tx_index
                      current_balances path unique_solutions.

(** The loop [for p in amount_permutations] over a given list of
    orderings. *)
Definition run_orderings (orderings : list (list Qc))
  : solution_set → result solution_set :=
  for_each (λ p, find_solutions_recursive 0 initial_balances [] p) orderings.

(** The set [unique_solutions] at the end of [analyze_mixer_privacy]. *)
Definition analyze_mixer_privacy : result solution_set :=
  run_orderings amount_permutations ∅.

(** *** The same search with a visit counter

    [find_solutions_counted] is [find_solutions_from] with a counter of the
    work done: every invocation that branches costs [branch_cost] and every
    invocation that reaches the base case costs [leaf_cost].  The counter
    survives an exception. *)

Variables (branch_cost leaf_cost : nat).

Definition try_pair_counted
    (recurse : balances → list flow → solution_set
               → nat * result solution_set)
    (current_balances : balances) (path : list flow) (amount : Qc)
    (sender receiver : User) (unique_solutions : solution_set)
  : nat * result solution_set :=
  if decide (uid sender = uid receiver) then (0%nat, Ok unique_solutions)
  else
    match dict_isub current_balances (name sender) amount with
    | Raise e => (0%nat, Raise e)
    | Ok new_balances =>
        match dict_iadd new_balances (name receiver) amount with
        | Raise e => (0%nat, Raise e)
        | Ok new_balances =>
            let new_path := path ++ [(flow_label sender receiver, amount)] in
            recurse new_balances new_path unique_solutions
        end
    end.

Fixpoint find_solutions_counted (suffix : list Qc) (tx_index : nat)
    (current_balances : balances) (path : list flow)
    (unique_solutions : solution_set) : nat * result solution_set :=
  if decide (tx_index = num_tx) then
    (leaf_cost,
     ok ← balances_match current_balances user_names;
     if ok : bool then Ok (set_add (frozenset path) unique_solutions)
     else Ok unique_solutions)
  else
    match suffix with
    | [] => (0%nat, Raise IndexError)
    | amount :: suffix' =>
        let '(n, r) :=
          for_each_counted (λ sender,
            for_each_counted (λ receiver,
              try_pair_counted (find_solutions_counted suffix' (tx_index + 1))
                               current_balances path amount sender receiver)
              users)
            users unique_solutions in
        ((branch_cost + n)%nat, r)
    end.

Definition analyze_counted : nat * result solution_set :=
  for_each_counted (λ p, find_solutions_counted p 0 initial_balances [])
    amount_permutations ∅.

End analyze_mixer_privacy.

(** ** Leaves of the search

    [reach users remaining b path b' path'] holds when the search, called on
    the slots [remaining] with the balances [b] and the path [path], can
    arrive at its base case with the balances [b'] and the path [path']:
    one branch, for a pair of distinct users, is taken at every slot. *)
Inductive reach (users : list User)
  : list Qc → balances → list flow → balances → list flow → Prop :=
  | reach_leaf b path : reach users [] b path b path
  | reach_branch amount remaining b path sender receiver b1 b2 b' path' :
      sender ∈ users → receiver ∈ users → uid sender ≠ uid receiver →
      dict_isub b (name sender) amount = Ok b1 →
      dict_iadd b1 (name receiver) amount = Ok b2 →
      reach users remaining b2
            (path ++ [(flow_label sender receiver, amount)]) b' path' →
      reach users (amount :: remaining) b path b' path'.

(** ** Sums of balances

    The balance of every participant, each name counted once; a name
    without an entry counts for nothing. *)
Definition sum_over (d : balances) (names : list string) : Qc :=
  foldr (λ n acc, default 0 (d !! n) + acc) 0 names.

Definition sum_balances (d : balances) (names : list string) : Qc :=
  sum_over d (remove_dups names).

(** Every participant has an initial and a final balance. *)
Definition balances_cover (initial_balances final_balances : balances)
    (users : list User) : Prop :=
  ∀ u, u ∈ users →
    is_Some (initial_balances !! name u) ∧ is_Some (final_balances !! name u).

(** Names identify participants: two user objects with the same name are the
    same object. *)
Definition unique_names (users : list User) : Prop :=
  ∀ u v, u ∈ users → v ∈ users → name u = name v → uid u = uid v.

(** ** Display order

    [sorted(list(solution_frozenset), key=lambda x: x[1])].  [sorted] is
    stable: entries whose keys compare equal keep the order they have in its
    argument.  Every stable sort returns the same list; it is written here as
    an insertion sort.  Its argument [list(solution_frozenset)] lists the
    members of the frozenset in the iteration order of the set, which the
    language leaves open. *)

Definition sort_key (x : flow) : Qc := x.2.

Fixpoint insert_sorted (x : flow) (l : list flow) : list flow :=
  match l with
  | [] => [x]
  | y :: l' =>
      if decide (sort_key x ≤ sort_key y) then x :: y :: l'
      else y :: insert_sorted x l'
  end.

Definition sorted_by_amount (l : list flow) : list flow :=
  foldr insert_sorted [] l.

(** [l] is a possible value of [list(s)]. *)
Definition enumerates (l : list flow) (s : solution) : Prop :=
  NoDup l ∧ list_to_set l = s.

(** The order of the specification: ascending by amount, and by label where
    the amounts are equal. *)
Definition display_le (x y : flow) : Prop :=
  x.2 < y.2 ∨ (x.2 = y.2 ∧ String.leb x.1 y.1 = true).

(** ** Size of the search

    [geometric d n] is 1 + d + ... + d^(n-1), the number of branching
    invocations in a tree of depth [n] in which every invocation branches
    [d] ways. *)
Fixpoint geometric (d n : nat) : nat :=
  match n with
  | O => 0
  | S n' => 1 + d * geometric d n'
  end.

(** ** Sample inputs

    Two participants A and B that start with 100 each, as the wallets of the
    simulation do. *)

Definition user_A : User := {| uid := 0; name := "A" |}.
Definition user_B : User := {| uid := 1; name := "B" |}.

Definition balances_of (a b : Qc) : balances := {[ "A" := a; "B" := b ]}.

Definition initial_100 : balances := balances_of (Qc_of_Z 100) (Qc_of_Z 100).

End Mixer.

(** * The analysis on floats

    The search of [analyze_mixer_privacy] as the machine runs it: [-=] and
    [+=] round the balance they store, the difference that the base case
    takes is rounded, and the tolerance is the literal [1e-9] as the machine
    reads it.  Comparisons and [abs] are exact.  The definitions follow those
    of the module [Mixer] line by line; with [exact] for the rounding and the
    tolerance as it is written they are the same search. *)

Module Rounded.
Import Mixer.

Section analyze_mixer_privacy.

Variable rnd : Qc → Qc.
Variables (initial_balances final_balances : balances).
Variable tx_amounts : list Qc.
Variable users : list User.

(** [d[k] -= a]: reads [d[k]], then stores the rounded difference. *)
Definition dict_isub (d : balances) (k : string) (a : Qc) : result balances :=
  v ← dict_get d k; Ok (<[k := rnd (v - a)]> d).

(** [d[k] += a] *)
Definition dict_iadd (d : balances) (k : string) (a : Qc) : result balances :=
  v ← dict_get d k; Ok (<[k := rnd (v + a)]> d).

(** [all(abs(current_balances[name] - final_balances[name]) < 1e-9
         for name in user_names)] *)
Fixpoint balances_match (current_balances : balances) (names : list string)
  : result bool :=
  match names with
  | [] => Ok true
  | name :: names' =>
      c ← dict_get current_balances name;
      f ← dict_get final_balances name;
      if decide (Qcabs (rnd (c - f)) < rnd tolerance)
      then balances_match current_balances names'
      else Ok false
  end.

(** The body of the two nested loops for one pair of users. *)
Definition try_pair
    (recurse : balances → list flow → solution_set → result solution_set)
    (current_balances : balances) (path : list flow) (amount : Qc)
    (sender receiver : User) (unique_solutions : solution_set)
  : result solution_set :=
  if decide (uid sender = uid receiver) then Ok unique_solutions
  else
    new_balances ← dict_isub current_balances (name sender) amount;
    new_balances ← dict_iadd new_balances (name receiver) amount;
    let new_path := path ++ [(flow_label sender receiver, amount)] in
    recurse new_balances new_path unique_solutions.

(** The body of [find_solutions_recursive] on the slots [suffix], which
    stands for [ordered_amounts[tx_index:]]. *)
Fixpoint find_solutions_from (suffix : list Qc) (tx_index : nat)
    (current_balances : balances) (path : list flow)
    (unique_solutions : solution_set) : result solution_set :=
  if decide (tx_index = num_tx tx_amounts) then
    ok ← balances_match current_balances (user_names users);
    if ok : bool then Ok (set_add (frozenset path) unique_solutions)
    else Ok unique_solutions
  else
    match suffix with
    | [] => Raise IndexError
    | amount :: suffix' =>
        for_each (λ sender,
          for_each (λ receiver,
            try_pair (find_solutions_from suffix' (tx_index + 1))
                     current_balances path amount sender receiver) users)
          users unique_solutions
    end.

(** [find_solutions_recursive(tx_index, current_balances, path,
    ordered_amounts)] *)
Definition find_solutions_recursive (tx_index : nat)
    (current_balances : balances) (path : list flow)
    (ordered_amounts : list Qc) (unique_solutions : solution_set)
  : result solution_set :=
  find_solutions_from (drop tx_index ordered_amounts) tx_index
                      current_balances path unique_solutions.

(** The loop [for p in amount_permutations] over a given list of
    orderings. *)
Definition run_orderings (orderings : list (list Qc))
  : solution_set → result solution_set :=
  for_each (λ p, find_solutions_recursive 0 initial_balances [] p) orderings.

(** The set [unique_solutions] at the end of [analyze_mixer_privacy]. *)
Definition analyze_mixer_privacy : result solution_set :=
  run_orderings (amount_permutations tx_amounts) ∅.

End analyze_mixer_privacy.

(** The magnitudes of the amounts, added up. *)
Definition sum_abs (amounts : list Qc) : Qc :=
  foldr (λ a acc, Qcabs a + acc) 0 amounts.

(** Inputs on which the machine computes without rounding: the balances and
    the amounts are whole numbers, every initial balance stays below 2^52 in
    magnitude when each amount is taken from it or added to it twice, and no
    final balance is beyond 2^52. *)
Definition exact_inputs (initial_balances final_balances : balances)
    (tx_amounts : list Qc) : Prop :=
  Forall whole tx_amounts ∧
  (∀ n v, initial_balances !! n = Some v →
     whole v ∧
     Qcabs v + (sum_abs tx_amounts + sum_abs tx_amounts) < Qc_of_Z (2 ^ 52)) ∧
  (∀ n f, final_balances !! n = Some f →
     whole f ∧ Qcabs f ≤ Qc_of_Z (2 ^ 52)).

(** Two participants of whom A holds 10^17, B nothing. *)
Definition initial_large : balances := balances_of (Qc_of_Z (10 ^ 17)) 0.

End Rounded.

(** * The public ledger, [Public.py] *)

Module Public.

(** A [Wallet] object; [owner] is kept by the name of the owning user. *)
Record Wallet := {
  owner_name : string;
  address : string;
  balance : Qc
}.

Definition set_balance (w : Wallet) (b : Qc) : Wallet :=
  {| owner_name := owner_name w; address := address w; balance := b |}.

(** Wallets live in a store; a wallet reference is a location, and two
    references may be the same location. *)
Abbreviation loc := nat.
Abbreviation store := (loc → Wallet).

Record Transaction := {
  sender_address : string;
  receiver_address : string;
  amount : Qc;
  timestamp : Qc;
  transaction_id : string
}.

Section Transaction.

(** The rounding of the two balance updates, the reading of [time.time()]
    and the digest
    [hashlib.sha256(f"{sender}{receiver}{amount}{timestamp}".encode())
     .hexdigest()]. *)
Variable rnd : Qc → Qc.
Variable now : Qc.
Variable sha256_hexdigest : string → string → Qc → Qc → string.

(** [Transaction.__init__(self, sender_wallet, receiver_wallet, amount)]:
    the store after the call, and the new object or the exception.  The
    comparison is exact; [-=] and [+=] round their results. *)
Definition Transaction_init (σ : store) (sender_wallet receiver_wallet : loc)
    (amount : Qc) : store * result Transaction :=
  if decide (balance (σ sender_wallet) < amount) then (σ, Raise ValueError)
  else
    let self :=
      {| sender_address := address (σ sender_wallet);
         receiver_address := address (σ receiver_wallet);
         amount := amount;
         timestamp := now;
         transaction_id :=
           sha256_hexdigest (address (σ sender_wallet))
                            (address (σ receiver_wallet)) amount now |} in
    let σ1 := <[sender_wallet :=
                 set_balance (σ sender_wallet)
                             (rnd (balance (σ sender_wallet) - amount))]> σ in
    let σ2 := <[receiver_wallet :=
                 set_balance (σ1 receiver_wallet)
                             (rnd (balance (σ1 receiver_wallet) + amount))]>
                σ1 in
    (σ2, Ok self).

(** The balance that the wallet [l] has after a call that returned, [b]
    being its balance before: lowered if it is the sender's, then raised if
    it is the receiver's. *)
Definition settled (sender_wallet receiver_wallet : loc) (amount : Qc)
    (l : loc) (b : Qc) : Qc :=
  let b1 := if decide (l = sender_wallet) then rnd (b - amount) else b in
  if decide (l = receiver_wallet) then rnd (b1 + amount) else b1.

End Transaction.

(** The balances of the wallets at the given locations, added up. *)
Definition total_balance (σ : store) (wallets : list loc) : Qc :=
  foldr (λ l acc, balance (σ l) + acc) 0 wallets.

(** ** A sample store: every wallet as [Wallet.__init__] leaves it, with a
    balance of 100. *)
Definition fresh_store : store :=
  λ l, {| owner_name := "user"; address := "1x"; balance := Qc_of_Z 100 |}.

(** A store in which the wallet at 1 holds 10^17, the others 100. *)
Definition uneven_store : store :=
  λ l, {| owner_name := "user"; address := "1x";
          balance := match l with
                     | 1%nat => Qc_of_Z (10 ^ 17)
                     | _ => Qc_of_Z 100
                     end |}.

End Public.

(** * Scenarios

    A scenario as a list of transfers, each with its sender, its receiver
    and its amount, and its effect on the balances: the two updates that the
    search applies for one slot, one transfer after the other. *)

Module Scenarios.
Import Mixer.

Abbreviation transfer := (User * User * Qc)%type.

Definition apply_transfer (b : balances) (t : transfer) : result balances :=
  let '(sender, receiver, amount) := t in
  b1 ← dict_isub b (name sender) amount;
  dict_iadd b1 (name receiver) amount.

Fixpoint replay (transfers : list transfer) (b : balances) : result balances :=
  match transfers with
  | [] => Ok b
  | t :: transfers' => b' ← apply_transfer b t; replay transfers' b'
  end.

(** The path that the search builds for these transfers. *)
Definition path_of (transfers : list transfer) : list flow :=
  (λ t : transfer, (flow_label t.1.1 t.1.2, t.2)) <$> transfers.

(** A transfer that the search branches over: between two users of the
    input that are distinct objects. *)
Definition admissible (users : list User) (t : transfer) : Prop :=
  t.1.1 ∈ users ∧ t.1.2 ∈ users ∧ uid t.1.1 ≠ uid t.1.2.

(** The balances [b] are within the tolerance of [final] for every name. *)
Definition within_tolerance (final b : balances) (names : list string) : Prop :=
  ∀ n, n ∈ names →
    ∃ c f, b !! n = Some c ∧ final !! n = Some f ∧ Qcabs (c - f) < tolerance.

(** What the user of the name [n] sends, and receives, in the transfers. *)
Definition outflow (n : string) (transfers : list transfer) : Qc :=
  foldr (λ t acc, if decide (name t.1.1 = n) then t.2 + acc else acc)
        0 transfers.

Definition inflow (n : string) (transfers : list transfer) : Qc :=
  foldr (λ t acc, if decide (name t.1.2 = n) then t.2 + acc else acc)
        0 transfers.

End Scenarios.

(** * The wallet registry, [Public.py] *)

Module Registry.

(** [Wallet._address_to_name_map], a dictionary of the class, shared by all
    wallets. *)
Abbreviation registry := (gmap string string).

Section Wallet.

(** [hashlib.sha256(s.encode()).hexdigest()] *)
Variable sha256_hexdigest : string → string.

(** ['1x' + hashlib.sha256(owner.name.encode()).hexdigest()[:10]] *)
Definition wallet_address (owner : string) : string :=
  "1x" +:+ String.substring 0 10 (sha256_hexdigest owner).

(** [Wallet.register_wallet(wallet)] *)
Definition register_wallet (reg : registry) (wallet : Public.Wallet)
  : registry :=
  <[Public.address wallet := Public.owner_name wallet]> reg.

(** [Wallet.get_owner_name_from_address(address)] *)
Definition get_owner_name_from_address (reg : registry) (address : string)
  : string :=
  default "Unknown" (reg !! address).

(** [Wallet.__init__(self, owner)], which [User.__init__] calls with the new
    user: the registry after the call, and the new wallet. *)
Definition Wallet_init (reg : registry) (owner : string)
  : registry * Public.Wallet :=
  let self :=
    {| Public.owner_name := owner;
       Public.address := wallet_address owner;
       Public.balance := Qc_of_Z 100 |} in
  (register_wallet reg self, self).

(** The registry after users of the given names have been created, in this
    order. *)
Definition create_users (reg : registry) (owners : list string) : registry :=
  foldl (λ reg owner, (Wallet_init reg owner).1) reg owners.

End Wallet.

End Registry.

(** * The simulated mixer, [Mixer.py] *)

Module Simulation.

(** A [Wallet] object of [Mixer.py]. *)
Record Wallet := {
  owner_name : string;
  address : string;
  balance : Qc
}.

Definition set_balance (w : Wallet) (b : Qc) : Wallet :=
  {| owner_name := owner_name w; address := address w; balance := b |}.

(** Wallets live in a store and are referred to by location. *)
Abbreviation loc := nat.
Abbreviation store := (loc → Wallet).

(** A [Transaction] object.  [sender_wallet] is the attribute that [main]
    attaches after the construction; the constructor does not set it. *)
Record Transaction := {
  sender_address : string;
  receiver_address : string;
  amount : Qc;
  timestamp : Qc;
  transaction_id : string;
  sender_wallet : option loc
}.

(** [tx.sender_wallet = wallet] *)
Definition attach (tx : Transaction) (wallet : loc) : Transaction :=
  {| sender_address := sender_address tx;
     receiver_address := receiver_address tx;
     amount := amount tx;
     timestamp := timestamp tx;
     transaction_id := transaction_id tx;
     sender_wallet := Some wallet |}.

(** A [Mixer] object. *)
Record Mixer := {
  pending_transactions : list Transaction;
  ledger : list Transaction
}.

(** [self.pool_address], which is also [self.address]. *)
Definition pool_address : string := "mixer_pool_address".

(** [Mixer.__init__(self)] *)
Definition Mixer_init : Mixer :=
  {| pending_transactions := []; ledger := [] |}.

(** What [add_transaction_to_pool] ends with: it returns, or the attribute
    [sender_wallet] is missing. *)
Inductive add_outcome := Returned | AttributeError.

Section simulation.

(** The rounding of the balance updates, [hashlib.sha256(s.encode())
    .hexdigest()], the digest of the formatted transaction data, and the
    successive readings of [time.time()]. *)
Variable rnd : Qc → Qc.
Variable sha256_hexdigest : string → string.
Variable transaction_digest : string → string → Qc → Qc → string.
Variable clock : nat → Qc.

(** [Wallet.__init__(self, owner)] *)
Definition Wallet_init (owner : string) : Wallet :=
  {| owner_name := owner;
     address := "1x" +:+ String.substring 0 10 (sha256_hexdigest owner);
     balance := Qc_of_Z 100 |}.

(** [Transaction.__init__(self, sender_wallet, receiver_address, amount)]:
    of its first argument, a wallet or the mixer, only the attribute
    [address] is read; [now] is the reading of the clock. *)
Definition Transaction_init (now : Qc) (sender_address receiver_address : string)
    (amount : Qc) : Transaction :=
  {| sender_address := sender_address;
     receiver_address := receiver_address;
     amount := amount;
     timestamp := now;
     transaction_id :=
       transaction_digest sender_address receiver_address amount now;
     sender_wallet := None |}.

(** [Mixer.add_transaction_to_pool(self, transaction)]: the transaction is
    appended to the pool first, then the balance of its sender's wallet is
    lowered, [-=] rounding its result. *)
Definition add_transaction_to_pool (self : Mixer) (σ : store)
    (transaction : Transaction) : Mixer * store * add_outcome :=
  let self' :=
    {| pending_transactions := pending_transactions self ++ [transaction];
       ledger := ledger self |} in
  match sender_wallet transaction with
  | None => (self', σ, AttributeError)
  | Some w =>
      (self',
       <[w := set_balance (σ w) (rnd (balance (σ w) - amount transaction))]> σ,
       Returned)
  end.

(** [next((w for w in all_wallets if w.address == address), None)] *)
Definition find_recipient (σ : store) (all_wallets : list loc)
    (address' : string) : option loc :=
  snd <$> list_find (λ w, address (σ w) = address') all_wallets.

(** One iteration of the loop of [mix_and_send]: the state is the ledger,
    the store and the number of readings of the clock so far; [+=] rounds
    its result. *)
Definition send_one (all_wallets : list loc)
    (state : list Transaction * store * nat) (tx : Transaction)
  : list Transaction * store * nat :=
  let '(ledger, σ, reads) := state in
  let mixed_tx :=
    Transaction_init (clock reads) pool_address (receiver_address tx)
                     (amount tx) in
  match find_recipient σ all_wallets (receiver_address tx) with
  | Some w =>
      (ledger ++ [mixed_tx],
       <[w := set_balance (σ w) (rnd (balance (σ w) + amount tx))]> σ,
       S reads)
  | None => (ledger, σ, S reads)
  end.

(** [Mixer.mix_and_send(self, all_wallets)].  [shuffle] is what
    [random.shuffle] makes of the pool: some rearrangement of it.  The ledger
    of the mixer that is returned is the value of the call. *)
Definition mix_and_send (shuffle : list Transaction → list Transaction)
    (self : Mixer) (σ : store) (reads : nat) (all_wallets : list loc)
  : Mixer * store * nat :=
  let '(ledger', σ', reads') :=
    foldl (send_one all_wallets) (ledger self, σ, reads)
          (shuffle (pending_transactions self)) in
  ({| pending_transactions := []; ledger := ledger' |}, σ', reads').

(** Successive calls of [add_transaction_to_pool], as [main] makes them; a
    call that raises ends the sequence. *)
Fixpoint add_transactions_to_pool (self : Mixer) (σ : store)
    (txs : list Transaction) : Mixer * store * add_outcome :=
  match txs with
  | [] => (self, σ, Returned)
  | tx :: txs' =>
      match add_transaction_to_pool self σ tx with
      | (self', σ', Returned) => add_transactions_to_pool self' σ' txs'
      | raised => raised
      end
  end.

(** The balance that the wallet [w] has after [add_transaction_to_pool] has
    returned from the call with [tx], [b] being its balance before. *)
Definition debit (w : loc) (b : Qc) (tx : Transaction) : Qc :=
  if decide (sender_wallet tx = Some w) then rnd (b - amount tx) else b.

(** The balance that the wallet [w] has after the loop of [mix_and_send] has
    dealt with [tx], [b] being its balance before; [σ] gives the addresses of
    the wallets. *)
Definition credit (σ : store) (all_wallets : list loc) (w : loc) (b : Qc)
    (tx : Transaction) : Qc :=
  if decide (find_recipient σ all_wallets (receiver_address tx) = Some w)
  then rnd (b + amount tx) else b.

End simulation.

(** The amounts delivered to the wallet [w] when the transactions [txs] are
    sent. *)
Definition credited (σ : store) (all_wallets : list loc) (w : loc)
    (txs : list Transaction) : Qc :=
  foldr (λ tx acc,
           if decide (find_recipient σ all_wallets (receiver_address tx)
                      = Some w)
           then amount tx + acc else acc) 0 txs.

(** The transactions whose receiver address is the address of a wallet of
    [all_wallets]. *)
Definition deliverable (σ : store) (all_wallets : list loc)
    (txs : list Transaction) : list Transaction :=
  filter (λ tx, is_Some (find_recipient σ all_wallets (receiver_address tx)))
         txs.

(** The amounts taken from the wallet [w] when the transactions [txs] are
    added to the pool. *)
Definition debited (w : loc) (txs : list Transaction) : Qc :=
  foldr (λ tx acc,
           if decide (sender_wallet tx = Some w) then amount tx + acc else acc)
        0 txs.

(** The balances of the wallets at the given locations, added up. *)
Definition total_balance (σ : store) (wallets : list loc) : Qc :=
  foldr (λ l acc, balance (σ l) + acc) 0 wallets.

(** The amounts of the transactions, added up. *)
Definition sum_amounts (txs : list Transaction) : Qc :=
  foldr (λ tx acc, amount tx + acc) 0 txs.

(** The magnitudes of the amounts, added up. *)
Definition magnitude (txs : list Transaction) : Qc :=
  foldr (λ tx acc, Qcabs (amount tx) + acc) 0 txs.

(** Updates of the balance [b] by amounts of [txs], each of them used once
    at most, are exact: all are whole numbers, and no result reaches 2^53 in
    magnitude. *)
Definition exact_for (b : Qc) (txs : list Transaction) : Prop :=
  whole b ∧ Forall (λ tx, whole (amount tx)) txs ∧
  Qcabs b + magnitude txs < Qc_of_Z (2 ^ 53).

(** Transactions with the amounts 0.1, 0.2 and 33.33, as the machine reads
    these literals, all to the wallet with the address "1xa". *)
Definition fractional_pool : list Transaction :=
  (λ a, {| sender_address := "1xb"; receiver_address := "1xa";
           amount := binary64 a; timestamp := 0; transaction_id := "id";
           sender_wallet := Some 1%nat |})
    <$> [Q2Qc (1 # 10); Q2Qc (2 # 10); Q2Qc (3333 # 100)].

(** What a ledger entry shows to its reader. *)
Definition public_view (tx : Transaction) : string * string * Qc :=
  (sender_address tx, receiver_address tx, amount tx).

(** ** A sample store: the wallets of two users, at the locations 0 and 1,
    with the addresses "1xa" and "1xb" and a balance of 100 each; every other
    location holds a wallet with the address "1xc". *)
Definition sample_store : store :=
  λ l, {| owner_name := "user";
          address := match l with 0%nat => "1xa" | 1%nat => "1xb" | _ => "1xc" end;
          balance := Qc_of_Z 100 |}.

Definition sample_transaction : Transaction :=
  {| sender_address := "1xa"; receiver_address := "1xb";
     amount := Qc_of_Z 10; timestamp := 0; transaction_id := "id";
     sender_wallet := Some 0%nat |}.

Definition sample_transaction' : Transaction :=
  {| sender_address := "1xb"; receiver_address := "1xa";
     amount := Qc_of_Z 5; timestamp := 0; transaction_id := "id";
     sender_wallet := Some 1%nat |}.

Definition sample_mixer : Mixer :=
  {| pending_transactions := [sample_transaction; sample_transaction'];
     ledger := [] |}.

Definition sample_digest : string → string → Qc → Qc → string :=
  λ _ _ _ _, "id".

Definition sample_clock : nat → Qc := λ _, 0.

End Simulation.

(** * The simulation, [main] of [Mixer.py]

    [main] creates the users, lets them hand transactions to the mixer, has
    the mixer send them on and runs the analysis on what an observer sees:
    the balances before and after, and the amounts.  Here the users, the
    wallets they were created with and the transfers they make are
    arguments. *)

Module Main.
Import Mixer Scenarios Simulation.

(** [u.wallet]: [User.__init__] creates one wallet for each user object, so
    the wallet is located by the identity of the user. *)
Definition wallet (u : User) : loc := uid u.

(** [{u.name: u.wallet.balance for u in users}] *)
Definition balances_by_name (σ : store) (users : list User) : balances :=
  foldl (λ d u, <[name u := balance (σ (wallet u))]> d) ∅ users.

(** What [main] ends with: the analysis has run, or an [AttributeError] has
    come up on the way. *)
Inductive main_outcome :=
  | Analysed (r : result solution_set)
  | Attribute_error.

Global Instance main_outcome_eq_dec : EqDecision main_outcome.
Proof. solve_decision. Defined.

Section main.
Variable rnd : Qc → Qc.
Variable transaction_digest : string → string → Qc → Qc → string.
Variable clock : nat → Qc.

(** For each transfer,
    [tx = Transaction(sender.wallet, receiver.wallet.address, amount)],
    [tx.sender_wallet = sender.wallet] and
    [mixer.add_transaction_to_pool(tx)]. *)
Fixpoint submit_all (mixer : Mixer) (σ : store) (reads : nat)
    (transfers : list transfer) : Mixer * store * nat * add_outcome :=
  match transfers with
  | [] => (mixer, σ, reads, Returned)
  | (sender, receiver, amount) :: transfers' =>
      let tx :=
        attach (Transaction_init transaction_digest (clock reads)
                  (address (σ (wallet sender)))
                  (address (σ (wallet receiver))) amount)
               (wallet sender) in
      match add_transaction_to_pool rnd mixer σ tx with
      | (mixer', σ', Returned) => submit_all mixer' σ' (S reads) transfers'
      | (mixer', σ', AttributeError) => (mixer', σ', S reads, AttributeError)
      end
  end.

Definition main (shuffle : list Transaction → list Transaction) (σ : store)
    (users : list User) (transfers : list transfer) : main_outcome :=
  let wallets := wallet <$> users in
  let initial_balances := balances_by_name σ users in
  match submit_all Mixer_init σ 0 transfers with
  | (mixer, σ1, reads, Returned) =>
      let tx_amounts := transfers.*2 in
      let σ2 :=
        (mix_and_send rnd transaction_digest clock shuffle mixer σ1 reads
                      wallets).1.2 in
      let final_balances := balances_by_name σ2 users in
      Analysed (Rounded.analyze_mixer_privacy rnd initial_balances
                  final_balances tx_amounts users)
  | (_, _, _, AttributeError) => Attribute_error
  end.

End main.

(** Two users with the wallets of [sample_store], and a stand-in for the
    digest of a name. *)
Definition sample_users : list User := [user_A; user_B].
Definition sample_sha : string → string := λ name, name.

End Main.

(** * The public simulation, [main] of [Public.py]

    [main] creates the users, which registers their wallets, and lets them
    pay each other directly, one [Transaction] after the other inside one
    [try] block: the first [ValueError] ends the block, and the transactions
    made before it stay in the ledger.  Here the users and the transfers are
    arguments. *)

Module PublicMain.
Import Public Registry.

(** A [User] object of [Public.py]; [uid] stands for its identity. *)
Record User := { uid : nat; name : string }.

(** [u.wallet], located by the identity of the user. *)
Definition wallet (u : User) : loc := uid u.

Abbreviation transfer := (User * User * Qc)%type.

Section main.
Variable rnd : Qc → Qc.
Variable sha256_hexdigest : string → string.
Variable transaction_digest : string → string → Qc → Qc → string.
Variable clock : nat → Qc.

(** [User(name)] for each user, in order: the wallet is created, registered
    and stored. *)
Definition User_init (state : registry * store) (u : User)
  : registry * store :=
  let '(reg, σ) := state in
  let '(reg', w) := Wallet_init sha256_hexdigest reg (name u) in
  (reg', <[wallet u := w]> σ).

Definition create_all (state : registry * store) (users : list User)
  : registry * store :=
  foldl User_init state users.

(** The [try] block: [tx = Transaction(sender.wallet, receiver.wallet,
    amount)] and [public_ledger.append(tx)] for each transfer; [reads]
    counts the readings of the clock.  The last component is the exception
    that ended the block, if one did. *)
Fixpoint execute (σ : store) (reads : nat) (public_ledger : list Transaction)
    (transfers : list transfer) : store * list Transaction * option exn :=
  match transfers with
  | [] => (σ, public_ledger, None)
  | (sender, receiver, amount) :: transfers' =>
      match Transaction_init rnd (clock reads) transaction_digest σ
                             (wallet sender) (wallet receiver) amount with
      | (σ', Ok tx) => execute σ' (S reads) (public_ledger ++ [tx]) transfers'
      | (σ', Raise e) => (σ', public_ledger, Some e)
      end
  end.

(** The balance that the wallet [l] has after the transfer [t] was made,
    [b] being its balance before. *)
Definition settle (l : loc) (b : Qc) (t : transfer) : Qc :=
  settled rnd (wallet t.1.1) (wallet t.1.2) t.2 l b.

(** What [Transaction.__repr__] shows of a ledger entry besides the
    abbreviated digests: the owners' names that the registry gives for the
    two addresses, and the amount. *)
Definition shown (reg : registry) (tx : Transaction)
  : string * string * Qc :=
  (get_owner_name_from_address reg (sender_address tx),
   get_owner_name_from_address reg (receiver_address tx),
   amount tx).

End main.

(** Two users, and a stand-in for the digest of a name. *)
Definition alice : User := {| uid := 0; name := "Alice" |}.
Definition bob : User := {| uid := 1; name := "Bob" |}.
Definition sample_sha : string → string := λ name, name.

End PublicMain.

(** A closed, decidable statement is settled by evaluating its decision
    procedure. *)
Ltac by_evaluation := apply (bool_decide_unpack _); vm_compute; exact I.

(** Linear arithmetic on canonical rationals, done on the rationals they
    stand for. *)
Ltac qc_linear :=
  unfold Qclt, Qcle in *; simpl in *;
  repeat match goal with
  | H : context [Qred ?q] |- _ => rewrite (Qred_correct q) in H
  | |- context [Qred ?q] => rewrite (Qred_correct q)
  end; lra.

(** * Properties of the loops *)

Section for_each_facts.
Context {A K : Type} `{!EqDecision K, !Countable K}.
Implicit Types (body : A → gset K → result (gset K)) (l : list A).

Lemma for_each_cons body x l s :
  for_each body (x :: l) s = body x s ≫= for_each body l.
Proof. reflexivity. Qed.

Lemma for_each_accumulates body l :
  (∀ x, accumulates (body x)) → accumulates (for_each body l).
Proof.
  intros Hbody. induction l as [|x l IH]; intros acc.
  - simpl. by rewrite (left_id_L ∅ (∪)).
  - rewrite !for_each_cons, (Hbody x acc).
    destruct (body x ∅) as [Sx|e]; simpl; [|done].
    rewrite (IH (Sx ∪ acc)), (IH Sx).
    destruct (for_each body l ∅) as [T|e]; simpl; [|done].
    f_equal. by rewrite (assoc_L (∪)).
Qed.

Lemma for_each_Ok body l acc S :
  (∀ x, accumulates (body x)) →
  for_each body l acc = Ok S →
  (∀ x, x ∈ l → ∃ Sx, body x ∅ = Ok Sx) ∧
  (∀ X, X ∈ S ↔ X ∈ acc ∨ ∃ x Sx, x ∈ l ∧ body x ∅ = Ok Sx ∧ X ∈ Sx).
Proof.
  intros Hbody. revert acc S. induction l as [|x l IH]; intros acc S.
  - simpl. intros [= <-]. split; [by intros x ?%elem_of_nil|].
    intros X. split; [by left|]. intros [?|(x&?&?%elem_of_nil&_)]; done.
  - rewrite for_each_cons, (Hbody x acc).
    destruct (body x ∅) as [Sx|e] eqn:Hx; simpl; [|done].
    intros [Hall Hmem]%IH. split.
    + intros y [->|?]%elem_of_cons; eauto.
    + intros X. rewrite Hmem, elem_of_union. split.
      * intros [[?|?]|(y&Sy&?&?&?)]; [right|left|right]; eauto.
        -- exists x, Sx. by rewrite elem_of_cons; auto.
        -- exists y, Sy. by rewrite elem_of_cons; auto.
      * intros [?|(y&Sy&[->|?]%elem_of_cons&Hy&?)]; [by auto| |].
        -- rewrite Hx in Hy. injection Hy as <-. auto.
        -- right. by exists y, Sy.
Qed.

Lemma for_each_is_Ok body l acc :
  (∀ x, accumulates (body x)) →
  (∀ x, x ∈ l → ∃ Sx, body x ∅ = Ok Sx) →
  ∃ S, for_each body l acc = Ok S.
Proof.
  intros Hbody. revert acc. induction l as [|x l IH]; intros acc Hall.
  - by exists acc.
  - rewrite for_each_cons, (Hbody x acc).
    destruct (Hall x) as [Sx ->]; [left|]. simpl.
    apply IH. intros y ?. apply Hall. by right.
Qed.

Lemma for_each_Raise body l acc e :
  (∀ x, accumulates (body x)) →
  for_each body l acc = Raise e →
  ∃ x, x ∈ l ∧ body x ∅ = Raise e.
Proof.
  intros Hbody. revert acc. induction l as [|x l IH]; intros acc; [done|].
  rewrite for_each_cons, (Hbody x acc).
  destruct (body x ∅) as [Sx|e'] eqn:Hx; simpl.
  - intros (y&?&?)%IH. exists y. split; [by right|done].
  - intros [= ->]. exists x. split; [left|done].
Qed.

End for_each_facts.

Section for_each_counted_facts.
Context {A S : Type}.
Implicit Types (body : A → S → result S).
Implicit Types (counted : A → S → nat * result S).

Lemma for_each_ext body (body' : A → S → result S) l s :
  (∀ x s, body x s = body' x s) → for_each body l s = for_each body' l s.
Proof.
  intros Hbody. revert s. induction l as [|x l IH]; intros s; [done|].
  simpl. rewrite Hbody. destruct (body' x s); simpl; [apply IH|done].
Qed.

(** Forgetting the counter gives the loop back. *)
Lemma for_each_counted_result counted body l s :
  (∀ x s, (counted x s).2 = body x s) →
  (for_each_counted counted l s).2 = for_each body l s.
Proof.
  intros Hbody. revert s. induction l as [|x l IH]; intros s; [done|].
  simpl. rewrite <-Hbody. destruct (counted x s) as [n [s'|e]]; simpl; [|done].
  rewrite <-IH. by destruct (for_each_counted counted l s').
Qed.

(** The counter of a loop is at most the sum of the bounds of its
    iterations. *)
Lemma for_each_counted_bound counted (k : A → nat) l s :
  (∀ x s, x ∈ l → (counted x s).1 ≤ k x)%nat →
  ((for_each_counted counted l s).1 ≤ sum_list_with k l)%nat.
Proof.
  revert s. induction l as [|x l IH]; intros s Hk; simpl; [done|].
  assert ((counted x s).1 ≤ k x)%nat as Hx by (apply Hk; left).
  destruct (counted x s) as [n [s'|e]]; simpl in *; [|lia].
  assert ((for_each_counted counted l s').1 ≤ sum_list_with k l)%nat as Hl
    by (apply IH; intros; apply Hk; by right).
  destruct (for_each_counted counted l s'). simpl in *. lia.
Qed.

End for_each_counted_facts.

(** * Dictionaries and sums *)

Lemma dict_get_Ok d k v : dict_get d k = Ok v ↔ d !! k = Some v.
Proof. unfold dict_get. destruct (d !! k); split; congruence. Qed.

Lemma dict_get_Raise d k e : dict_get d k = Raise e → e = KeyError.
Proof. unfold dict_get. destruct (d !! k); congruence. Qed.

Lemma dict_isub_Ok d k a d' :
  dict_isub d k a = Ok d' ↔ ∃ v, d !! k = Some v ∧ d' = <[k := v - a]> d.
Proof.
  unfold dict_isub, dict_get. destruct (d !! k) as [v|]; simpl.
  - split; [intros [= <-]; eauto|]. by intros (?&[= <-]&->).
  - split; [done|]. by intros (?&?&_).
Qed.

Lemma dict_iadd_Ok d k a d' :
  dict_iadd d k a = Ok d' ↔ ∃ v, d !! k = Some v ∧ d' = <[k := v + a]> d.
Proof.
  unfold dict_iadd, dict_get. destruct (d !! k) as [v|]; simpl.
  - split; [intros [= <-]; eauto|]. by intros (?&[= <-]&->).
  - split; [done|]. by intros (?&?&_).
Qed.

Lemma dict_isub_Raise d k a e : dict_isub d k a = Raise e → e = KeyError.
Proof.
  unfold dict_isub, dict_get. destruct (d !! k); simpl; congruence.
Qed.

Lemma dict_iadd_Raise d k a e : dict_iadd d k a = Raise e → e = KeyError.
Proof.
  unfold dict_iadd, dict_get. destruct (d !! k); simpl; congruence.
Qed.

Lemma sum_over_insert_notin (d : balances) k w ns :
  k ∉ ns → Mixer.sum_over (<[k := w]> d) ns = Mixer.sum_over d ns.
Proof.
  induction ns as [|n ns IH]; [done|].
  intros [? ?]%not_elem_of_cons. simpl.
  by rewrite lookup_insert_ne, IH.
Qed.

Lemma sum_over_insert (d : balances) k v w ns :
  NoDup ns → k ∈ ns → d !! k = Some v →
  Mixer.sum_over (<[k := w]> d) ns = Mixer.sum_over d ns + (w - v).
Proof.
  intros Hnd Hk Hv. induction Hnd as [|n ns Hn Hnd IH]; [by inversion Hk|].
  simpl. apply elem_of_cons in Hk as [<-|Hk].
  - rewrite lookup_insert_eq, Hv, sum_over_insert_notin by done. simpl. ring.
  - rewrite lookup_insert_ne by (by intros ->). rewrite IH by done. ring.
Qed.

Lemma sum_balances_insert (d : balances) k v w names :
  k ∈ names → d !! k = Some v →
  Mixer.sum_balances (<[k := w]> d) names
  = Mixer.sum_balances d names + (w - v).
Proof.
  intros. apply sum_over_insert; [apply NoDup_remove_dups| |done].
  by apply elem_of_remove_dups.
Qed.

Lemma tolerance_pos : 0 < tolerance.
Proof. done. Qed.

(** * The rounding of the machine *)

Module Binary64Theory.
Import Binary64.
Local Open Scope Q_scope.

Lemma pow2_pos (k : Z) : 0 < pow2 k.
Proof.
  unfold pow2. destruct (Z.leb_spec 0 k) as [Hk|Hk]; [|done].
  rewrite <-(Zlt_Qlt 0). by apply Z.pow_pos_nonneg.
Qed.

Lemma round_half_even_Z (q : Q) (n : Z) :
  q == inject_Z n → round_half_even q = n.
Proof.
  intros Hq. unfold round_half_even.
  rewrite (Qfloor_comp _ _ Hq), Qfloor_Z.
  assert ((q - inject_Z n ?= 1 # 2)%Q = Lt) as ->; [|done].
  apply Qlt_alt. rewrite Hq.
  assert (inject_Z n - inject_Z n == 0) as -> by ring. done.
Qed.

Lemma Qlog2_Z (z : Z) : (0 < z)%Z → Qlog2 (inject_Z z) = Z.log2 z.
Proof.
  intros Hz. unfold Qlog2. simpl. rewrite Z.sub_0_r.
  assert (Qle_bool (pow2 (Z.log2 z)) (inject_Z z) = true) as ->; [|done].
  apply Qle_bool_iff. unfold pow2.
  pose proof (Z.log2_nonneg z) as Hnonneg.
  rewrite (proj2 (Z.leb_le _ _) Hnonneg), <-Zle_Qle.
  by apply Z.log2_spec.
Qed.

(** A whole number divided by a power of two with an exponent that is not
    positive is a whole number. *)
Lemma Qdiv_pow2_Z (n k : Z) :
  (k ≤ 0)%Z → ∃ m, inject_Z n / pow2 k == inject_Z m.
Proof.
  intros Hk. unfold pow2. destruct (Z.leb_spec 0 k) as [Hk'|Hk'].
  - assert (k = 0%Z) as -> by lia. exists n. unfold Qdiv.
    change (/ inject_Z (2 ^ 0)) with 1. apply Qmult_1_r.
  - exists (n * 2 ^ (- k))%Z.
    assert (0 < 2 ^ (- k))%Z as Hpos by (apply Z.pow_pos_nonneg; lia).
    rewrite inject_Z_mult. unfold Qdiv, Qinv. simpl.
    unfold Qeq, Qmult. simpl. rewrite Z2Pos.id by done. ring.
Qed.

Lemma round_Z (z : Z) :
  (Z.abs z < 2 ^ 53)%Z → round (inject_Z z) == inject_Z z.
Proof.
  intros Hz. unfold round.
  destruct (Qeq_bool (inject_Z z) 0) eqn:Hzero.
  { apply Qeq_bool_iff in Hzero. by rewrite Hzero. }
  apply Qeq_bool_neq in Hzero.
  assert (z ≠ 0%Z) as Hne by (by intros ->).
  change (Qabs (inject_Z z)) with (inject_Z (Z.abs z)).
  rewrite Qlog2_Z by lia.
  assert (0 ≤ Z.log2 (Z.abs z) < 53)%Z as Hlog.
  { split; [apply Z.log2_nonneg|]. apply Z.log2_lt_pow2; lia. }
  rewrite Z.max_l by lia.
  set (s := (Z.log2 (Z.abs z) - 52)%Z).
  destruct (Qdiv_pow2_Z (Z.abs z) s) as [m Hm]; [unfold s; lia|].
  rewrite (round_half_even_Z _ m Hm).
  assert (inject_Z m * pow2 s == inject_Z (Z.abs z)) as Hback.
  { rewrite <-Hm. field. apply Qnot_eq_sym, Qlt_not_eq, pow2_pos. }
  destruct (Qle_bool 0 (inject_Z z)) eqn:Hsign; rewrite Hback.
  - apply Qle_bool_iff in Hsign. rewrite <-(Zle_Qle 0) in Hsign.
    by rewrite Z.abs_eq.
  - assert (z < 0)%Z as Hneg.
    { unfold Qle_bool in Hsign. simpl in Hsign.
      apply Z.leb_gt in Hsign. lia. }
    rewrite Z.abs_neq by lia. rewrite inject_Z_opp. ring.
Qed.

Lemma round_nonneg (q : Q) : 0 <= q → 0 <= round q.
Proof.
  intros Hq. unfold round.
  destruct (Qeq_bool q 0); [done|].
  rewrite (proj2 (Qle_bool_iff 0 q) Hq).
  apply Qmult_le_0_compat; [|apply Qlt_le_weak, pow2_pos].
  rewrite <-(Zle_Qle 0). unfold round_half_even.
  set (x := Qabs q / pow2 _).
  assert (0 <= x) as Hx.
  { apply Qle_shift_div_l; [apply pow2_pos|].
    rewrite Qmult_0_l. apply Qabs_nonneg. }
  assert (0 ≤ Qfloor x)%Z as Hfloor.
  { rewrite <-(Qfloor_Z 0). by apply Qfloor_resp_le. }
  destruct (x - inject_Z (Qfloor x) ?= 1 # 2)%Q; [destruct (Z.even _)| |];
    lia.
Qed.

End Binary64Theory.

(** Whole numbers below 2^53 are binary64 numbers. *)
Lemma binary64_keeps_small_wholes : keeps_small_wholes binary64.
Proof.
  intros z Hz. apply Qc_is_canon. unfold binary64. simpl.
  rewrite Qred_correct. by apply Binary64Theory.round_Z.
Qed.

Lemma binary64_keeps_sign : keeps_sign binary64.
Proof.
  intros x Hx. unfold binary64, Qcle. simpl.
  rewrite (Qred_correct (Binary64.round x)).
  by apply Binary64Theory.round_nonneg.
Qed.

(** The literal [1e-9] is 0x1.12e0be826d695p-30. *)
Lemma binary64_tolerance :
  binary64 tolerance = Q2Qc (4835703278458517 # 4835703278458516698824704).
Proof. by_evaluation. Qed.

Lemma binary64_keeps_tolerance_small : keeps_tolerance_small binary64.
Proof.
  unfold keeps_tolerance_small. rewrite binary64_tolerance.
  split; by vm_compute.
Qed.

Lemma exact_keeps_small_wholes : keeps_small_wholes exact.
Proof. by intros z _. Qed.

(** The literals [0.1] and [33.33], and two sums that round. *)
Lemma binary64_samples :
  binary64 (Q2Qc (1 # 10)) = Q2Qc (3602879701896397 # 36028797018963968) ∧
  binary64 (Q2Qc (3333 # 100)) = Q2Qc (2345390243441541 # 70368744177664) ∧
  binary64 (Qc_of_Z (10 ^ 17) + 1) = Qc_of_Z (10 ^ 17) ∧
  binary64 (Qc_of_Z (2 ^ 53) + 1) = Qc_of_Z (2 ^ 53).
Proof. split_and!; by_evaluation. Qed.

(** ** Whole numbers *)

Lemma whole_add x y : whole x → whole y → whole (x + y).
Proof.
  intros [zx ->] [zy ->]. exists (zx + zy)%Z. by rewrite Z2Qc_inj_add.
Qed.

Lemma whole_sub x y : whole x → whole y → whole (x - y).
Proof.
  intros [zx ->] [zy ->]. exists (zx - zy)%Z. by rewrite Z2Qc_inj_sub.
Qed.

Lemma Qcabs_of_Z z : Qcabs (Qc_of_Z z) = Qc_of_Z (Z.abs z).
Proof.
  destruct (Z.le_ge_cases 0 z) as [Hz|Hz].
  - rewrite Z.abs_eq by done. apply Qcabs_pos.
    by rewrite <-Z2Qc_inj_0, <-Z2Qc_inj_le.
  - rewrite Z.abs_neq, Z2Qc_inj_opp by done. apply Qcabs_neg.
    by rewrite <-Z2Qc_inj_0, <-Z2Qc_inj_le.
Qed.

(** A rounding that keeps the small whole numbers keeps every whole number
    below 2^53 in magnitude. *)
Lemma keeps_whole rnd x :
  keeps_small_wholes rnd → whole x → Qcabs x < Qc_of_Z (2 ^ 53) →
  rnd x = x.
Proof.
  intros Hrnd [z ->] Hlt. apply Hrnd.
  by rewrite Qcabs_of_Z, <-Z2Qc_inj_lt in Hlt.
Qed.

(** A whole number below 1 in magnitude is 0. *)
Lemma whole_small x : whole x → Qcabs x < 1 → x = 0.
Proof.
  intros [z ->]. rewrite Qcabs_of_Z, <-Z2Qc_inj_1, <-Z2Qc_inj_lt.
  intros Hz. replace z with 0%Z by lia. apply Z2Qc_inj_0.
Qed.

(** ** Bounds *)

Lemma Qcabs_sub_triangle (x y : Qc) : Qcabs (x - y) ≤ Qcabs x + Qcabs y.
Proof. unfold Qcminus. rewrite <-(Qcabs_opp y). apply Qcabs_triangle. Qed.

Lemma Qc_nonneg_add (x y : Qc) : 0 ≤ x → 0 ≤ y → 0 ≤ x + y.
Proof. intros. qc_linear. Qed.

Lemma Qc_le_add_nonneg (x a : Qc) : 0 ≤ a → x ≤ a + x.
Proof. intros. qc_linear. Qed.

Lemma Qcabs_add_le (x y m : Qc) : Qcabs y ≤ m → Qcabs (x + y) ≤ Qcabs x + m.
Proof. intros. pose proof (Qcabs_triangle x y). qc_linear. Qed.

Lemma Qcabs_add_bound (x a m B : Qc) :
  Qcabs x + (Qcabs a + m) < B → Qcabs (x + a) + m < B.
Proof. intros. pose proof (Qcabs_triangle x a). qc_linear. Qed.

Lemma Qcabs_sub_bound (x a m B : Qc) :
  Qcabs x + (Qcabs a + m) < B → Qcabs (x - a) + m < B.
Proof. intros. pose proof (Qcabs_sub_triangle x a). qc_linear. Qed.

Lemma Qcabs_sub_bound_le (x d m1 m2 B : Qc) :
  Qcabs d ≤ m1 → Qcabs x + (m1 + m2) < B → Qcabs (x - d) + m2 < B.
Proof. intros. pose proof (Qcabs_sub_triangle x d). qc_linear. Qed.

Lemma Qc_bound_skip (x a m B : Qc) : 0 ≤ a → x + (a + m) < B → x + m < B.
Proof. intros. qc_linear. Qed.

Lemma Qc_bound_head (x m B : Qc) : 0 ≤ m → x + m < B → x < B.
Proof. intros. qc_linear. Qed.

Lemma Qc_bound_tail (x m n B : Qc) : 0 ≤ n → x + (m + n) < B → x + m < B.
Proof. intros. qc_linear. Qed.

Lemma foldl_step {A B} (f : A → B → A) (a : A) (x : B) (l : list B) :
  foldl f a (x :: l) = foldl f (f a x) l.
Proof. done. Qed.

(** * The orderings of the amounts *)

Section permutations.
Context {A : Type}.
Implicit Types (pool p : list A) (indices : list nat).

Lemma elem_of_index_product n r indices :
  indices ∈ Mixer.index_product n r ↔
  length indices = r ∧ Forall (λ i, i < n)%nat indices.
Proof.
  revert indices. induction r as [|r IH]; intros indices; simpl.
  - rewrite list_elem_of_singleton. split; [by intros ->|].
    by intros [?%nil_length_inv _].
  - rewrite list_elem_of_bind. split.
    + intros (i&(t&->&[<- Ht]%IH)%list_elem_of_fmap&Hi%elem_of_seq).
      split; [done|]. constructor; [lia|done].
    + intros [Hlen Hall]. destruct Hall as [|i t Hi Ht]; [done|].
      exists i. split; [|apply elem_of_seq; lia].
      apply list_elem_of_fmap. exists t. split; [done|].
      apply IH. split; [|done]. by injection Hlen.
Qed.

Lemma read_mapped_indices pool (f : nat → nat) indices :
  omap (λ i, pool !! i) (f <$> indices) = omap (λ i, pool !! f i) indices.
Proof.
  induction indices as [|i indices IH]; [done|]. csimpl. by rewrite IH.
Qed.

(** Reading the pool at [0, 1, ..., n-1] gives the pool back. *)
Lemma read_all_indices pool :
  omap (λ i, pool !! i) (seq 0 (length pool)) = pool.
Proof.
  induction pool as [|x pool IH]; [done|].
  change (seq 0 (length (x :: pool))) with (0 :: seq 1 (length pool))%nat.
  rewrite <-fmap_S_seq. csimpl. rewrite read_mapped_indices. f_equal.
  exact IH.
Qed.

(** A tuple of [n] distinct indices below [n] lists all of them. *)
Lemma distinct_indices_Permutation n indices :
  length indices = n → Forall (λ i, i < n)%nat indices → NoDup indices →
  indices ≡ₚ seq 0 n.
Proof.
  intros Hlen Hall Hnd. apply submseteq_length_Permutation.
  - apply NoDup_submseteq; [done|]. intros i Hi. apply elem_of_seq.
    rewrite list.Forall_forall in Hall. specialize (Hall i Hi). lia.
  - rewrite length_seq. lia.
Qed.

(** [itertools.permutations] yields the rearrangements of the pool, and
    nothing else. *)
Lemma elem_of_itertools_permutations pool p :
  p ∈ Mixer.itertools_permutations pool ↔ p ≡ₚ pool.
Proof.
  unfold Mixer.itertools_permutations. rewrite list_elem_of_fmap. split.
  - intros (indices&->&[Hnd [Hlen Hall]%elem_of_index_product]
              %list_elem_of_filter).
    rewrite (distinct_indices_Permutation _ _ Hlen Hall Hnd).
    by rewrite read_all_indices.
  - intros [Hlen (f&Hf&Hp)]%Permutation_inj.
    set (n := length pool) in *.
    assert (∀ i, i < n → f i < n)%nat as Hrange.
    { intros i Hi. apply lookup_lt_is_Some. rewrite <-Hp.
      apply lookup_lt_is_Some. lia. }
    exists (f <$> seq 0 n). split.
    + rewrite read_mapped_indices, <-Hlen.
      rewrite <-(read_all_indices p) at 1.
      apply list_omap_ext, Forall2_same_length_lookup_2; [done|].
      intros i x y Hx Hy. rewrite Hx in Hy. by injection Hy as <-.
    + apply list_elem_of_filter. split.
      * apply NoDup_fmap_2; [done|apply NoDup_seq].
      * apply elem_of_index_product. rewrite length_fmap, length_seq.
        split; [done|]. apply Forall_fmap, list.Forall_forall.
        intros i Hi%elem_of_seq. simpl. apply Hrange. lia.
Qed.

End permutations.

(** * The mixer privacy analysis *)

Module MixerTheory.
Import Mixer.

Section search.
Variables (final_balances : balances) (tx_amounts : list Qc).
Variable users : list User.

Abbreviation search := (find_solutions_from final_balances tx_amounts users).
Abbreviation matches := (balances_match final_balances).
Abbreviation names := (user_names users).
Abbreviation N := (num_tx tx_amounts).

(** ** The three cases of the search *)

Lemma search_base suffix b path acc :
  search suffix N b path acc
  = (ok ← matches b names;
     if ok : bool then Ok (set_add (frozenset path) acc) else Ok acc).
Proof. destruct suffix; simpl; by rewrite decide_True. Qed.

Lemma search_out_of_range i b path acc :
  i ≠ N → search [] i b path acc = Raise IndexError.
Proof. intros. simpl. by rewrite decide_False. Qed.

Lemma search_step amount suffix i b path acc :
  i ≠ N →
  search (amount :: suffix) i b path acc
  = for_each (λ sender,
      for_each (λ receiver,
        try_pair (search suffix (i + 1)) b path amount sender receiver) users)
      users acc.
Proof. intros. simpl. by rewrite decide_False. Qed.

(** The Python function, unfolded once: the base case at
    [tx_index == num_tx], the subscript [ordered_amounts[tx_index]], and the
    recursive calls at [tx_index + 1]. *)
Lemma find_solutions_recursive_unfold i b path ordered_amounts acc :
  find_solutions_recursive final_balances tx_amounts users i b path
    ordered_amounts acc
  = if decide (i = N) then
      ok ← matches b names;
      if ok : bool then Ok (set_add (frozenset path) acc) else Ok acc
    else
      match ordered_amounts !! i with
      | None => Raise IndexError
      | Some amount =>
          for_each (λ sender,
            for_each (λ receiver,
              try_pair (λ b' path',
                          find_solutions_recursive final_balances tx_amounts
                            users (i + 1) b' path' ordered_amounts)
                       b path amount sender receiver) users)
            users acc
      end.
Proof.
  unfold find_solutions_recursive. case_decide as Hi.
  - subst. apply search_base.
  - destruct (ordered_amounts !! i) as [amount|] eqn:Hlookup.
    + rewrite (drop_S _ _ _ Hlookup), search_step by done.
      by rewrite Nat.add_1_r.
    + rewrite drop_ge by (by apply lookup_ge_None). by apply search_out_of_range.
Qed.

Lemma try_pair_accumulates recurse b path amount sender receiver :
  (∀ b' path', accumulates (recurse b' path')) →
  accumulates (try_pair recurse b path amount sender receiver).
Proof.
  intros Hrec acc. unfold try_pair. case_decide.
  - simpl. by rewrite (left_id_L ∅ (∪)).
  - destruct (dict_isub _ _ _) as [b1|]; simpl; [|done].
    destruct (dict_iadd _ _ _) as [b2|]; simpl; [|done].
    apply Hrec.
Qed.

Lemma search_accumulates suffix i b path :
  accumulates (search suffix i b path).
Proof.
  revert i b path. induction suffix as [|amount suffix IH]; intros i b path acc;
    (destruct (decide (i = N)) as [->|Hi];
       [rewrite !search_base;
        destruct (matches b names) as [[]|]; simpl; try done;
        [unfold set_add; by rewrite (right_id_L ∅ (∪))
        |by rewrite (left_id_L ∅ (∪))]|]).
  - by rewrite !search_out_of_range.
  - rewrite !search_step by done. apply for_each_accumulates. intros sender.
    apply for_each_accumulates. intros receiver.
    by apply try_pair_accumulates.
Qed.

(** The loops of the search and their bodies accumulate. *)
Ltac accumulating :=
  intros;
  first [ apply search_accumulates
        | apply try_pair_accumulates, search_accumulates
        | apply for_each_accumulates; accumulating ].

(** What the search returns is the set of the paths of the leaves it
    reaches at which the balances match. *)
Lemma search_Ok suffix i b path acc S :
  (i + length suffix = N)%nat →
  search suffix i b path acc = Ok S →
  ∀ X, X ∈ S ↔ X ∈ acc ∨
    ∃ b' path', reach users suffix b path b' path' ∧
                matches b' names = Ok true ∧ X = frozenset path'.
Proof.
  revert i b path acc S.
  induction suffix as [|amount suffix IH]; intros i b path acc S Hi.
  - simpl in Hi. rewrite Nat.add_0_r in Hi. subst i. rewrite search_base.
    destruct (matches b names) as [[]|] eqn:Hm; simpl; [| |done].
    + intros [= <-] X. unfold set_add.
      rewrite elem_of_union, elem_of_singleton. split.
      * intros [->|?]; [right|by left]. exists b, path. by repeat constructor.
      * intros [?|(b'&path'&Hr&_&->)]; [by right|]. inversion Hr; by left.
    + intros [= <-] X. split; [by left|].
      intros [?|(b'&path'&Hr&Hm'&_)]; [done|].
      inversion Hr; subst. congruence.
  - simpl in Hi. rewrite search_step by lia.
    assert (i + 1 + length suffix = N)%nat as Hi' by lia.
    intros Hs X.
    apply for_each_Ok in Hs as [Hall Hmem]; [|accumulating].
    rewrite Hmem. clear Hmem. split.
    + intros [?|(sender&Ss&Hsender&Hs&HX)]; [by left|right].
      apply for_each_Ok in Hs as [_ Hmem]; [|accumulating].
      apply Hmem in HX as [[]%not_elem_of_empty|(receiver&Sr&Hreceiver&Hr&HX)].
      unfold try_pair in Hr. case_decide as Hne.
      { injection Hr as <-. by apply not_elem_of_empty in HX. }
      destruct (dict_isub _ _ _) as [b1|] eqn:Hb1; simpl in Hr; [|done].
      destruct (dict_iadd _ _ _) as [b2|] eqn:Hb2; simpl in Hr; [|done].
      apply (IH _ _ _ _ _ Hi' Hr) in HX as [[]%not_elem_of_empty|HX].
      destruct HX as (b'&path'&?&?&?). exists b', path'.
      split_and!; [|done..].
      by apply (reach_branch users amount suffix b path
                             sender receiver b1 b2).
    + intros [?|(b'&path'&Hr&Hm&->)]; [by left|right].
      inversion Hr as [|???? sender receiver b1 b2 ?? Hsender Hreceiver Hne
                          Hb1 Hb2 Hrest]; subst.
      destruct (Hall sender Hsender) as [Ss Hs]. exists sender, Ss.
      split_and!; [done..|].
      apply for_each_Ok in Hs as [Hall' Hmem]; [|accumulating].
      destruct (Hall' receiver Hreceiver) as [Sr Hsr].
      apply Hmem. right. exists receiver, Sr. split_and!; [done..|].
      unfold try_pair in Hsr. rewrite decide_False in Hsr by done.
      rewrite Hb1 in Hsr. simpl in Hsr. rewrite Hb2 in Hsr. simpl in Hsr.
      apply (IH _ _ _ _ _ Hi' Hsr). right. by exists b', path'.
Qed.

(** ** The comparison at the base case *)

Lemma balances_match_true b ns :
  matches b ns = Ok true ↔
  ∀ n, n ∈ ns → ∃ c f, b !! n = Some c ∧ final_balances !! n = Some f ∧
                       Qcabs (c - f) < tolerance.
Proof.
  induction ns as [|n ns IH]; simpl.
  - split; [by intros _ ? ?%elem_of_nil|done].
  - unfold dict_get.
    destruct (b !! n) as [c|] eqn:Hc; simpl;
      [destruct (final_balances !! n) as [f|] eqn:Hf; simpl|].
    + case_decide as Hcf.
      * rewrite IH. split.
        -- intros Hns m [->|?]%elem_of_cons; [by exists c, f|by apply Hns].
        -- intros Hns m ?. apply Hns. by right.
      * split; [done|]. intros Hns. destruct (Hns n) as (?&?&?&?&?); [left|].
        by simplify_eq.
    + split; [done|]. intros Hns. destruct (Hns n) as (?&?&?&?&?); [left|].
      congruence.
    + split; [done|]. intros Hns. destruct (Hns n) as (?&?&?&?&?); [left|].
      congruence.
Qed.

Lemma balances_match_false b ns :
  matches b ns = Ok false →
  ∃ n c f, n ∈ ns ∧ b !! n = Some c ∧ final_balances !! n = Some f ∧
           tolerance ≤ Qcabs (c - f).
Proof.
  induction ns as [|n ns IH]; simpl; [done|]. unfold dict_get.
  destruct (b !! n) as [c|] eqn:Hc; simpl; [|done].
  destruct (final_balances !! n) as [f|] eqn:Hf; simpl; [|done].
  case_decide as Hcf.
  - intros (m&?&?&?&?)%IH. exists m. eexists _, _. split; [by right|done].
  - intros _. exists n, c, f. split_and!; [left|done..|by apply Qcnot_lt_le].
Qed.

Lemma balances_match_is_Ok b ns :
  (∀ n, n ∈ ns → is_Some (b !! n) ∧ is_Some (final_balances !! n)) →
  ∃ ok, matches b ns = Ok ok.
Proof.
  induction ns as [|n ns IH]; simpl; intros Hns; [by eexists|].
  destruct (Hns n) as [[c Hc] [f Hf]]; [left|].
  unfold dict_get. rewrite Hc, Hf. simpl. case_decide; [|by eexists].
  apply IH. intros. apply Hns. by right.
Qed.

Lemma balances_match_Raise b ns e : matches b ns = Raise e → e = KeyError.
Proof.
  induction ns as [|n ns IH]; simpl; [done|].
  destruct (dict_get b n) eqn:Hc; simpl; [|by intros [= <-]; eapply dict_get_Raise].
  destruct (dict_get final_balances n) eqn:Hf; simpl;
    [|by intros [= <-]; eapply dict_get_Raise].
  by case_decide.
Qed.

(** ** Leaves *)

(** A leaf extends the path by one flow per remaining slot, each between two
    distinct users and carrying the amount of its slot. *)
Lemma reach_path remaining b path b' path' :
  reach users remaining b path b' path' →
  ∃ flows, path' = path ++ flows ∧ flows.*2 = remaining ∧
    Forall (λ x, ∃ sender receiver,
              sender ∈ users ∧ receiver ∈ users ∧
              uid sender ≠ uid receiver ∧
              x.1 = flow_label sender receiver) flows.
Proof.
  induction 1 as [b path|amount remaining b path sender receiver b1 b2 b' path'
                    ????? _ (flows&->&<-&Hflows)].
  - exists []. by rewrite (right_id_L [] (++)).
  - exists ((flow_label sender receiver, amount) :: flows).
    rewrite <-(assoc_L (++)). split_and!; [done..|].
    constructor; [|done]. by exists sender, receiver.
Qed.

(** The flows move value between participants: the sum of the balances is
    the same at every leaf. *)
Lemma reach_sum remaining b path b' path' :
  reach users remaining b path b' path' →
  sum_balances b' names = sum_balances b names.
Proof.
  induction 1 as [|amount remaining b path sender receiver b1 b2 b' path'
                    Hs Hr _ Hb1 Hb2 _ IH]; [done|].
  rewrite IH.
  apply dict_isub_Ok in Hb1 as (v&Hv&->).
  apply dict_iadd_Ok in Hb2 as (v'&Hv'&->).
  rewrite (sum_balances_insert _ _ v') by (by apply list_elem_of_fmap_2 || done).
  rewrite (sum_balances_insert _ _ v) by (by apply list_elem_of_fmap_2 || done).
  ring.
Qed.

Lemma reach_lookup remaining b path b' path' n :
  reach users remaining b path b' path' →
  is_Some (b' !! n) ↔ is_Some (b !! n).
Proof.
  induction 1 as [|amount remaining b path sender receiver b1 b2 b' path'
                    _ _ _ Hb1 Hb2 _ IH]; [done|].
  rewrite IH.
  apply dict_isub_Ok in Hb1 as (v&Hv&->).
  apply dict_iadd_Ok in Hb2 as (v'&Hv'&->).
  rewrite !lookup_insert_is_Some'. split; [|by auto].
  intros [<-|[<-|?]]; [| |done].
  - assert (is_Some (<[name sender := v - amount]> b !! name receiver)) as Hr
      by (by exists v').
    apply lookup_insert_is_Some' in Hr as [<-|?]; [by exists v|done].
  - by exists v.
Qed.

(** ** Exceptions of the search *)

(** On an ordering with a slot for every amount the subscript
    [ordered_amounts[tx_index]] is in range; only a missing balance raises. *)
Lemma search_Raise suffix i b path acc e :
  (i + length suffix = N)%nat →
  search suffix i b path acc = Raise e → e = KeyError.
Proof.
  revert i b path acc.
  induction suffix as [|amount suffix IH]; intros i b path acc Hi.
  - simpl in Hi. rewrite Nat.add_0_r in Hi. subst i. rewrite search_base.
    destruct (matches b names) as [[]|] eqn:Hm; simpl; [done..|].
    intros [= <-]. by eapply balances_match_Raise.
  - simpl in Hi. rewrite search_step by lia.
    intros (sender&_&(receiver&_&Hr)%for_each_Raise)%for_each_Raise;
      [|accumulating..].
    unfold try_pair in Hr. case_decide; [done|].
    destruct (dict_isub _ _ _) eqn:Hb1; simpl in Hr;
      [|injection Hr as <-; by eapply dict_isub_Raise].
    destruct (dict_iadd _ _ _) eqn:Hb2; simpl in Hr;
      [|injection Hr as <-; by eapply dict_iadd_Raise].
    eapply IH; [|done]. lia.
Qed.

(** When every participant has a balance on both sides, no subscript fails
    and the search returns. *)
Lemma search_is_Ok suffix i b path acc :
  (i + length suffix = N)%nat →
  (∀ u, u ∈ users →
     is_Some (b !! name u) ∧ is_Some (final_balances !! name u)) →
  ∃ S, search suffix i b path acc = Ok S.
Proof.
  revert i b path acc.
  induction suffix as [|amount suffix IH]; intros i b path acc Hi Hcover.
  - simpl in Hi. rewrite Nat.add_0_r in Hi. subst i. rewrite search_base.
    destruct (balances_match_is_Ok b names) as [ok ->].
    { intros n (u&->&?)%list_elem_of_fmap. by apply Hcover. }
    destruct ok; by eexists.
  - simpl in Hi. rewrite search_step by lia.
    apply for_each_is_Ok; [accumulating|].
    intros sender Hsender. apply for_each_is_Ok; [accumulating|].
    intros receiver Hreceiver. unfold try_pair. case_decide; [by eexists|].
    destruct (Hcover sender Hsender) as [[v Hv] _].
    destruct (Hcover receiver Hreceiver) as [Hr _].
    unfold dict_isub, dict_iadd, dict_get. rewrite Hv. simpl.
    assert (is_Some (<[name sender := v - amount]> b !! name receiver))
      as [v' ->] by (apply lookup_insert_is_Some'; by right).
    simpl. apply IH; [lia|]. intros u Hu. destruct (Hcover u Hu) as [? ?].
    split; [|done]. rewrite !lookup_insert_is_Some'. auto.
Qed.

End search.

(** The amounts enter the search through their number [num_tx] only. *)
Lemma search_same_length final_balances tx_amounts tx_amounts' users
    suffix i b path acc :
  length tx_amounts = length tx_amounts' →
  find_solutions_from final_balances tx_amounts users suffix i b path acc
  = find_solutions_from final_balances tx_amounts' users suffix i b path acc.
Proof.
  intros Hlen. revert i b path acc.
  induction suffix as [|amount suffix IH]; intros i b path acc; simpl;
    unfold num_tx; rewrite Hlen; case_decide; try done.
  apply for_each_ext. intros sender acc'.
  apply for_each_ext. intros receiver acc''.
  unfold try_pair. case_decide; [done|].
  destruct (dict_isub _ _ _); simpl; [|done].
  destruct (dict_iadd _ _ _); simpl; [|done].
  apply IH.
Qed.

(** ** The loop over the orderings *)

Section analysis.
Variables (initial_balances final_balances : balances).
Variables (tx_amounts : list Qc) (users : list User).

Abbreviation run :=
  (run_orderings initial_balances final_balances tx_amounts users).
Abbreviation complete orderings :=
  (∀ p : list Qc, p ∈ orderings → length p = length tx_amounts).

Lemma run_orderings_Ok orderings acc S :
  complete orderings →
  run orderings acc = Ok S →
  ∀ X, X ∈ S ↔ X ∈ acc ∨
    ∃ p b' path', p ∈ orderings ∧
      reach users p initial_balances [] b' path' ∧
      balances_match final_balances b' (user_names users) = Ok true ∧
      X = frozenset path'.
Proof.
  intros Hlen Hrun X. unfold run_orderings in Hrun.
  apply for_each_Ok in Hrun as [Hall Hmem];
    [|intros; apply search_accumulates].
  rewrite Hmem. clear Hmem. split.
  - intros [?|(p&Sp&Hp&Hs&HX)]; [by left|right].
    apply (search_Ok final_balances tx_amounts users p 0 _ _ _ _
             (Hlen p Hp) Hs) in HX
      as [[]%not_elem_of_empty|(b'&path'&?&?&?)].
    by exists p, b', path'.
  - intros [?|(p&b'&path'&Hp&?&?&?)]; [by left|right].
    destruct (Hall p Hp) as [Sp Hs]. exists p, Sp. split_and!; [done..|].
    apply (search_Ok final_balances tx_amounts users p 0 _ _ _ _
             (Hlen p Hp) Hs). right.
    by exists b', path'.
Qed.

Lemma run_orderings_is_Ok orderings acc :
  complete orderings →
  balances_cover initial_balances final_balances users →
  ∃ S, run orderings acc = Ok S.
Proof.
  intros Hlen Hcover.
  apply for_each_is_Ok; [intros; apply search_accumulates|].
  intros p Hp.
  by apply (search_is_Ok final_balances tx_amounts users p 0 _ _ _
              (Hlen p Hp)).
Qed.

Lemma run_orderings_Raise orderings acc e :
  complete orderings → run orderings acc = Raise e → e = KeyError.
Proof.
  intros Hlen (p&Hp&Hr)%for_each_Raise; [|intros; apply search_accumulates].
  by apply (search_Raise final_balances tx_amounts users p 0 _ _ _ _
              (Hlen p Hp)) in Hr.
Qed.

Lemma run_orderings_same_elements orderings orderings' acc :
  complete orderings →
  (∀ p, p ∈ orderings ↔ p ∈ orderings') →
  run orderings acc = run orderings' acc.
Proof.
  intros Hlen Hsame.
  destruct (run orderings acc) as [S|e] eqn:Hl,
           (run orderings' acc) as [S'|e'] eqn:Hl'.
  - unfold run_orderings in Hl, Hl'.
    apply for_each_Ok in Hl as [_ Hl], Hl' as [_ Hl'];
      [|intros; apply search_accumulates..].
    f_equal. apply set_eq. intros X. rewrite Hl, Hl'.
    by setoid_rewrite Hsame.
  - unfold run_orderings in Hl, Hl'.
    apply for_each_Ok in Hl as [Hl _]; [|intros; apply search_accumulates].
    apply for_each_Raise in Hl' as (x&Hx&Hr);
      [|intros; apply search_accumulates].
    apply Hsame, Hl in Hx as [? ?]. congruence.
  - unfold run_orderings in Hl, Hl'.
    apply for_each_Ok in Hl' as [Hl' _]; [|intros; apply search_accumulates].
    apply for_each_Raise in Hl as (x&Hx&Hr);
      [|intros; apply search_accumulates].
    apply Hsame, Hl' in Hx as [? ?]. congruence.
  - apply run_orderings_Raise in Hl, Hl'; [congruence| |done].
    intros p Hp. apply Hlen. by apply Hsame.
Qed.

End analysis.

(** ** The orderings that are tried *)

Lemma elem_of_amount_permutations tx_amounts p :
  p ∈ amount_permutations tx_amounts ↔ p ≡ₚ tx_amounts.
Proof.
  unfold amount_permutations.
  by rewrite elem_of_elements, elem_of_list_to_set,
    elem_of_itertools_permutations.
Qed.

(** Every ordering has as many slots as there are amounts: the search on it
    is at its base case exactly when [tx_index == num_tx]. *)
Lemma length_ordering tx_amounts p :
  p ∈ amount_permutations tx_amounts → length p = length tx_amounts.
Proof. intros Hp%elem_of_amount_permutations. by rewrite Hp. Qed.

Lemma analyze_Ok initial_balances final_balances tx_amounts users S :
  analyze_mixer_privacy initial_balances final_balances tx_amounts users
  = Ok S →
  ∀ X, X ∈ S ↔
    ∃ p b' path', p ≡ₚ tx_amounts ∧
      reach users p initial_balances [] b' path' ∧
      balances_match final_balances b' (user_names users) = Ok true ∧
      X = frozenset path'.
Proof.
  intros HS X.
  rewrite (run_orderings_Ok _ _ _ _ _ _ _ (length_ordering tx_amounts) HS X).
  setoid_rewrite elem_of_amount_permutations. split; [|by right].
  by intros [[]%not_elem_of_empty|?].
Qed.

Lemma analyze_is_Ok initial_balances final_balances tx_amounts users :
  balances_cover initial_balances final_balances users →
  ∃ S, analyze_mixer_privacy initial_balances final_balances tx_amounts users
       = Ok S.
Proof. apply run_orderings_is_Ok, length_ordering. Qed.

Lemma analyze_Raise initial_balances final_balances tx_amounts users e :
  analyze_mixer_privacy initial_balances final_balances tx_amounts users
  = Raise e →
  e = KeyError.
Proof. apply run_orderings_Raise, length_ordering. Qed.

Lemma length_interleave {A} (x : A) l : length (interleave x l) = S (length l).
Proof.
  induction l as [|y l IH]; [done|]. simpl. by rewrite length_fmap, IH.
Qed.

Lemma length_permutations {A} (l : list A) :
  length (permutations l) = fact (length l).
Proof.
  induction l as [|x l IH]; [done|]. simpl.
  assert (∀ ps : list (list A),
            Forall (λ p, length p = length l) ps →
            length (ps ≫= interleave x) = (S (length l) * length ps)%nat)
    as Hbind.
  { induction 1 as [|p ps Hp _ IHps]; [simpl; lia|].
    csimpl. rewrite length_app, length_interleave, IHps, Hp. lia. }
  rewrite Hbind, IH; [lia|].
  apply list.Forall_forall. intros p Hp%permutations_Permutation.
  by rewrite <-Hp.
Qed.

Lemma length_amount_permutations tx_amounts :
  (length (amount_permutations tx_amounts) ≤ fact (length tx_amounts))%nat.
Proof.
  rewrite <-length_permutations. apply submseteq_length, NoDup_submseteq.
  - unfold amount_permutations. apply NoDup_elements.
  - intros p Hp%elem_of_amount_permutations.
    by apply permutations_Permutation.
Qed.

(** ** Conservation *)

(** C1, as the claim states it, fails: A and B start with 100 each and end
    with 90.0000000006 and 110.0000000006, one amount 10 was observed.  The
    sums differ by 1.2e-9, more than the tolerance, and the scenario A → B is
    accepted, since each balance is within 1e-9 of its target. *)
Lemma conservation_within_tolerance_counterexample :
  let final := balances_of (Qc_of_Z 90 + Q2Qc (6 # 10000000000))
                           (Qc_of_Z 110 + Q2Qc (6 # 10000000000)) in
  let users := [user_A; user_B] in
  tolerance < Qcabs (sum_balances initial_100 (user_names users)
                     - sum_balances final (user_names users)) ∧
  analyze_mixer_privacy initial_100 final [Qc_of_Z 10] users
  = Ok {[ {[ ("A -> B", Qc_of_Z 10) ]} ]} ∧
  analyze_mixer_privacy initial_100 final [Qc_of_Z 10] users ≠ Ok ∅.
Proof. split_and!; by_evaluation. Qed.

(** ** Two participants, one amount *)

(** C2: with A going from 100 to 90, B from 100 to 110 and the single amount
    10, the analysis returns exactly one solution, the single pair
    (A -> B, 10). *)
Theorem two_participant_exactness :
  analyze_mixer_privacy initial_100 (balances_of (Qc_of_Z 90) (Qc_of_Z 110))
    [Qc_of_Z 10] [user_A; user_B]
  = Ok {[ {[ ("A -> B", Qc_of_Z 10) ]} ]}.
Proof. by_evaluation. Qed.

(** ** Canonical solutions *)



(** ** Self-transfers *)

(** C4: every pair of every solution that the analysis returns is labelled
    with the names of two users of the input that are distinct objects:
    only such pairs are branched over.  Names being unique, the sender's
    name differs from the receiver's. *)
Theorem no_self_transfer initial_balances final_balances tx_amounts users
    S X label amount :
  analyze_mixer_privacy initial_balances final_balances tx_amounts users
  = Ok S →
  X ∈ S → (label, amount) ∈ X →
  ∃ sender receiver,
    sender ∈ users ∧ receiver ∈ users ∧
    label = flow_label sender receiver ∧
    uid sender ≠ uid receiver ∧
    (unique_names users → name sender ≠ name receiver).
Proof.
  intros HS HX Hflow.
  apply (analyze_Ok _ _ _ _ _ HS) in HX as (p&b'&path'&_&Hreach&_&->).
  apply reach_path in Hreach as (flows&->&_&Hflows).
  apply elem_of_list_to_set in Hflow. simpl in Hflow.
  rewrite list.Forall_forall in Hflows.
  destruct (Hflows _ Hflow) as (sender&receiver&?&?&Huid&?).
  exists sender, receiver. split_and!; [done..|].
  intros Huniq Hname. by apply Huniq in Hname.
Qed.

Lemma no_self_transfer_witness :
  ∃ sender receiver,
    sender ∈ [user_A; user_B] ∧ receiver ∈ [user_A; user_B] ∧
    "A -> B" = flow_label sender receiver ∧
    uid sender ≠ uid receiver ∧
    (unique_names [user_A; user_B] → name sender ≠ name receiver).
Proof.
  apply (no_self_transfer initial_100
           (balances_of (Qc_of_Z 90) (Qc_of_Z 110)) [Qc_of_Z 10]
           [user_A; user_B] {[ {[ ("A -> B", Qc_of_Z 10) ]} ]}
           {[ ("A -> B", Qc_of_Z 10) ]} "A -> B" (Qc_of_Z 10)).
  - by_evaluation.
  - by apply elem_of_singleton.
  - by apply elem_of_singleton.
Defined.

(** ** The base case *)



(** ** The permutation enumerator *)

(** C6: the orderings that are tried are exactly the rearrangements of the
    observed amounts, each listed once, hence at most N! of them, fewer when
    amounts repeat; for no amounts there is exactly one, the empty one. *)
Theorem permutation_enumerator tx_amounts :
  (∀ p, p ∈ amount_permutations tx_amounts ↔ p ≡ₚ tx_amounts) ∧
  NoDup (amount_permutations tx_amounts) ∧
  (length (amount_permutations tx_amounts) ≤ fact (length tx_amounts))%nat ∧
  amount_permutations [] = ([[]])%list ∧
  amount_permutations [Qc_of_Z 5; Qc_of_Z 5]
  = ([[Qc_of_Z 5; Qc_of_Z 5]])%list.
Proof.
  split_and!.
  - intros p. apply elem_of_amount_permutations.
  - unfold amount_permutations. apply NoDup_elements.
  - apply length_amount_permutations.
  - reflexivity.
  - by_evaluation.
Qed.

(** ** Determinism *)

Lemma reach_same_users users users' remaining b path b' path' :
  (∀ u, u ∈ users ↔ u ∈ users') →
  reach users remaining b path b' path' →
  reach users' remaining b path b' path'.
Proof.
  intros Huu'. induction 1 as [|amount remaining b path sender receiver b1 b2
                                 b' path' Hs Hr ? ? ? _ IH];
    [constructor|].
  apply (reach_branch users' amount remaining b path sender receiver b1 b2);
    try done; by apply Huu'.
Qed.

(** C9: the solution set is a function of the input and does not depend on
    the order of traversal.  Any list of the distinct orderings of the
    amounts, in any order, gives the result of the analysis, exception
    included; the amounts count as a multiset, the order in which they were
    observed being irrelevant; and when the participants are listed in
    another order, the set that is returned has the same members. *)
Theorem solution_set_deterministic initial_balances final_balances
    tx_amounts users :
  (∀ orderings,
     (∀ p, p ∈ orderings ↔ p ≡ₚ tx_amounts) →
     run_orderings initial_balances final_balances tx_amounts users
       orderings ∅
     = analyze_mixer_privacy initial_balances final_balances tx_amounts
         users) ∧
  (∀ tx_amounts',
     tx_amounts ≡ₚ tx_amounts' →
     analyze_mixer_privacy initial_balances final_balances tx_amounts' users
     = analyze_mixer_privacy initial_balances final_balances tx_amounts
         users) ∧
  (∀ users' S S',
     users ≡ₚ users' →
     analyze_mixer_privacy initial_balances final_balances tx_amounts users
     = Ok S →
     analyze_mixer_privacy initial_balances final_balances tx_amounts users'
     = Ok S' →
     S = S').
Proof.
  split_and!.
  - intros orderings Horderings. unfold analyze_mixer_privacy.
    apply run_orderings_same_elements.
    + intros p Hp%Horderings. by rewrite Hp.
    + intros p. by rewrite Horderings, elem_of_amount_permutations.
  - intros tx_amounts' Hperm. unfold analyze_mixer_privacy.
    etrans; [|apply run_orderings_same_elements].
    + unfold run_orderings. apply for_each_ext. intros p acc.
      apply search_same_length. by rewrite Hperm.
    + intros p Hp%elem_of_amount_permutations. by rewrite Hp, Hperm.
    + intros p. by rewrite !elem_of_amount_permutations, Hperm.
  - intros users' S S' Hperm HS HS'. apply set_eq. intros X.
    rewrite (analyze_Ok _ _ _ _ _ HS X), (analyze_Ok _ _ _ _ _ HS' X).
    assert (∀ u, u ∈ users ↔ u ∈ users') as Huu'
      by (intros u; by rewrite Hperm).
    assert (∀ b, balances_match final_balances b (user_names users) = Ok true
               ↔ balances_match final_balances b (user_names users') = Ok true)
      as Hmatch.
    { intros b. rewrite !balances_match_true. unfold user_names.
      by setoid_rewrite Hperm. }
    split; intros (p&b'&path'&?&?&?&?);
      exists p, b', path'; split_and!; try done.
    + by eapply reach_same_users.
    + by apply Hmatch.
    + eapply reach_same_users; [|done]. intros u. by rewrite Huu'.
    + by apply Hmatch.
Qed.

Lemma solution_set_deterministic_witness :
  run_orderings initial_100 (balances_of (Qc_of_Z 90) (Qc_of_Z 110))
    [Qc_of_Z 10] [user_A; user_B] [[Qc_of_Z 10]%list] ∅
  = analyze_mixer_privacy initial_100
      (balances_of (Qc_of_Z 90) (Qc_of_Z 110)) [Qc_of_Z 10]
      [user_A; user_B].
Proof.
  apply (solution_set_deterministic initial_100
           (balances_of (Qc_of_Z 90) (Qc_of_Z 110)) [Qc_of_Z 10]
           [user_A; user_B]).
  intros p. rewrite list_elem_of_singleton. split.
  - by intros ->.
  - intros Hp. symmetry. by apply Permutation_singleton_l.
Defined.

(** ** Display order *)

Lemma insert_sorted_Permutation x l : insert_sorted x l ≡ₚ x :: l.
Proof.
  induction l as [|y l IH]; [done|]. simpl. case_decide; [done|].
  by rewrite IH, Permutation_swap.
Qed.

Lemma sorted_by_amount_Permutation l : sorted_by_amount l ≡ₚ l.
Proof.
  induction l as [|x l IH]; [done|]. simpl.
  by rewrite insert_sorted_Permutation, IH.
Qed.

Lemma insert_sorted_sorted x l :
  StronglySorted (λ y z, sort_key y ≤ sort_key z) l →
  StronglySorted (λ y z, sort_key y ≤ sort_key z) (insert_sorted x l).
Proof.
  induction 1 as [|y l Hl IH Hy]; simpl; [by repeat constructor|].
  case_decide as Hxy.
  - constructor; [by constructor|]. constructor; [done|].
    eapply Forall_impl; [done|]. intros z ?. simpl. by etrans.
  - constructor; [done|].
    rewrite (list.Forall_forall _ (insert_sorted x l)).
    intros z Hz. rewrite insert_sorted_Permutation in Hz.
    apply elem_of_cons in Hz as [->|Hz].
    + apply Qclt_le_weak. by apply Qcnot_le_lt.
    + rewrite list.Forall_forall in Hy. by apply Hy.
Qed.

(** The list that is displayed holds the pairs of the solution, in
    ascending order of amount. *)
Lemma sorted_by_amount_sorted l :
  StronglySorted (λ y z, sort_key y ≤ sort_key z) (sorted_by_amount l).
Proof.
  induction l as [|x l IH]; simpl; [constructor|by apply insert_sorted_sorted].
Qed.

(** C7 on the code.  The displayed list holds the pairs of the solution in
    ascending order of amount, and that is all: pairs of equal amount keep
    the order in which the set is iterated.  A and B start and end with 100
    each and the amounts 5 and 5 were observed.  The one solution has the
    pairs (A -> B, 5) and (B -> A, 5).  Both orders are possible values of
    [list(solution)], and the sort by amount leaves each as it is: the
    displayed order is not a function of the solution, and in one of the two
    the labels of the equal amounts descend. *)
Theorem display_order_of_equal_amounts :
  let s : solution := {[ ("A -> B", Qc_of_Z 5); ("B -> A", Qc_of_Z 5) ]} in
  let ab := [("A -> B", Qc_of_Z 5); ("B -> A", Qc_of_Z 5)] in
  let ba := [("B -> A", Qc_of_Z 5); ("A -> B", Qc_of_Z 5)] in
  (∀ l, sorted_by_amount l ≡ₚ l ∧
        StronglySorted (λ x y, x.2 ≤ y.2) (sorted_by_amount l)) ∧
  analyze_mixer_privacy initial_100 initial_100 [Qc_of_Z 5; Qc_of_Z 5]
    [user_A; user_B] = Ok {[ s ]} ∧
  enumerates ab s ∧ enumerates ba s ∧
  sorted_by_amount ab = ab ∧ sorted_by_amount ba = ba ∧
  ¬ display_le ("B -> A", Qc_of_Z 5) ("A -> B", Qc_of_Z 5).
Proof.
  split_and!.
  - intros l. split; [apply sorted_by_amount_Permutation|].
    apply sorted_by_amount_sorted.
  - by_evaluation.
  - split; by_evaluation.
  - split; by_evaluation.
  - by_evaluation.
  - by_evaluation.
  - intros [Hlt|[_ Hle]]; [|done]. by apply Qclt_not_eq in Hlt.
Qed.

(** ** Size of the search *)

Section counted.
Variables (final_balances : balances) (tx_amounts : list Qc).
Variable users : list User.
Variables (branch_cost leaf_cost : nat).

Abbreviation counted_search :=
  (find_solutions_counted final_balances tx_amounts users
     branch_cost leaf_cost).
Abbreviation branching := (length users * (length users - 1))%nat.

Lemma try_pair_counted_result recurse_counted recurse b path amount
    sender receiver acc :
  (∀ b' path' acc', (recurse_counted b' path' acc').2 = recurse b' path' acc') →
  (try_pair_counted recurse_counted b path amount sender receiver acc).2
  = try_pair recurse b path amount sender receiver acc.
Proof.
  intros Hrec. unfold try_pair_counted, try_pair. case_decide; [done|].
  destruct (dict_isub _ _ _) as [b1|]; simpl; [|done].
  destruct (dict_iadd _ _ _) as [b2|]; simpl; [|done].
  apply Hrec.
Qed.

(** Forgetting the counter gives the search back. *)
Lemma find_solutions_counted_result suffix i b path acc :
  (counted_search suffix i b path acc).2
  = find_solutions_from final_balances tx_amounts users suffix i b path acc.
Proof.
  revert i b path acc.
  induction suffix as [|amount suffix IH]; intros i b path acc; simpl;
    case_decide; try done.
  rewrite <-(for_each_counted_result
               (λ sender, for_each_counted (λ receiver,
                  try_pair_counted (counted_search suffix (i + 1)) b path
                                   amount sender receiver) users)).
  { by destruct (for_each_counted _ _ _). }
  intros sender acc'. apply for_each_counted_result.
  intros receiver acc''. by apply try_pair_counted_result.
Qed.

Lemma sum_list_with_const {A} (c : nat) (l : list A) :
  sum_list_with (λ _, c) l = (length l * c)%nat.
Proof. induction l as [|x l IH]; simpl; lia. Qed.

(** Among the receivers, the sender itself is skipped. *)
Lemma receivers_bound (sender : User) (c : nat) (l : list User) :
  (sum_list_with (λ receiver,
     if decide (uid sender = uid receiver) then 0 else c) l
   ≤ length l * c)%nat ∧
  (sender ∈ l →
   sum_list_with (λ receiver,
     if decide (uid sender = uid receiver) then 0 else c) l
   ≤ (length l - 1) * c)%nat.
Proof.
  induction l as [|r l [IH1 IH2]]; simpl.
  - split; [done|]. by intros ?%elem_of_nil.
  - split.
    + case_decide; lia.
    + intros [->|Hin]%elem_of_cons.
      * rewrite decide_True by done. lia.
      * specialize (IH2 Hin).
        destruct l as [|u l]; [by apply elem_of_nil in Hin|].
        remember (sum_list_with _ (u :: l)) as t eqn:Ht. clear Ht.
        simpl length in *. case_decide; nia.
Qed.

(** With [n] slots left, the invocations below one invocation are at most
    d^n at the base case and 1 + d + ... + d^(n-1) above it. *)
Lemma find_solutions_counted_bound suffix i b path acc :
  (i + length suffix = num_tx tx_amounts)%nat →
  ((counted_search suffix i b path acc).1
   ≤ leaf_cost * branching ^ length suffix
     + branch_cost * geometric branching (length suffix))%nat.
Proof.
  revert i b path acc.
  induction suffix as [|amount suffix IH]; intros i b path acc Hi; simpl in Hi.
  - simpl. case_decide; simpl; lia.
  - set (c := (leaf_cost * branching ^ length suffix
               + branch_cost * geometric branching (length suffix))%nat)
      in *.
    assert ((for_each_counted (λ sender, for_each_counted (λ receiver,
               try_pair_counted (counted_search suffix (i + 1)) b path amount
                                sender receiver) users) users acc).1
            ≤ branching * c)%nat as Hloops.
    { etrans; [apply (for_each_counted_bound _
                        (λ _, ((length users - 1) * c)%nat))|].
      - intros sender acc' Hsender.
        etrans; [apply (for_each_counted_bound _
                   (λ receiver,
                      if decide (uid sender = uid receiver) then 0%nat
                      else c))|].
        + intros receiver acc'' _. unfold try_pair_counted.
          case_decide; [done|].
          destruct (dict_isub _ _ _) as [b1|]; simpl; [|lia].
          destruct (dict_iadd _ _ _) as [b2|]; simpl; [|lia].
          apply IH. lia.
        + by apply receivers_bound.
      - rewrite sum_list_with_const. lia. }
    simpl. rewrite decide_False by lia.
    destruct (for_each_counted _ _ _) as [n r]. simpl in *.
    fold c. lia.
Qed.

End counted.

Lemma analyze_counted_result initial_balances final_balances tx_amounts users
    branch_cost leaf_cost :
  (analyze_counted initial_balances final_balances tx_amounts users
     branch_cost leaf_cost).2
  = analyze_mixer_privacy initial_balances final_balances tx_amounts users.
Proof.
  apply for_each_counted_result. intros p acc.
  apply find_solutions_counted_result.
Qed.

Lemma analyze_counted_bound initial_balances final_balances tx_amounts users
    branch_cost leaf_cost :
  let N := length tx_amounts in
  let d := (length users * (length users - 1))%nat in
  ((analyze_counted initial_balances final_balances tx_amounts users
      branch_cost leaf_cost).1
   ≤ fact N * (leaf_cost * d ^ N + branch_cost * geometric d N))%nat.
Proof.
  intros N d. unfold analyze_counted.
  etrans; [apply (for_each_counted_bound _
             (λ _, (leaf_cost * d ^ N + branch_cost * geometric d N)%nat))|].
  - intros p acc Hp%length_ordering.
    etrans; [by apply find_solutions_counted_bound|].
    by rewrite Hp.
  - rewrite sum_list_with_const. apply Nat.mul_le_mono_r.
    apply length_amount_permutations.
Qed.

(** C8, as the claim states it, fails when the nodes are the invocations of
    the search: for one amount and two participants the search is invoked
    three times, once on the empty path and once for each of A -> B and
    B -> A, and 1! * (2 * 1)^1 is 2.  Two of the three invocations are at the
    base case. *)
Lemma visited_nodes_counterexample :
  let visited branch_cost leaf_cost :=
    (analyze_counted initial_100 (balances_of (Qc_of_Z 90) (Qc_of_Z 110))
       [Qc_of_Z 10] [user_A; user_B] branch_cost leaf_cost).1 in
  visited 1%nat 1%nat = 3%nat ∧
  visited 0%nat 1%nat = 2%nat ∧
  (fact 1 * (2 * (2 - 1)) ^ 1 < visited 1%nat 1%nat)%nat.
Proof. split_and!; by_evaluation. Qed.

(** C8, amended: the analysis returns for every input, with a solution set
    or with [KeyError].  The search is defined by recursion on the slots that
    remain, [ordered_amounts[tx_index:]], one less at every call.  Of the
    invocations of the search, those at the base case, which examine the
    complete assignments, are at most N! * (P * (P - 1))^N; the branching
    invocations above them are at most N! * (1 + d + ... + d^(N-1)) for
    d = P * (P - 1); below any invocation the count is bounded in the number
    of remaining slots. *)
Theorem search_terminates_within_bound initial_balances final_balances
    tx_amounts users :
  let N := length tx_amounts in
  let d := (length users * (length users - 1))%nat in
  ((∃ S, analyze_mixer_privacy initial_balances final_balances tx_amounts
           users = Ok S) ∨
   analyze_mixer_privacy initial_balances final_balances tx_amounts users
   = Raise KeyError) ∧
  (∀ branch_cost leaf_cost,
     (analyze_counted initial_balances final_balances tx_amounts users
        branch_cost leaf_cost).2
     = analyze_mixer_privacy initial_balances final_balances tx_amounts
         users) ∧
  ((analyze_counted initial_balances final_balances tx_amounts users 0 1).1
   ≤ fact N * d ^ N)%nat ∧
  ((analyze_counted initial_balances final_balances tx_amounts users 1 0).1
   ≤ fact N * geometric d N)%nat ∧
  ((analyze_counted initial_balances final_balances tx_amounts users 1 1).1
   ≤ fact N * (d ^ N + geometric d N))%nat ∧
  (∀ branch_cost leaf_cost ordering i b path acc,
     length ordering = N → (i ≤ N)%nat →
     ((find_solutions_counted final_balances tx_amounts users
         branch_cost leaf_cost (drop i ordering) i b path acc).1
      ≤ leaf_cost * d ^ (N - i)
        + branch_cost * geometric d (N - i))%nat).
Proof.
  intros N d. split_and!.
  - destruct (analyze_mixer_privacy _ _ _ _) as [S|e] eqn:Hrun; [by eauto|].
    right. f_equal. by apply analyze_Raise in Hrun.
  - intros. apply analyze_counted_result.
  - etrans; [apply analyze_counted_bound|]. fold N d. lia.
  - etrans; [apply analyze_counted_bound|]. fold N d. lia.
  - etrans; [apply analyze_counted_bound|]. fold N d. lia.
  - intros branch_cost leaf_cost ordering i b path acc Hlen Hi.
    etrans; [apply find_solutions_counted_bound|].
    + rewrite length_drop. unfold num_tx. fold N. lia.
    + rewrite length_drop, Hlen. done.
Qed.

Lemma search_terminates_within_bound_witness :
  ((find_solutions_counted (balances_of (Qc_of_Z 90) (Qc_of_Z 110))
      [Qc_of_Z 10] [user_A; user_B] 0 1 (drop 0 [Qc_of_Z 10]) 0 initial_100
      [] ∅).1
   ≤ 1 * (2 * (2 - 1)) ^ (1 - 0) + 0 * geometric (2 * (2 - 1)) (1 - 0))%nat.
Proof.
  apply (search_terminates_within_bound initial_100
           (balances_of (Qc_of_Z 90) (Qc_of_Z 110)) [Qc_of_Z 10]
           [user_A; user_B]).
  - reflexivity.
  - simpl. lia.
Defined.

End MixerTheory.

(** * The analysis on floats *)

Module RoundedTheory.
Import Mixer.

Lemma for_each_ext_in {A S} (body body' : A → S → result S) l s :
  (∀ x s, x ∈ l → body x s = body' x s) →
  for_each body l s = for_each body' l s.
Proof.
  revert s. induction l as [|x l IH]; intros s Hbody; [done|].
  simpl. rewrite Hbody by left. destruct (body' x s); simpl; [|done].
  apply IH. intros y s' Hy. apply Hbody. by right.
Qed.

Lemma sum_abs_cons a amounts :
  Rounded.sum_abs (a :: amounts) = Qcabs a + Rounded.sum_abs amounts.
Proof. done. Qed.

Lemma sum_abs_nonneg amounts : 0 ≤ Rounded.sum_abs amounts.
Proof.
  induction amounts as [|a amounts IH]; [apply Qcle_refl|].
  rewrite sum_abs_cons. apply Qc_nonneg_add; [apply Qcabs_nonneg|done].
Qed.

Lemma sum_abs_Permutation amounts amounts' :
  amounts ≡ₚ amounts' → Rounded.sum_abs amounts = Rounded.sum_abs amounts'.
Proof.
  induction 1 as [|a l l' _ IH|a1 a2 l|l1 l2 l3 _ IH1 _ IH2].
  - done.
  - by rewrite !sum_abs_cons, IH.
  - rewrite !sum_abs_cons. ring.
  - by rewrite IH1.
Qed.

(** ** The three cases of the search *)

Section cases.
Variable rnd : Qc → Qc.
Variables (final_balances : balances) (tx_amounts : list Qc).
Variable users : list User.

Abbreviation rounded_search :=
  (Rounded.find_solutions_from rnd final_balances tx_amounts users).

Lemma rounded_search_base suffix b path acc :
  rounded_search suffix (num_tx tx_amounts) b path acc
  = (ok ← Rounded.balances_match rnd final_balances b (user_names users);
     if ok : bool then Ok (set_add (frozenset path) acc) else Ok acc).
Proof. destruct suffix; simpl; by rewrite decide_True. Qed.

Lemma rounded_search_out_of_range i b path acc :
  i ≠ num_tx tx_amounts → rounded_search [] i b path acc = Raise IndexError.
Proof. intros. simpl. by rewrite decide_False. Qed.

Lemma rounded_search_step amount suffix i b path acc :
  i ≠ num_tx tx_amounts →
  rounded_search (amount :: suffix) i b path acc
  = for_each (λ sender,
      for_each (λ receiver,
        Rounded.try_pair rnd (rounded_search suffix (i + 1)) b path amount
                         sender receiver) users)
      users acc.
Proof. intros. simpl. by rewrite decide_False. Qed.

End cases.

(** With [exact] for the rounding, the search is that of the module
    [Mixer]. *)
Lemma analyze_exact initial_balances final_balances tx_amounts users :
  Rounded.analyze_mixer_privacy exact initial_balances final_balances
    tx_amounts users
  = analyze_mixer_privacy initial_balances final_balances tx_amounts users.
Proof. reflexivity. Qed.

(** ** Whole numbers that stay small *)

(** Every balance of [b] is a whole number, and stays below 2^52 in
    magnitude when [r] is added to it. *)
Abbreviation bounded b r :=
  (∀ n v, (b : balances) !! n = Some v →
          whole v ∧ Qcabs v + r < Qc_of_Z (2 ^ 52)).

Lemma twice_2_52 : Qc_of_Z (2 ^ 52) + Qc_of_Z (2 ^ 52) ≤ Qc_of_Z (2 ^ 53).
Proof. by vm_compute. Qed.

Lemma below_2_53 (x r : Qc) :
  0 ≤ r → x + r < Qc_of_Z (2 ^ 52) → x < Qc_of_Z (2 ^ 53).
Proof.
  assert (Qc_of_Z (2 ^ 52) ≤ Qc_of_Z (2 ^ 53)) as Hle by (by vm_compute).
  revert Hle. generalize (Qc_of_Z (2 ^ 52)) (Qc_of_Z (2 ^ 53)).
  intros B B' ???. qc_linear.
Qed.

Lemma difference_below_2_53 (c f : Qc) :
  Qcabs c + 0 < Qc_of_Z (2 ^ 52) → Qcabs f ≤ Qc_of_Z (2 ^ 52) →
  Qcabs (c - f) < Qc_of_Z (2 ^ 53).
Proof.
  pose proof twice_2_52 as Hle.
  revert Hle. generalize (Qc_of_Z (2 ^ 52)) (Qc_of_Z (2 ^ 53)).
  intros B B' ???. pose proof (Qcabs_sub_triangle c f). qc_linear.
Qed.

Lemma Qcabs_0 : Qcabs 0 = 0.
Proof. by_evaluation. Qed.

Lemma tolerance_below_1 : tolerance < 1.
Proof. by vm_compute. Qed.

Section exact_on_wholes.
Variable rnd : Qc → Qc.
Hypothesis Hrnd : keeps_small_wholes rnd.
Hypothesis Htol : keeps_tolerance_small rnd.
Variables (final_balances : balances) (tx_amounts : list Qc).
Variable users : list User.
Hypothesis Hfinal :
  ∀ n f, final_balances !! n = Some f →
         whole f ∧ Qcabs f ≤ Qc_of_Z (2 ^ 52).

Lemma dict_isub_exact b k a r :
  whole a → 0 ≤ r → bounded b (Qcabs a + r) →
  Rounded.dict_isub rnd b k a = dict_isub b k a ∧
  ∀ b1, dict_isub b k a = Ok b1 → bounded b1 r.
Proof.
  intros Ha Hr Hb. unfold Rounded.dict_isub, dict_isub, dict_get.
  destruct (b !! k) as [v|] eqn:Hk; simpl; [|by split].
  destruct (Hb k v Hk) as [Hv Hlt].
  assert (rnd (v - a) = v - a) as ->.
  { apply keeps_whole; [done|by apply whole_sub|].
    apply (below_2_53 _ r); [done|]. by apply Qcabs_sub_bound. }
  split; [done|]. intros b1 [= <-] n v'.
  destruct (decide (n = k)) as [->|Hne].
  - rewrite lookup_insert_eq. intros [= <-].
    split; [by apply whole_sub|by apply Qcabs_sub_bound].
  - rewrite lookup_insert_ne by done. intros Hn.
    destruct (Hb n v' Hn) as [Hv' Hlt']. split; [done|].
    eapply Qc_bound_skip; [apply Qcabs_nonneg|exact Hlt'].
Qed.

Lemma dict_iadd_exact b k a r :
  whole a → 0 ≤ r → bounded b (Qcabs a + r) →
  Rounded.dict_iadd rnd b k a = dict_iadd b k a ∧
  ∀ b1, dict_iadd b k a = Ok b1 → bounded b1 r.
Proof.
  intros Ha Hr Hb. unfold Rounded.dict_iadd, dict_iadd, dict_get.
  destruct (b !! k) as [v|] eqn:Hk; simpl; [|by split].
  destruct (Hb k v Hk) as [Hv Hlt].
  assert (rnd (v + a) = v + a) as ->.
  { apply keeps_whole; [done|by apply whole_add|].
    apply (below_2_53 _ r); [done|]. by apply Qcabs_add_bound. }
  split; [done|]. intros b1 [= <-] n v'.
  destruct (decide (n = k)) as [->|Hne].
  - rewrite lookup_insert_eq. intros [= <-].
    split; [by apply whole_add|by apply Qcabs_add_bound].
  - rewrite lookup_insert_ne by done. intros Hn.
    destruct (Hb n v' Hn) as [Hv' Hlt']. split; [done|].
    eapply Qc_bound_skip; [apply Qcabs_nonneg|exact Hlt'].
Qed.

(** A whole number is within the tolerance of 0 as the machine reads it
    exactly when it is within the tolerance as it is written: when it is 0. *)
Lemma tolerance_on_wholes d :
  whole d → Qcabs d < rnd tolerance ↔ Qcabs d < tolerance.
Proof.
  destruct Htol as [Hpos Hle]. intros Hd. split; intros Hlt.
  - rewrite (whole_small d Hd).
    + rewrite Qcabs_0. apply tolerance_pos.
    + by eapply Qclt_le_trans.
  - rewrite (whole_small d Hd).
    + by rewrite Qcabs_0.
    + eapply Qclt_trans; [exact Hlt|apply tolerance_below_1].
Qed.

Lemma balances_match_exact b ns :
  bounded b 0 →
  Rounded.balances_match rnd final_balances b ns
  = balances_match final_balances b ns.
Proof.
  intros Hb. induction ns as [|n ns IH]; [done|]. simpl.
  unfold dict_get. destruct (b !! n) as [c|] eqn:Hc; simpl; [|done].
  destruct (final_balances !! n) as [f|] eqn:Hf; simpl; [|done].
  destruct (Hb n c Hc) as [Hcw Hclt], (Hfinal n f Hf) as [Hfw Hfle].
  assert (rnd (c - f) = c - f) as ->.
  { apply keeps_whole; [done|by apply whole_sub|].
    by apply difference_below_2_53. }
  rewrite IH. apply decide_ext, tolerance_on_wholes. by apply whole_sub.
Qed.

Lemma bounded_at_leaf b r : 0 ≤ r → bounded b r → bounded b 0.
Proof.
  intros Hr Hb n v Hn. destruct (Hb n v Hn) as [Hv Hlt]. split; [done|].
  revert Hlt. generalize (Qcabs v) (Qc_of_Z (2 ^ 52)). intros x B Hlt.
  qc_linear.
Qed.

Lemma find_solutions_from_exact suffix i b path acc :
  Forall whole suffix →
  bounded b (Rounded.sum_abs suffix + Rounded.sum_abs suffix) →
  Rounded.find_solutions_from rnd final_balances tx_amounts users suffix i b
    path acc
  = find_solutions_from final_balances tx_amounts users suffix i b path acc.
Proof.
  intros Hwhole. revert i b path acc.
  induction Hwhole as [|a suffix Ha Hwhole IH]; intros i b path acc Hb.
  - destruct (decide (i = num_tx tx_amounts)) as [->|Hi].
    + rewrite rounded_search_base, MixerTheory.search_base.
      rewrite balances_match_exact; [done|].
      eapply bounded_at_leaf; [|exact Hb].
      apply Qc_nonneg_add; apply sum_abs_nonneg.
    + by rewrite rounded_search_out_of_range,
        MixerTheory.search_out_of_range.
  - destruct (decide (i = num_tx tx_amounts)) as [->|Hi].
    + rewrite rounded_search_base, MixerTheory.search_base.
      rewrite balances_match_exact; [done|].
      eapply bounded_at_leaf; [|exact Hb].
      apply Qc_nonneg_add; apply sum_abs_nonneg.
    + rewrite rounded_search_step, MixerTheory.search_step by done.
      set (s := Rounded.sum_abs suffix) in *.
      assert (0 ≤ s + s) as Hs
        by (apply Qc_nonneg_add; apply sum_abs_nonneg).
      assert (bounded b (Qcabs a + (Qcabs a + (s + s)))) as Hb'.
      { intros n v Hn. destruct (Hb n v Hn) as [Hv Hlt]. split; [done|].
        rewrite sum_abs_cons in Hlt. fold s in Hlt.
        by replace (Qcabs a + (Qcabs a + (s + s)))
          with (Qcabs a + s + (Qcabs a + s)) by ring. }
      apply for_each_ext. intros sender acc1.
      apply for_each_ext. intros receiver acc2.
      unfold Rounded.try_pair, try_pair. case_decide; [done|].
      destruct (dict_isub_exact b (name sender) a (Qcabs a + (s + s)))
        as [-> Hb1]; [done| |done|].
      { apply Qc_nonneg_add; [apply Qcabs_nonneg|done]. }
      destruct (dict_isub b (name sender) a) as [b1|] eqn:H1; simpl; [|done].
      destruct (dict_iadd_exact b1 (name receiver) a (s + s))
        as [-> Hb2]; [done|done|by apply Hb1|].
      destruct (dict_iadd b1 (name receiver) a) as [b2|] eqn:H2; simpl;
        [|done].
      apply IH. by apply Hb2.
Qed.

End exact_on_wholes.

(** On whole numbers that stay small the machine runs the search of the
    module [Mixer]. *)
Lemma analyze_exact_on_wholes rnd initial_balances final_balances tx_amounts
    users :
  keeps_small_wholes rnd → keeps_tolerance_small rnd →
  Rounded.exact_inputs initial_balances final_balances tx_amounts →
  Rounded.analyze_mixer_privacy rnd initial_balances final_balances
    tx_amounts users
  = analyze_mixer_privacy initial_balances final_balances tx_amounts users.
Proof.
  intros Hrnd Htol (Hamounts&Hinitial&Hfinal).
  unfold Rounded.analyze_mixer_privacy, analyze_mixer_privacy,
    Rounded.run_orderings, run_orderings.
  apply for_each_ext_in.
  intros p acc Hp%MixerTheory.elem_of_amount_permutations.
  unfold Rounded.find_solutions_recursive, find_solutions_recursive.
  rewrite drop_0. apply find_solutions_from_exact; [done..| |].
  - by rewrite Hp.
  - by rewrite (sum_abs_Permutation _ _ Hp).
Qed.

(** ** Conservation *)

(** The flows keep whole numbers whole. *)
Lemma reach_whole users remaining b path b' path' :
  reach users remaining b path b' path' →
  Forall whole remaining →
  (∀ n v, b !! n = Some v → whole v) →
  ∀ n v, b' !! n = Some v → whole v.
Proof.
  induction 1 as [|amount remaining b path sender receiver b1 b2 b' path'
                    _ _ _ Hb1 Hb2 _ IH]; [done|].
  intros [Ha Hremaining]%Forall_cons Hb. apply IH; [done|].
  apply dict_isub_Ok in Hb1 as (v1&Hv1&->).
  apply dict_iadd_Ok in Hb2 as (v2&Hv2&->).
  assert (∀ n v, <[name sender := v1 - amount]> b !! n = Some v → whole v)
    as Hb1.
  { intros n v. destruct (decide (n = name sender)) as [->|Hne].
    - rewrite lookup_insert_eq. intros [= <-]. apply whole_sub; [|done].
      by apply (Hb (name sender)).
    - rewrite lookup_insert_ne by done. apply Hb. }
  intros n v. destruct (decide (n = name receiver)) as [->|Hne].
  - rewrite lookup_insert_eq. intros [= <-]. apply whole_add; [|done].
    by apply (Hb1 (name receiver)).
  - rewrite lookup_insert_ne by done. apply Hb1.
Qed.

Lemma sum_over_agree (d1 d2 : balances) ns :
  (∀ n, n ∈ ns → d1 !! n = d2 !! n) → sum_over d1 ns = sum_over d2 ns.
Proof.
  induction ns as [|n ns IH]; intros Hns; [done|]. simpl.
  rewrite (Hns n), IH; [done| |left]. intros m Hm. apply Hns. by right.
Qed.

(** On whole numbers every accepted scenario arrives at the final balances
    themselves, and the sums agree. *)
Lemma accepted_sums_agree initial_balances final_balances tx_amounts users
    S X :
  Forall whole tx_amounts →
  (∀ n v, initial_balances !! n = Some v → whole v) →
  (∀ n f, final_balances !! n = Some f → whole f) →
  analyze_mixer_privacy initial_balances final_balances tx_amounts users
  = Ok S →
  X ∈ S →
  sum_balances initial_balances (user_names users)
  = sum_balances final_balances (user_names users).
Proof.
  intros Hamounts Hinitial Hfinal Hrun HX.
  apply (MixerTheory.analyze_Ok _ _ _ _ _ Hrun) in HX
    as (p&b'&path'&Hp&Hreach&Hmatch&_).
  rewrite <-(MixerTheory.reach_sum _ _ _ _ _ _ Hreach).
  rewrite MixerTheory.balances_match_true in Hmatch.
  apply sum_over_agree. intros n Hn.
  apply (elem_of_remove_dups (user_names users)) in Hn.
  destruct (Hmatch n Hn) as (c&f&Hc&Hf&Hclose).
  rewrite Hc, Hf. f_equal.
  assert (whole (c - f)) as Hd.
  { apply whole_sub; [|by eapply Hfinal].
    eapply (reach_whole _ _ _ _ _ _ Hreach); [by rewrite Hp|done|done]. }
  assert (c - f = 0) as Hzero.
  { apply (whole_small _ Hd).
    eapply Qclt_trans; [exact Hclose|apply tolerance_below_1]. }
  rewrite <-(Qcplus_0_l f), <-Hzero. ring.
Qed.

Lemma balances_of_lookup a b n v :
  balances_of a b !! n = Some v → v = a ∨ v = b.
Proof.
  unfold balances_of. rewrite lookup_insert_Some, lookup_singleton_Some.
  intros [[_ <-]|[_ [_ <-]]]; [by left|by right].
Qed.

(** The machine does not see a difference of 1 next to 10^17: A holds 10^17
    before and after, B nothing before and 1 after, one amount 1 was
    observed.  The sums differ by 1, and the scenario A → B is accepted,
    since 10^17 - 1 is rounded to 10^17. *)
Lemma rounding_hides_a_difference :
  let final := balances_of (Qc_of_Z (10 ^ 17)) 1 in
  let users := [user_A; user_B] in
  sum_balances final (user_names users)
  - sum_balances Rounded.initial_large (user_names users) = 1 ∧
  Rounded.analyze_mixer_privacy binary64 Rounded.initial_large final [1]
    users
  = Ok {[ {[ ("A -> B", 1) ]} ]}.
Proof. split; by_evaluation. Qed.

(** The tolerance is applied to each balance on the machine as well: with
    the final balances 90.0000000006 and 110.0000000006 as the machine reads
    them the sums differ by more than the tolerance, and the scenario A → B
    is accepted. *)
Lemma conservation_within_tolerance_on_floats :
  let final :=
    balances_of (binary64 (Qc_of_Z 90 + Q2Qc (6 # 10000000000)))
                (binary64 (Qc_of_Z 110 + Q2Qc (6 # 10000000000))) in
  let users := [user_A; user_B] in
  tolerance < Qcabs (sum_balances initial_100 (user_names users)
                     - sum_balances final (user_names users)) ∧
  Rounded.analyze_mixer_privacy binary64 initial_100 final [Qc_of_Z 10] users
  = Ok {[ {[ ("A -> B", Qc_of_Z 10) ]} ]}.
Proof. split; by_evaluation. Qed.

(** C1, amended: when the balances and the amounts are whole numbers small
    enough for the machine to compute on them without rounding, and the sum
    of the initial balances differs from the sum of the final balances, no
    scenario is accepted: whatever the analysis returns is the empty set, and
    it does return when every participant has a balance on both sides. *)
Theorem conservation_law rnd initial_balances final_balances tx_amounts
    users :
  keeps_small_wholes rnd → keeps_tolerance_small rnd →
  Rounded.exact_inputs initial_balances final_balances tx_amounts →
  let names := user_names users in
  sum_balances initial_balances names ≠ sum_balances final_balances names →
  (∀ S, Rounded.analyze_mixer_privacy rnd initial_balances final_balances
          tx_amounts users = Ok S → S = ∅) ∧
  (balances_cover initial_balances final_balances users →
   Rounded.analyze_mixer_privacy rnd initial_balances final_balances
     tx_amounts users = Ok ∅).
Proof.
  intros Hrnd Htol Hexact names Hne.
  rewrite (analyze_exact_on_wholes rnd _ _ _ users Hrnd Htol Hexact).
  destruct Hexact as (Hamounts&Hinitial&Hfinal).
  assert (∀ S, analyze_mixer_privacy initial_balances final_balances
                 tx_amounts users = Ok S → S = ∅) as Hempty.
  { intros S HS. apply set_eq. intros X. split; [|by intros ?%not_elem_of_empty].
    intros HX. destruct Hne.
    apply (accepted_sums_agree _ _ _ _ S X Hamounts); [| |done..].
    - intros n v Hn. by apply (Hinitial n v).
    - intros n f Hn. by apply (Hfinal n f). }
  split; [done|]. intros Hcover.
  destruct (MixerTheory.analyze_is_Ok initial_balances final_balances
              tx_amounts users Hcover) as [S HS].
  rewrite HS. f_equal. by apply Hempty.
Qed.

Lemma conservation_law_witness :
  Rounded.analyze_mixer_privacy binary64 initial_100
    (balances_of (Qc_of_Z 90) (Qc_of_Z 120)) [Qc_of_Z 10] [user_A; user_B]
  = Ok ∅.
Proof.
  apply (conservation_law binary64 initial_100
           (balances_of (Qc_of_Z 90) (Qc_of_Z 120))
           [Qc_of_Z 10] [user_A; user_B]).
  - apply binary64_keeps_small_wholes.
  - apply binary64_keeps_tolerance_small.
  - split_and!.
    + repeat constructor. by eexists.
    + intros n v [->| ->]%balances_of_lookup;
        (split; [by eexists|by vm_compute]).
    + intros n v [->| ->]%balances_of_lookup;
        (split; [by eexists|by vm_compute]).
  - by_evaluation.
  - intros u [->|[->|[]%elem_of_nil]%elem_of_cons]%elem_of_cons;
      split; by_evaluation.
Defined.

End RoundedTheory.

(** * The public ledger *)

Module PublicTheory.
Import Public.

Section Transaction_facts.
Variable rnd : Qc → Qc.
Variable now : Qc.
Variable sha256_hexdigest : string → string → Qc → Qc → string.

Abbreviation init := (Transaction_init rnd now sha256_hexdigest).

Lemma Transaction_init_raises σ sender receiver amount :
  (init σ sender receiver amount).2 = Raise ValueError ↔
  balance (σ sender) < amount.
Proof. unfold Transaction_init. by case_decide. Qed.

Lemma Transaction_init_no_other_exception σ sender receiver amount e :
  (init σ sender receiver amount).2 = Raise e → e = ValueError.
Proof. unfold Transaction_init. case_decide; simpl; congruence. Qed.

Lemma Transaction_init_failure σ sender receiver amount :
  balance (σ sender) < amount → (init σ sender receiver amount).1 = σ.
Proof. intros. unfold Transaction_init. by rewrite decide_True. Qed.

Lemma Transaction_init_returns σ sender receiver amount' :
  ¬ balance (σ sender) < amount' →
  ∃ tx,
    init σ sender receiver amount' =
      ((init σ sender receiver amount').1, Ok tx) ∧
    sender_address tx = address (σ sender) ∧
    receiver_address tx = address (σ receiver) ∧
    amount tx = amount'.
Proof.
  intros Hfunds. unfold Transaction_init. rewrite decide_False by done.
  by eexists.
Qed.

Lemma Transaction_init_other σ sender receiver amount l :
  l ≠ sender → l ≠ receiver →
  (init σ sender receiver amount).1 l = σ l.
Proof.
  intros ? ?. unfold Transaction_init. case_decide; [done|]. simpl.
  by rewrite !fn_lookup_insert_ne.
Qed.

(** The constructor changes balances only. *)
Lemma Transaction_init_keeps_identity σ sender receiver amount l :
  address ((init σ sender receiver amount).1 l) = address (σ l) ∧
  owner_name ((init σ sender receiver amount).1 l) = owner_name (σ l).
Proof.
  unfold Transaction_init. case_decide; [done|]. simpl.
  destruct (decide (l = receiver)) as [->|Hr].
  - rewrite fn_lookup_insert. simpl.
    destruct (decide (receiver = sender)) as [->|Hs].
    + by rewrite fn_lookup_insert.
    + by rewrite fn_lookup_insert_ne.
  - rewrite fn_lookup_insert_ne by done.
    destruct (decide (l = sender)) as [->|Hs].
    + by rewrite fn_lookup_insert.
    + by rewrite fn_lookup_insert_ne.
Qed.

(** After a constructor call that does not raise, every wallet has its
    settled balance. *)
Lemma Transaction_init_balance σ sender receiver amount l :
  ¬ balance (σ sender) < amount →
  balance ((init σ sender receiver amount).1 l)
  = settled rnd sender receiver amount l (balance (σ l)).
Proof.
  intros Hfunds. unfold Transaction_init, settled.
  rewrite decide_False by done. simpl.
  destruct (decide (l = receiver)) as [->|Hr].
  - rewrite fn_lookup_insert. simpl.
    destruct (decide (receiver = sender)) as [->|Hs].
    + by rewrite fn_lookup_insert.
    + by rewrite fn_lookup_insert_ne.
  - rewrite fn_lookup_insert_ne by done.
    destruct (decide (l = sender)) as [->|Hs].
    + by rewrite fn_lookup_insert.
    + by rewrite fn_lookup_insert_ne.
Qed.

Lemma total_balance_indicator (k : loc) (amount : Qc) (wallets : list loc) :
  NoDup wallets →
  foldr (λ l acc, (if decide (l = k) then amount else 0) + acc) 0 wallets
  = if decide (k ∈ wallets) then amount else 0.
Proof.
  induction 1 as [|l wallets Hl _ IH]; simpl; [done|]. rewrite IH.
  destruct (decide (l = k)) as [->|Hlk].
  - rewrite decide_False, decide_True by (done || left). ring.
  - destruct (decide (k ∈ wallets)) as [Hk|Hk].
    + rewrite decide_True by (by right). ring.
    + rewrite decide_False; [ring|].
      intros [->|?]%elem_of_cons; done.
Qed.

(** When neither update rounds, the total over wallets that hold both the
    sender's and the receiver's, or neither, is conserved. *)
Lemma Transaction_init_total σ sender receiver amount wallets :
  ¬ balance (σ sender) < amount → sender ≠ receiver →
  rnd (balance (σ sender) - amount) = balance (σ sender) - amount →
  rnd (balance (σ receiver) + amount) = balance (σ receiver) + amount →
  NoDup wallets → (sender ∈ wallets ↔ receiver ∈ wallets) →
  total_balance (init σ sender receiver amount).1 wallets
  = total_balance σ wallets.
Proof.
  intros Hfunds Hne Hsub Hadd Hnd Hboth.
  assert (∀ l, balance ((init σ sender receiver amount).1 l)
               = balance (σ l)
                 - (if decide (l = sender) then amount else 0)
                 + (if decide (l = receiver) then amount else 0)) as Hbalance.
  { intros l. rewrite Transaction_init_balance by done. unfold settled.
    destruct (decide (l = sender)) as [Hs|Hs],
             (decide (l = receiver)) as [Hr|Hr]; subst; [done| | |ring].
    - rewrite Hsub. ring.
    - rewrite Hadd. ring. }
  assert (total_balance (init σ sender receiver amount).1 wallets
          = total_balance σ wallets
            - foldr (λ l acc, (if decide (l = sender) then amount else 0) + acc)
                    0 wallets
            + foldr (λ l acc, (if decide (l = receiver) then amount else 0)
                              + acc) 0 wallets) as ->.
  { clear Hnd Hboth. induction wallets as [|l wallets IH]; simpl; [ring|].
    rewrite IH, Hbalance. ring. }
  rewrite !total_balance_indicator by done.
  destruct (decide (sender ∈ wallets)) as [Hs|Hs].
  - rewrite decide_True by (by apply Hboth). ring.
  - rewrite decide_False by (by rewrite <-Hboth). ring.
Qed.

End Transaction_facts.

(** C10, as the claim states it, fails when the sender's wallet is also the
    receiver's: the constructor succeeds and the balance of the wallet, 100,
    is not lowered by the amount 10. *)
Lemma self_transaction_counterexample :
  let call :=
    Transaction_init binary64 0 (λ _ _ _ _, "") fresh_store 0%nat 0%nat
                     (Qc_of_Z 10) in
  (∃ self, call.2 = Ok self) ∧
  balance (call.1 0%nat) = Qc_of_Z 100 ∧
  balance (call.1 0%nat) ≠ balance (fresh_store 0%nat) - Qc_of_Z 10.
Proof.
  split_and!.
  - by eexists.
  - by_evaluation.
  - by_evaluation.
Qed.

(** It fails between two wallets as well, where an update rounds: a wallet
    that holds 10^17 and receives 1 holds 10^17 afterwards, and the total of
    the two wallets is 1 less than before. *)
Lemma rounded_transaction_counterexample :
  let call :=
    Transaction_init binary64 0 (λ _ _ _ _, "") uneven_store 0%nat 1%nat 1 in
  (∃ self, call.2 = Ok self) ∧
  balance (call.1 0%nat) = Qc_of_Z 99 ∧
  balance (call.1 1%nat) = balance (uneven_store 1%nat) ∧
  total_balance call.1 [0; 1]%nat = total_balance uneven_store [0; 1]%nat - 1.
Proof.
  split_and!.
  - by eexists.
  - by_evaluation.
  - by_evaluation.
  - by_evaluation.
Qed.

(** C10, amended: the constructor raises [ValueError] exactly when the
    sender's balance is less than the amount, and then the store is left as
    it was.  Otherwise it returns the transaction.  When sender and receiver
    are two wallets, the sender's balance becomes the rounded difference of
    balance and amount and the receiver's the rounded sum; when they are one
    wallet, its balance becomes the rounded difference with the amount added
    and rounded again, which is the balance it had when neither step rounds.
    Every other wallet is untouched.  Between two wallets, when neither
    result is rounded, the total over any set of wallets holding both or
    neither is conserved. *)
Theorem Transaction_init_spec rnd now sha256_hexdigest σ sender receiver
    amount :
  let call :=
    Transaction_init rnd now sha256_hexdigest σ sender receiver amount in
  let lowered := rnd (balance (σ sender) - amount) in
  let raised := rnd (balance (σ receiver) + amount) in
  (call.2 = Raise ValueError ↔ balance (σ sender) < amount) ∧
  (balance (σ sender) < amount → call.1 = σ) ∧
  (¬ balance (σ sender) < amount → ∃ self, call.2 = Ok self) ∧
  (¬ balance (σ sender) < amount → sender ≠ receiver →
   balance (call.1 sender) = lowered ∧ balance (call.1 receiver) = raised) ∧
  (¬ balance (σ sender) < amount → sender = receiver →
   balance (call.1 sender) = rnd (lowered + amount)) ∧
  (¬ balance (σ sender) < amount → sender = receiver →
   lowered = balance (σ sender) - amount →
   rnd (balance (σ sender)) = balance (σ sender) →
   balance (call.1 sender) = balance (σ sender)) ∧
  (∀ l, l ≠ sender → l ≠ receiver → call.1 l = σ l) ∧
  (¬ balance (σ sender) < amount → sender ≠ receiver →
   lowered = balance (σ sender) - amount →
   raised = balance (σ receiver) + amount →
   ∀ wallets, NoDup wallets → (sender ∈ wallets ↔ receiver ∈ wallets) →
     total_balance call.1 wallets = total_balance σ wallets).
Proof.
  cbv zeta. split_and!.
  - apply Transaction_init_raises.
  - apply Transaction_init_failure.
  - intros Hfunds.
    destruct (Transaction_init_returns rnd now sha256_hexdigest σ sender
                receiver amount Hfunds) as (tx&->&_).
    by exists tx.
  - intros Hfunds Hne. rewrite !Transaction_init_balance by done.
    unfold settled. split; repeat case_decide; congruence.
  - intros Hfunds <-. rewrite Transaction_init_balance by done.
    unfold settled. repeat case_decide; congruence.
  - intros Hfunds <- Hsub Hsame. rewrite Transaction_init_balance by done.
    unfold settled. rewrite !decide_True, Hsub by done.
    replace (balance (σ sender) - amount + amount) with (balance (σ sender))
      by ring.
    done.
  - intros l. apply Transaction_init_other.
  - intros Hfunds Hne Hsub Hadd wallets Hnd Hboth.
    by apply Transaction_init_total.
Qed.

Lemma Transaction_init_spec_witness :
  let call :=
    Transaction_init binary64 0 (λ _ _ _ _, "") fresh_store 0%nat 1%nat
                     (Qc_of_Z 10) in
  balance (call.1 0%nat) = binary64 (balance (fresh_store 0%nat) - Qc_of_Z 10) ∧
  balance (call.1 1%nat) = binary64 (balance (fresh_store 1%nat) + Qc_of_Z 10).
Proof.
  apply (Transaction_init_spec binary64 0 (λ _ _ _ _, "") fresh_store 0%nat
           1%nat (Qc_of_Z 10)).
  - by_evaluation.
  - by_evaluation.
Defined.

End PublicTheory.

(** * More on the privacy analysis *)

Module AnalysisTheory.
Import Mixer Scenarios.

(** ** Leaves and scenarios *)

Lemma reach_replay users amounts b path b' path' :
  reach users amounts b path b' path' ↔
  ∃ transfers,
    Forall (admissible users) transfers ∧ transfers.*2 = amounts ∧
    replay transfers b = Ok b' ∧ path' = path ++ path_of transfers.
Proof.
  split.
  - induction 1 as [b path|amount amounts b path sender receiver b1 b2 b' path'
                      Hs Hr Hne Hb1 Hb2 _ (transfers&Hadm&<-&Hreplay&->)].
    + exists []. split_and!; [constructor|done..|].
      unfold path_of. simpl. by rewrite app_nil_r.
    + exists ((sender, receiver, amount) :: transfers). split_and!.
      * by constructor.
      * done.
      * simpl. rewrite Hb1. simpl. rewrite Hb2. done.
      * by rewrite <-(assoc_L (++)).
  - intros (transfers&Hadm&<-&Hreplay&->). revert b path Hreplay.
    induction Hadm as [|[[sender receiver] amount] transfers (Hs&Hr&Hne) _ IH];
      intros b path Hreplay; simpl in *.
    + injection Hreplay as <-. unfold path_of. simpl. rewrite app_nil_r.
      constructor.
    + destruct (dict_isub _ _ _) as [b1|] eqn:Hb1; simpl in Hreplay; [|done].
      destruct (dict_iadd _ _ _) as [b2|] eqn:Hb2; simpl in Hreplay; [|done].
      apply (reach_branch users amount _ b path sender receiver b1 b2);
        [done..|].
      replace (path ++ (flow_label sender receiver, amount) :: path_of transfers)
        with ((path ++ (flow_label sender receiver, amount) :: nil)
              ++ path_of transfers)
        by (by rewrite <-(assoc_L (++))).
      by apply IH.
Qed.



(** ** What the analysis returns *)



Lemma consistent_scenario_is_found initial_balances final_balances tx_amounts
    users transfers b' :
  Forall (admissible users) transfers →
  balances_cover initial_balances final_balances users →
  replay transfers initial_balances = Ok b' →
  within_tolerance final_balances b' (user_names users) →
  tx_amounts ≡ₚ transfers.*2 →
  ∃ S,
    analyze_mixer_privacy initial_balances final_balances tx_amounts users
    = Ok S ∧
    frozenset (path_of transfers) ∈ S.
Proof.
  intros Hadm Hcover Hreplay Hclose Hperm.
  destruct (MixerTheory.analyze_is_Ok initial_balances final_balances
              tx_amounts users Hcover) as [S HS].
  exists S. split; [done|].
  apply (MixerTheory.analyze_Ok _ _ _ _ _ HS).
  exists (transfers.*2), b', (path_of transfers).
  split_and!; [done| | |done].
  - apply reach_replay. by exists transfers.
  - by apply MixerTheory.balances_match_true.
Qed.



(** ** Edge cases *)


Lemma for_each_skip {A S} (body : A → S → result S) l s :
  (∀ x s', x ∈ l → body x s' = Ok s') → for_each body l s = Ok s.
Proof.
  induction l as [|x l IH]; intros Hskip; [done|]. simpl.
  rewrite Hskip by left. simpl. apply IH. intros. apply Hskip. by right.
Qed.

(** X4: without two distinct users there is nothing to branch over.  When
    at least one amount was observed and the users of the input are all one
    object (none, one, or the same one repeated), the analysis returns the
    empty set, and no balance is ever read: it returns it even when the
    dictionaries have no entry for the users. *)
Theorem analysis_without_two_users initial_balances final_balances
    tx_amounts users :
  tx_amounts ≠ [] →
  (∀ u v, u ∈ users → v ∈ users → uid u = uid v) →
  analyze_mixer_privacy initial_balances final_balances tx_amounts users
  = Ok ∅.
Proof.
  intros Hne Hsame. unfold analyze_mixer_privacy, run_orderings.
  apply for_each_skip. intros p acc Hp%MixerTheory.length_ordering.
  unfold find_solutions_recursive.
  destruct p as [|amount p]; [by destruct tx_amounts|].
  change (drop 0 (amount :: p)) with (amount :: p).
  rewrite MixerTheory.search_step
    by (unfold num_tx; rewrite <-Hp; simpl; lia).
  apply for_each_skip. intros sender acc' Hsender.
  apply for_each_skip. intros receiver acc'' Hreceiver.
  unfold try_pair. by rewrite decide_True by by apply Hsame.
Qed.

Lemma analysis_without_two_users_witness :
  analyze_mixer_privacy ∅ ∅ [Qc_of_Z 10] [user_A] = Ok ∅.
Proof.
  apply (analysis_without_two_users ∅ ∅ [Qc_of_Z 10] [user_A]).
  - done.
  - by intros u v ->%list_elem_of_singleton ->%list_elem_of_singleton.
Defined.

(** X5: a user without an initial balance makes the analysis raise
    [KeyError], whatever the other balances are, as soon as there is an
    amount to assign and another user to pair it with: every ordering is
    searched to the end, and the branch in which this user sends fails at
    the first slot. *)
Theorem analysis_raises_on_missing_initial_balance initial_balances
    final_balances tx_amounts users u v :
  tx_amounts ≠ [] →
  u ∈ users → v ∈ users → uid u ≠ uid v →
  initial_balances !! name u = None →
  analyze_mixer_privacy initial_balances final_balances tx_amounts users
  = Raise KeyError.
Proof.
  intros Hne Hu Hv Huv Hmissing.
  destruct (analyze_mixer_privacy _ _ _ _) as [S|e] eqn:Hrun.
  - exfalso. unfold analyze_mixer_privacy, run_orderings in Hrun.
    apply for_each_Ok in Hrun as [Hall _];
      [|intros; apply MixerTheory.search_accumulates].
    destruct (Hall tx_amounts) as [Sp Hp];
      [by apply MixerTheory.elem_of_amount_permutations|].
    unfold find_solutions_recursive in Hp.
    destruct tx_amounts as [|amount tx_amounts]; [done|].
    change (drop 0 (amount :: tx_amounts)) with (amount :: tx_amounts) in Hp.
    rewrite MixerTheory.search_step in Hp by (unfold num_tx; simpl; lia).
    apply for_each_Ok in Hp as [Hsenders _];
      [|intros; apply for_each_accumulates; intros;
        apply MixerTheory.try_pair_accumulates, MixerTheory.search_accumulates].
    destruct (Hsenders u Hu) as [Su Hsu].
    apply for_each_Ok in Hsu as [Hreceivers _];
      [|intros; apply MixerTheory.try_pair_accumulates,
                  MixerTheory.search_accumulates].
    destruct (Hreceivers v Hv) as [Sv Hsv].
    unfold try_pair in Hsv. rewrite decide_False in Hsv by done.
    unfold dict_isub, dict_get in Hsv. by rewrite Hmissing in Hsv.
  - f_equal. by apply MixerTheory.analyze_Raise in Hrun.
Qed.

Lemma analysis_raises_on_missing_initial_balance_witness :
  analyze_mixer_privacy ∅ ∅ [Qc_of_Z 10] [user_A; user_B] = Raise KeyError.
Proof.
  apply (analysis_raises_on_missing_initial_balance ∅ ∅ [Qc_of_Z 10]
           [user_A; user_B] user_A user_B).
  - done.
  - by left.
  - by right; left.
  - by_evaluation.
  - done.
Defined.

(** X6: the analysis raises nothing when every user has an entry in both
    dictionaries, as the dictionaries that [main] builds from the users
    have; and [KeyError] is the only exception it ever raises. *)
Theorem analysis_returns_when_balances_cover initial_balances final_balances
    tx_amounts users :
  (balances_cover initial_balances final_balances users →
   ∃ S, analyze_mixer_privacy initial_balances final_balances tx_amounts users
        = Ok S) ∧
  (∀ e, analyze_mixer_privacy initial_balances final_balances tx_amounts users
        = Raise e → e = KeyError).
Proof.
  split; [apply MixerTheory.analyze_is_Ok|].
  intros e. apply MixerTheory.analyze_Raise.
Qed.

Lemma analysis_returns_when_balances_cover_witness :
  ∃ S, analyze_mixer_privacy initial_100
         (balances_of (Qc_of_Z 90) (Qc_of_Z 110)) [Qc_of_Z 10]
         [user_A; user_B] = Ok S.
Proof.
  apply (analysis_returns_when_balances_cover initial_100
           (balances_of (Qc_of_Z 90) (Qc_of_Z 110)) [Qc_of_Z 10]
           [user_A; user_B]).
  intros u [->|[->|[]%elem_of_nil]%elem_of_cons]%elem_of_cons;
    split; by_evaluation.
Defined.

End AnalysisTheory.

(** * The simulated mixer *)

Module SimulationTheory.
Import Simulation.

(** ** Finding the recipient *)

Lemma find_recipient_ext σ σ' all_wallets a :
  (∀ l, address (σ' l) = address (σ l)) →
  find_recipient σ' all_wallets a = find_recipient σ all_wallets a.
Proof.
  intros Haddr. unfold find_recipient. f_equal.
  apply list_find_ext. intros l. by rewrite Haddr.
Qed.

Lemma find_recipient_Some σ all_wallets a w :
  find_recipient σ all_wallets a = Some w ↔
  ∃ i, all_wallets !! i = Some w ∧ address (σ w) = a ∧
       ∀ j w', all_wallets !! j = Some w' → (j < i)%nat → address (σ w') ≠ a.
Proof.
  unfold find_recipient. rewrite fmap_Some. split.
  - intros ([i w']&Hfind%list_find_Some&[= ->]). by exists i.
  - intros (i&Hfind). exists (i, w). split; [|done]. by apply list_find_Some.
Qed.

Lemma find_recipient_None σ all_wallets a :
  find_recipient σ all_wallets a = None ↔
  ∀ w, w ∈ all_wallets → address (σ w) ≠ a.
Proof.
  unfold find_recipient.
  by rewrite fmap_None, list_find_None, list.Forall_forall.
Qed.

Lemma find_recipient_elem_of σ ws a w :
  find_recipient σ ws a = Some w → w ∈ ws.
Proof.
  intros (i&Hi&_)%find_recipient_Some. by eapply list_elem_of_lookup_2.
Qed.

Lemma credited_ext σ σ' all_wallets w txs :
  (∀ l, address (σ' l) = address (σ l)) →
  credited σ' all_wallets w txs = credited σ all_wallets w txs.
Proof.
  intros Haddr. induction txs as [|tx txs IH]; [done|]. simpl.
  by rewrite IH, (find_recipient_ext σ σ').
Qed.

Lemma deliverable_ext σ σ' all_wallets txs :
  (∀ l, address (σ' l) = address (σ l)) →
  deliverable σ' all_wallets txs = deliverable σ all_wallets txs.
Proof.
  intros Haddr. unfold deliverable. apply list_filter_iff. intros tx.
  by rewrite (find_recipient_ext σ σ').
Qed.

Lemma credited_Permutation σ all_wallets w txs txs' :
  txs ≡ₚ txs' → credited σ all_wallets w txs = credited σ all_wallets w txs'.
Proof.
  induction 1 as [|tx txs txs' _ IH|tx1 tx2 txs|txs1 txs2 txs3 _ IH1 _ IH2];
    simpl.
  - done.
  - by rewrite IH.
  - repeat case_decide; ring.
  - by rewrite IH1.
Qed.

(** ** Sums over the wallets *)

Lemma sum_wallets_add (f g h : loc → Qc) (ws : list loc) :
  (∀ l, l ∈ ws → f l = g l + h l) →
  foldr (λ l acc, f l + acc) 0 ws =
  foldr (λ l acc, g l + acc) 0 ws + foldr (λ l acc, h l + acc) 0 ws.
Proof.
  induction ws as [|w ws IH]; intros Hf; simpl; [ring|].
  rewrite IH, (Hf w) by (intros; apply Hf || idtac; by constructor). ring.
Qed.

Lemma sum_wallets_zero (f : loc → Qc) (ws : list loc) :
  (∀ l, l ∈ ws → f l = 0) → foldr (λ l acc, f l + acc) 0 ws = 0.
Proof.
  induction ws as [|w ws IH]; intros Hf; simpl; [done|].
  rewrite IH, (Hf w) by (intros; apply Hf || idtac; by constructor). ring.
Qed.

Lemma sum_wallets_opp (f : loc → Qc) (ws : list loc) :
  foldr (λ l acc, - f l + acc) 0 ws = - foldr (λ l acc, f l + acc) 0 ws.
Proof. induction ws as [|w ws IH]; simpl; [ring|]. rewrite IH. ring. Qed.

Lemma sum_wallets_hit (o : option loc) (a : Qc) (ws : list loc) :
  NoDup ws → (∀ w, o = Some w → w ∈ ws) →
  foldr (λ l acc, (if decide (o = Some l) then a else 0) + acc) 0 ws =
  match o with Some _ => a | None => 0 end.
Proof.
  intros Hnodup Hin. destruct o as [w|].
  - specialize (Hin w eq_refl).
    induction Hnodup as [|w' ws Hnotin Hnodup IH]; simpl.
    + by apply elem_of_nil in Hin.
    + apply elem_of_cons in Hin as [->|Hin].
      * rewrite decide_True by done.
        rewrite sum_wallets_zero; [ring|].
        intros l Hl. rewrite decide_False; [done|]. by intros [= ->].
      * rewrite decide_False by (by intros [= ->]).
        rewrite IH by done. ring.
  - apply sum_wallets_zero. intros l _. by rewrite decide_False.
Qed.

Lemma credited_cons σ ws l tx txs :
  credited σ ws l (tx :: txs) =
  (if decide (find_recipient σ ws (receiver_address tx) = Some l)
   then amount tx else 0) + credited σ ws l txs.
Proof. simpl. case_decide; ring. Qed.

Lemma debited_cons l tx txs :
  debited l (tx :: txs) =
  (if decide (sender_wallet tx = Some l) then amount tx else 0) +
  debited l txs.
Proof. simpl. case_decide; ring. Qed.

Lemma credited_app σ ws l txs1 txs2 :
  credited σ ws l (txs1 ++ txs2) =
  credited σ ws l txs1 + credited σ ws l txs2.
Proof.
  induction txs1 as [|tx txs1 IH].
  - simpl. ring.
  - rewrite <-app_comm_cons, !credited_cons, IH. ring.
Qed.

Lemma sum_credited σ ws txs :
  NoDup ws →
  foldr (λ l acc, credited σ ws l txs + acc) 0 ws =
  sum_amounts (deliverable σ ws txs).
Proof.
  intros Hnodup. induction txs as [|tx txs IH].
  - simpl. by apply sum_wallets_zero.
  - rewrite (sum_wallets_add _ _ _ ws (λ l _, credited_cons σ ws l tx txs)).
    rewrite IH, sum_wallets_hit;
      [|done|by intros w; apply find_recipient_elem_of].
    unfold deliverable.
    destruct (find_recipient σ ws (receiver_address tx)) as [w|] eqn:Hfind.
    + rewrite filter_cons_True by (by rewrite Hfind). done.
    + rewrite filter_cons_False by (rewrite Hfind; by intros []). ring.
Qed.

Lemma sum_debited ws txs :
  NoDup ws →
  Forall (λ tx, ∃ w, sender_wallet tx = Some w ∧ w ∈ ws) txs →
  foldr (λ l acc, debited l txs + acc) 0 ws = sum_amounts txs.
Proof.
  intros Hnodup. induction 1 as [|tx txs (w&Hw&Hin) _ IH].
  - simpl. by apply sum_wallets_zero.
  - rewrite (sum_wallets_add _ _ _ ws (λ l _, debited_cons l tx txs)).
    rewrite IH, sum_wallets_hit; [|done|by intros w' ?; simplify_eq].
    by rewrite Hw.
Qed.

Lemma sum_amounts_Permutation txs txs' :
  txs ≡ₚ txs' → sum_amounts txs = sum_amounts txs'.
Proof.
  induction 1 as [|tx txs txs' _ IH|tx1 tx2 txs|txs1 txs2 txs3 _ IH1 _ IH2];
    simpl.
  - done.
  - by rewrite IH.
  - ring.
  - by rewrite IH1.
Qed.

Lemma sum_amounts_app txs1 txs2 :
  sum_amounts (txs1 ++ txs2) = sum_amounts txs1 + sum_amounts txs2.
Proof.
  induction txs1 as [|tx txs1 IH]; simpl; [ring|]. rewrite IH. ring.
Qed.

Lemma credited_not_found σ ws l txs :
  (∀ a, find_recipient σ ws a ≠ Some l) → credited σ ws l txs = 0.
Proof.
  intros Hl. induction txs as [|tx txs IH]; [done|].
  rewrite credited_cons, IH, decide_False by apply Hl. ring.
Qed.

Lemma pool_entries_view new txs :
  Forall (λ tx, sender_address tx = pool_address ∧ sender_wallet tx = None)
         new →
  Forall2 (λ tx tx', receiver_address tx = receiver_address tx' ∧
                     amount tx = amount tx') new txs →
  public_view <$> new =
    (λ tx, (pool_address, receiver_address tx, amount tx)) <$> txs ∧
  Forall (λ tx, sender_wallet tx = None) new.
Proof.
  intros Hnew Hview. revert Hnew.
  induction Hview as [|tx tx' new txs [Hr Ha] _ IH]; intros Hnew.
  - by split.
  - apply Forall_cons in Hnew as [[Hs Hw] Hnew].
    destruct (IH Hnew) as [IH1 IH2]. split.
    + rewrite !fmap_cons, IH1. unfold public_view. by rewrite Hs, Hr, Ha.
    + by constructor.
Qed.

Lemma deliverable_all σ ws txs :
  Forall (λ tx, ∃ w, w ∈ ws ∧ address (σ w) = receiver_address tx) txs →
  deliverable σ ws txs = txs.
Proof.
  unfold deliverable. induction 1 as [|tx txs (w&Hw&Haddr) _ IH]; [done|].
  rewrite filter_cons_True, IH; [done|].
  destruct (find_recipient σ ws (receiver_address tx)) eqn:Hfind; [done|].
  by destruct (proj1 (find_recipient_None σ ws _) Hfind w Hw).
Qed.

(** ** Updates that do not round *)

Lemma magnitude_cons tx txs :
  magnitude (tx :: txs) = Qcabs (amount tx) + magnitude txs.
Proof. done. Qed.

Lemma magnitude_nonneg txs : 0 ≤ magnitude txs.
Proof.
  induction txs as [|tx txs IH]; [apply Qcle_refl|].
  rewrite magnitude_cons. apply Qc_nonneg_add; [apply Qcabs_nonneg|done].
Qed.

Lemma magnitude_app txs1 txs2 :
  magnitude (txs1 ++ txs2) = magnitude txs1 + magnitude txs2.
Proof.
  induction txs1 as [|tx txs1 IH].
  - simpl. ring.
  - rewrite <-app_comm_cons, !magnitude_cons, IH. ring.
Qed.

Lemma magnitude_Permutation txs txs' :
  txs ≡ₚ txs' → magnitude txs = magnitude txs'.
Proof.
  induction 1 as [|tx txs txs' _ IH|tx1 tx2 txs|txs1 txs2 txs3 _ IH1 _ IH2].
  - done.
  - by rewrite !magnitude_cons, IH.
  - rewrite !magnitude_cons. ring.
  - by rewrite IH1.
Qed.

Lemma exact_for_Permutation b txs txs' :
  txs ≡ₚ txs' → exact_for b txs → exact_for b txs'.
Proof.
  intros Hperm (Hb&Hwhole&Hbound). split_and!; [done| |].
  - by rewrite <-Hperm.
  - by rewrite <-(magnitude_Permutation _ _ Hperm).
Qed.

Lemma exact_for_cons b tx txs :
  exact_for b (tx :: txs) →
  exact_for b txs ∧ exact_for (b + amount tx) txs ∧
  exact_for (b - amount tx) txs.
Proof.
  intros (Hb&Hwhole&Hbound). apply Forall_cons in Hwhole as [Ha Hwhole].
  rewrite magnitude_cons in Hbound. split_and!; (split_and!; [|done|]).
  - done.
  - eapply Qc_bound_skip; [apply Qcabs_nonneg|exact Hbound].
  - by apply whole_add.
  - by apply Qcabs_add_bound.
  - by apply whole_sub.
  - by apply Qcabs_sub_bound.
Qed.

Lemma exact_for_whole b txs :
  exact_for b txs → whole b ∧ Qcabs b < Qc_of_Z (2 ^ 53).
Proof.
  intros (Hb&_&Hbound). split; [done|].
  eapply Qc_bound_head; [apply magnitude_nonneg|exact Hbound].
Qed.

Lemma credited_bound σ ws l txs :
  Forall (λ tx, whole (amount tx)) txs →
  whole (credited σ ws l txs) ∧ Qcabs (credited σ ws l txs) ≤ magnitude txs.
Proof.
  induction 1 as [|tx txs Ha _ [IHw IHb]].
  - split; [exists 0%Z; symmetry; apply Z2Qc_inj_0|by vm_compute].
  - rewrite credited_cons, magnitude_cons. case_decide.
    + split; [by apply whole_add|by apply Qcabs_add_le].
    + rewrite Qcplus_0_l. split; [done|].
      eapply Qcle_trans; [exact IHb|].
      apply Qc_le_add_nonneg, Qcabs_nonneg.
Qed.

Lemma debited_bound l txs :
  Forall (λ tx, whole (amount tx)) txs →
  whole (debited l txs) ∧ Qcabs (debited l txs) ≤ magnitude txs.
Proof.
  induction 1 as [|tx txs Ha _ [IHw IHb]].
  - split; [exists 0%Z; symmetry; apply Z2Qc_inj_0|by vm_compute].
  - rewrite debited_cons, magnitude_cons. case_decide.
    + split; [by apply whole_add|by apply Qcabs_add_le].
    + rewrite Qcplus_0_l. split; [done|].
      eapply Qcle_trans; [exact IHb|].
      apply Qc_le_add_nonneg, Qcabs_nonneg.
Qed.

Lemma exact_for_app_l b txs1 txs2 :
  exact_for b (txs1 ++ txs2) → exact_for b txs1.
Proof.
  intros (Hb&Hwhole&Hbound). apply Forall_app in Hwhole as [Hwhole _].
  rewrite magnitude_app in Hbound. split_and!; [done..|].
  eapply Qc_bound_tail; [apply magnitude_nonneg|exact Hbound].
Qed.

(** After the debits of [txs1], the credits of [txs2] are exact too. *)
Lemma exact_for_debited l b txs1 txs2 :
  exact_for b (txs1 ++ txs2) → exact_for (b - debited l txs1) txs2.
Proof.
  intros (Hb&Hwhole&Hbound). apply Forall_app in Hwhole as [Hwhole1 Hwhole2].
  destruct (debited_bound l txs1 Hwhole1) as [Hw Hd].
  rewrite magnitude_app in Hbound. split_and!; [by apply whole_sub|done|].
  by apply (Qcabs_sub_bound_le _ _ (magnitude txs1)).
Qed.

Section exactness.
Variable rnd : Qc → Qc.
Hypothesis Hrnd : keeps_small_wholes rnd.

Lemma foldl_credit_exact σ ws l b txs :
  exact_for b txs →
  foldl (credit rnd σ ws l) b txs = b + credited σ ws l txs.
Proof.
  revert b. induction txs as [|tx txs IH]; intros b Hb.
  - simpl. ring.
  - destruct (exact_for_cons _ _ _ Hb) as (Hskip&Hadd&_).
    assert (credit rnd σ ws l b tx =
              b + (if decide (find_recipient σ ws (receiver_address tx)
                              = Some l)
                   then amount tx else 0) ∧
            exact_for (credit rnd σ ws l b tx) txs) as [Hstep Hexact].
    { unfold credit. case_decide; [|by split; [ring|]].
      destruct (exact_for_whole _ _ Hadd) as [Hw Hlt].
      by rewrite (keeps_whole rnd _ Hrnd Hw Hlt). }
    rewrite foldl_step, credited_cons, IH, Hstep by done. ring.
Qed.

Lemma foldl_debit_exact l b txs :
  exact_for b txs →
  foldl (debit rnd l) b txs = b - debited l txs.
Proof.
  revert b. induction txs as [|tx txs IH]; intros b Hb.
  - simpl. ring.
  - destruct (exact_for_cons _ _ _ Hb) as (Hskip&_&Hsub).
    assert (debit rnd l b tx =
              b - (if decide (sender_wallet tx = Some l)
                   then amount tx else 0) ∧
            exact_for (debit rnd l b tx) txs) as [Hstep Hexact].
    { unfold debit. case_decide; [|by split; [ring|]].
      destruct (exact_for_whole _ _ Hsub) as [Hw Hlt].
      by rewrite (keeps_whole rnd _ Hrnd Hw Hlt). }
    rewrite foldl_step, debited_cons, IH, Hstep by done. ring.
Qed.

End exactness.

Section mixing.
Variable rnd : Qc → Qc.
Variable transaction_digest : string → string → Qc → Qc → string.
Variable clock : nat → Qc.

Abbreviation send := (send_one rnd transaction_digest clock).
Abbreviation mix := (mix_and_send rnd transaction_digest clock).

Lemma credit_ext σ σ' ws l b tx :
  (∀ l, address (σ' l) = address (σ l)) →
  credit rnd σ' ws l b tx = credit rnd σ ws l b tx.
Proof. intros Haddr. unfold credit. by rewrite (find_recipient_ext σ σ'). Qed.

Lemma foldl_credit_ext σ σ' ws l b txs :
  (∀ l, address (σ' l) = address (σ l)) →
  foldl (credit rnd σ' ws l) b txs = foldl (credit rnd σ ws l) b txs.
Proof.
  intros Haddr. revert b. induction txs as [|tx txs IH]; intros b; [done|].
  by rewrite !foldl_step, IH, (credit_ext σ σ').
Qed.

Lemma foldl_credit_not_found σ ws l b txs :
  (∀ a, find_recipient σ ws a ≠ Some l) →
  foldl (credit rnd σ ws l) b txs = b.
Proof.
  intros Hl. induction txs as [|tx txs IH]; [done|].
  assert (credit rnd σ ws l b tx = b) as Hstep
    by (unfold credit; by rewrite decide_False by apply Hl).
  by rewrite foldl_step, Hstep.
Qed.

Lemma send_one_unfold all_wallets ledger σ reads tx :
  send all_wallets (ledger, σ, reads) tx =
  match find_recipient σ all_wallets (receiver_address tx) with
  | Some w =>
      (ledger ++ [Transaction_init transaction_digest (clock reads)
                    pool_address (receiver_address tx) (amount tx)],
       <[w := set_balance (σ w) (rnd (balance (σ w) + amount tx))]> σ,
       S reads)
  | None => (ledger, σ, S reads)
  end.
Proof. done. Qed.

(** The loop of [mix_and_send], run on any list of transactions. *)
Lemma send_all all_wallets txs ledger σ reads :
  let after := foldl (send all_wallets) (ledger, σ, reads) txs in
  (∀ l, address (after.1.2 l) = address (σ l) ∧
        owner_name (after.1.2 l) = owner_name (σ l) ∧
        balance (after.1.2 l) =
          foldl (credit rnd σ all_wallets l) (balance (σ l)) txs) ∧
  after.2 = (reads + length txs)%nat ∧
  ∃ new,
    after.1.1 = ledger ++ new ∧
    Forall (λ tx, sender_address tx = pool_address ∧ sender_wallet tx = None)
           new ∧
    Forall2 (λ tx tx', receiver_address tx = receiver_address tx' ∧
                       amount tx = amount tx')
            new (deliverable σ all_wallets txs).
Proof.
  cbv zeta. revert ledger σ reads.
  induction txs as [|tx txs IH]; intros ledger σ reads.
  - simpl. split_and!.
    + intros l. by split_and!.
    + lia.
    + exists []. by rewrite app_nil_r.
  - change (foldl (send all_wallets) (ledger, σ, reads) (tx :: txs))
      with (foldl (send all_wallets) (send all_wallets (ledger, σ, reads) tx)
                  txs).
    rewrite send_one_unfold.
    destruct (find_recipient σ all_wallets (receiver_address tx)) as [w|]
      eqn:Hfind.
    + set (σ1 := <[w := set_balance (σ w) (rnd (balance (σ w) + amount tx))]>
                   σ).
      assert (∀ l, address (σ1 l) = address (σ l) ∧
                   owner_name (σ1 l) = owner_name (σ l) ∧
                   balance (σ1 l) =
                     credit rnd σ all_wallets l (balance (σ l)) tx) as Hσ1.
      { intros l. unfold σ1, credit. rewrite Hfind.
        destruct (decide (l = w)) as [->|Hne].
        - by rewrite fn_lookup_insert, decide_True.
        - by rewrite fn_lookup_insert_ne, decide_False by congruence. }
      assert (∀ l, address (σ1 l) = address (σ l)) as Haddr
        by (intros l; apply Hσ1).
      destruct (IH (ledger ++ [Transaction_init transaction_digest
                                 (clock reads) pool_address
                                 (receiver_address tx) (amount tx)])
                   σ1 (S reads)) as (Hσ&Hreads&new&Hledger&Hnew&Hview).
      split_and!.
      * intros l. destruct (Hσ l) as (->&->&->).
        destruct (Hσ1 l) as (->&->&->).
        by rewrite (foldl_credit_ext σ σ1), foldl_step.
      * rewrite Hreads. simpl. lia.
      * eexists (_ :: new). split_and!.
        -- by rewrite Hledger, <-(assoc_L (++)).
        -- by constructor.
        -- rewrite (deliverable_ext σ σ1) in Hview by done.
           unfold deliverable. rewrite filter_cons_True by (by rewrite Hfind).
           by constructor.
    + destruct (IH ledger σ (S reads)) as (Hσ&Hreads&new&Hledger&Hnew&Hview).
      split_and!.
      * intros l. destruct (Hσ l) as (->&->&->).
        assert (credit rnd σ all_wallets l (balance (σ l)) tx
                = balance (σ l)) as Hstep
          by (unfold credit; by rewrite Hfind, decide_False).
        by rewrite foldl_step, Hstep.
      * rewrite Hreads. simpl. lia.
      * exists new. split_and!; [done..|].
        unfold deliverable. rewrite filter_cons_False; [done|].
        rewrite Hfind. by intros [].
Qed.

Lemma mix_and_send_unfold shuffle self σ reads all_wallets :
  mix shuffle self σ reads all_wallets =
  let after :=
    foldl (send all_wallets) (ledger self, σ, reads)
          (shuffle (pending_transactions self)) in
  ({| pending_transactions := []; ledger := after.1.1 |}, after.1.2, after.2).
Proof.
  unfold mix_and_send. cbv zeta.
  by destruct (foldl _ _ _) as [[??]?].
Qed.

Lemma add_transactions_to_pool_returns self σ txs :
  Forall (λ tx, is_Some (sender_wallet tx)) txs →
  ∃ σ',
    add_transactions_to_pool rnd self σ txs =
      ({| pending_transactions := pending_transactions self ++ txs;
          ledger := ledger self |}, σ', Returned) ∧
    ∀ l, address (σ' l) = address (σ l) ∧
         owner_name (σ' l) = owner_name (σ l) ∧
         balance (σ' l) = foldl (debit rnd l) (balance (σ l)) txs.
Proof.
  intros Hall. revert self σ.
  induction Hall as [|tx txs [w Hw] _ IH]; intros self σ.
  - exists σ. simpl. rewrite app_nil_r. split; [by destruct self|].
    intros l. by split_and!.
  - simpl add_transactions_to_pool. unfold add_transaction_to_pool.
    rewrite Hw.
    edestruct IH as (σ'&->&Hσ'). exists σ'. simpl pending_transactions.
    simpl ledger. rewrite <-(assoc_L (++)). split; [done|].
    intros l. destruct (Hσ' l) as (->&->&->).
    assert (debit rnd l (balance (σ l)) tx =
            balance ((<[w := set_balance (σ w)
                               (rnd (balance (σ w) - amount tx))]> σ) l))
      as Hstep.
    { unfold debit. rewrite Hw. destruct (decide (l = w)) as [->|Hne].
      - by rewrite fn_lookup_insert, decide_True.
      - by rewrite fn_lookup_insert_ne, decide_False by congruence. }
    rewrite foldl_step, Hstep.
    destruct (decide (l = w)) as [->|Hne].
    + by rewrite fn_lookup_insert.
    + by rewrite fn_lookup_insert_ne.
Qed.

(** What one call of [mix_and_send] does, in terms of the pool as the shuffle
    left it. *)
Lemma mix_and_send_spec shuffle self σ reads ws :
  let after := mix shuffle self σ reads ws in
  let pool := shuffle (pending_transactions self) in
  pending_transactions after.1.1 = [] ∧
  (∀ l, address (after.1.2 l) = address (σ l) ∧
        owner_name (after.1.2 l) = owner_name (σ l) ∧
        balance (after.1.2 l) =
          foldl (credit rnd σ ws l) (balance (σ l)) pool) ∧
  after.2 = (reads + length pool)%nat ∧
  ∃ new,
    ledger after.1.1 = ledger self ++ new ∧
    public_view <$> new =
      (λ tx, (pool_address, receiver_address tx, amount tx)) <$>
        deliverable σ ws pool ∧
    Forall (λ tx, sender_wallet tx = None) new.
Proof.
  cbv zeta. rewrite mix_and_send_unfold. cbv zeta. simpl.
  destruct (send_all ws (shuffle (pending_transactions self)) (ledger self)
              σ reads)
    as (Hσ&Hreads&new&Hledger&Hnew&Hview).
  split_and!; [done..|].
  exists new. split; [done|]. by apply pool_entries_view.
Qed.

(** On whole numbers that stay small, the credits add up. *)
Lemma mix_and_send_exact shuffle self σ reads ws l :
  keeps_small_wholes rnd →
  shuffle (pending_transactions self) ≡ₚ pending_transactions self →
  exact_for (balance (σ l)) (pending_transactions self) →
  balance ((mix shuffle self σ reads ws).1.2 l) =
  balance (σ l) + credited σ ws l (pending_transactions self).
Proof.
  intros Hrnd Hperm Hexact.
  destruct (mix_and_send_spec shuffle self σ reads ws) as (_&Hσ&_).
  destruct (Hσ l) as (_&_&->).
  rewrite foldl_credit_exact;
    [|done|apply (exact_for_Permutation _ (pending_transactions self));
           [by symmetry|done]].
  by rewrite (credited_Permutation _ _ _ _ _ Hperm).
Qed.

(** X7: [mix_and_send] empties the pool and only appends to the ledger; the
    entries it appends name the pool as their sender, carry no sender wallet,
    and are the deliverable transactions of the shuffled pool, in that order,
    with their receivers and amounts. *)
Theorem mixed_ledger_names_only_the_pool shuffle self σ reads ws :
  let after :=
    mix_and_send rnd transaction_digest clock shuffle self σ reads ws in
  pending_transactions after.1.1 = [] ∧
  ∃ new,
    ledger after.1.1 = ledger self ++ new ∧
    public_view <$> new =
      (λ tx, (pool_address, receiver_address tx, amount tx)) <$>
        deliverable σ ws (shuffle (pending_transactions self)) ∧
    Forall (λ tx, sender_wallet tx = None) new.
Proof.
  cbv zeta.
  destruct (mix_and_send_spec shuffle self σ reads ws) as (Hpool&_&_&Hnew).
  by split.
Qed.

(** X8: when the shuffle rearranges the pool, [mix_and_send] leaves every
    wallet's owner and address as they were; it adds to the wallet's balance,
    in the order of the shuffled pool and rounding each sum, the amounts of
    the pooled transactions whose receiver address it is the first wallet of
    [all_wallets] to have; the clock is read once for every pooled
    transaction.  When the balance and the amounts are whole numbers whose
    magnitudes add up to less than 2^53, no sum is rounded and the balance
    rises by the total of these amounts. *)
Theorem mixing_credits_the_recipients shuffle self σ reads ws :
  shuffle (pending_transactions self) ≡ₚ pending_transactions self →
  let after :=
    mix_and_send rnd transaction_digest clock shuffle self σ reads ws in
  (∀ l, address (after.1.2 l) = address (σ l) ∧
        owner_name (after.1.2 l) = owner_name (σ l) ∧
        balance (after.1.2 l) =
          foldl (credit rnd σ ws l) (balance (σ l))
                (shuffle (pending_transactions self))) ∧
  after.2 = (reads + length (pending_transactions self))%nat ∧
  (keeps_small_wholes rnd →
   ∀ l, exact_for (balance (σ l)) (pending_transactions self) →
        balance (after.1.2 l) =
          balance (σ l) + credited σ ws l (pending_transactions self)).
Proof.
  intros Hperm. cbv zeta.
  destruct (mix_and_send_spec shuffle self σ reads ws) as (_&Hσ&Hreads&_).
  split_and!.
  - done.
  - by rewrite Hreads, Hperm.
  - intros Hrnd l Hexact. by apply mix_and_send_exact.
Qed.

(** X9: a wallet that is not in [all_wallets], or that comes after another
    wallet with the same address in a duplicate-free [all_wallets], is left as
    it was by [mix_and_send], whatever the pool holds. *)
Theorem mixing_never_credits_a_shadowed_wallet shuffle self σ reads ws l :
  l ∉ ws ∨
  (NoDup ws ∧
   ∃ i j l', ws !! i = Some l' ∧ ws !! j = Some l ∧ (i < j)%nat ∧
             address (σ l') = address (σ l)) →
  (mix_and_send rnd transaction_digest clock shuffle self σ reads ws).1.2 l
  = σ l.
Proof.
  intros Hl.
  destruct (mix_and_send_spec shuffle self σ reads ws) as (_&Hσ&_).
  destruct (Hσ l) as (Haddr&Howner&Hbalance).
  rewrite foldl_credit_not_found in Hbalance.
  - destruct ((mix shuffle self σ reads ws).1.2 l), (σ l).
    simpl in *. congruence.
  - intros a Hfind. destruct Hl as [Hl|(Hnodup&i&j&l'&Hi&Hj&Hij&Hsame)].
    + by apply Hl, (find_recipient_elem_of σ ws a).
    + apply find_recipient_Some in Hfind as (k&Hk&Ha&Hfirst).
      assert (k = j) as -> by (by eapply NoDup_lookup).
      apply (Hfirst i l' Hi Hij). congruence.
Qed.

(** X10: for any two rearrangements of the pool, [mix_and_send] reads the
    clock equally often, the ledgers show the same entries up to order, and
    every wallet keeps its owner and its address.  The balances are the same
    when the balance and the amounts are whole numbers whose magnitudes add up
    to less than 2^53; sums that round can depend on the order. *)
Theorem mixing_is_independent_of_the_shuffle shuffle1 shuffle2
    self σ reads ws :
  shuffle1 (pending_transactions self) ≡ₚ pending_transactions self →
  shuffle2 (pending_transactions self) ≡ₚ pending_transactions self →
  let after1 :=
    mix_and_send rnd transaction_digest clock shuffle1 self σ reads ws in
  let after2 :=
    mix_and_send rnd transaction_digest clock shuffle2 self σ reads ws in
  after1.2 = after2.2 ∧
  public_view <$> ledger after1.1.1 ≡ₚ public_view <$> ledger after2.1.1 ∧
  (∀ l, address (after1.1.2 l) = address (after2.1.2 l) ∧
        owner_name (after1.1.2 l) = owner_name (after2.1.2 l)) ∧
  (keeps_small_wholes rnd →
   ∀ l, exact_for (balance (σ l)) (pending_transactions self) →
        after1.1.2 l = after2.1.2 l).
Proof.
  intros Hperm1 Hperm2. cbv zeta.
  destruct (mix_and_send_spec shuffle1 self σ reads ws)
    as (_&Hσ1&Hreads1&new1&Hledger1&Hview1&_).
  destruct (mix_and_send_spec shuffle2 self σ reads ws)
    as (_&Hσ2&Hreads2&new2&Hledger2&Hview2&_).
  split_and!.
  - by rewrite Hreads1, Hreads2, Hperm1, Hperm2.
  - rewrite Hledger1, Hledger2, !fmap_app, Hview1, Hview2. unfold deliverable.
    by rewrite Hperm1, Hperm2.
  - intros l. destruct (Hσ1 l) as (->&->&_), (Hσ2 l) as (->&->&_). done.
  - intros Hrnd l Hexact.
    pose proof (mix_and_send_exact shuffle1 self σ reads ws l Hrnd Hperm1
                  Hexact) as Hb1.
    pose proof (mix_and_send_exact shuffle2 self σ reads ws l Hrnd Hperm2
                  Hexact) as Hb2.
    destruct (Hσ1 l) as (Ha1&Ho1&_), (Hσ2 l) as (Ha2&Ho2&_).
    destruct ((mix shuffle1 self σ reads ws).1.2 l),
             ((mix shuffle2 self σ reads ws).1.2 l).
    simpl in *. congruence.
Qed.

(** X11: when the balances of a duplicate-free [all_wallets] and the pooled
    amounts are whole numbers whose magnitudes add up to less than 2^53,
    [mix_and_send] raises the total of these balances by the amounts of the
    deliverable transactions of the pool; the amounts of the others reach no
    wallet. *)
Theorem mixing_adds_the_delivered_amounts shuffle self σ reads ws :
  keeps_small_wholes rnd →
  (∀ l, l ∈ ws → exact_for (balance (σ l)) (pending_transactions self)) →
  NoDup ws →
  shuffle (pending_transactions self) ≡ₚ pending_transactions self →
  total_balance
    (mix_and_send rnd transaction_digest clock shuffle self σ reads ws).1.2
    ws =
  total_balance σ ws +
  sum_amounts (deliverable σ ws (pending_transactions self)).
Proof.
  intros Hrnd Hexact Hnodup Hperm.
  unfold total_balance.
  rewrite (sum_wallets_add _ (λ l, balance (σ l))
             (λ l, credited σ ws l (pending_transactions self))).
  - by rewrite sum_credited.
  - intros l Hl. by apply mix_and_send_exact, Hexact.
Qed.

(** The pool is filled, then mixed. *)
Lemma pool_and_mix shuffle self σ reads ws txs :
  Forall (λ tx, is_Some (sender_wallet tx)) txs →
  let pooled := add_transactions_to_pool rnd self σ txs in
  let after := mix shuffle pooled.1.1 pooled.1.2 reads ws in
  pooled.2 = Returned ∧
  pending_transactions pooled.1.1 = pending_transactions self ++ txs ∧
  ∀ l, address (after.1.2 l) = address (σ l) ∧
       owner_name (after.1.2 l) = owner_name (σ l) ∧
       balance (after.1.2 l) =
         foldl (credit rnd σ ws l) (foldl (debit rnd l) (balance (σ l)) txs)
               (shuffle (pending_transactions self ++ txs)).
Proof.
  intros Hattached. cbv zeta.
  destruct (add_transactions_to_pool_returns self σ txs Hattached)
    as (σ'&->&Hσ'). simpl.
  split_and!; [done..|]. intros l.
  destruct (mix_and_send_spec shuffle
              {| pending_transactions := pending_transactions self ++ txs;
                 ledger := ledger self |} σ' reads ws) as (_&Hσ&_).
  destruct (Hσ l) as (->&->&->), (Hσ' l) as (->&->&->). simpl.
  by rewrite (foldl_credit_ext σ σ') by apply Hσ'.
Qed.

(** The same on whole numbers that stay small. *)
Lemma pool_and_mix_exact shuffle self σ reads ws txs l :
  keeps_small_wholes rnd →
  Forall (λ tx, is_Some (sender_wallet tx)) txs →
  shuffle (pending_transactions self ++ txs) ≡ₚ
    pending_transactions self ++ txs →
  exact_for (balance (σ l)) (txs ++ pending_transactions self ++ txs) →
  balance
    ((mix shuffle (add_transactions_to_pool rnd self σ txs).1.1
          (add_transactions_to_pool rnd self σ txs).1.2 reads ws).1.2 l) =
  balance (σ l) - debited l txs +
  credited σ ws l (pending_transactions self ++ txs).
Proof.
  intros Hrnd Hattached Hperm Hexact.
  destruct (pool_and_mix shuffle self σ reads ws txs Hattached) as (_&_&Hσ).
  destruct (Hσ l) as (_&_&->).
  rewrite (foldl_debit_exact rnd Hrnd).
  - rewrite (foldl_credit_exact rnd Hrnd).
    + by rewrite (credited_Permutation _ _ _ _ _ Hperm).
    + apply (exact_for_Permutation _ (pending_transactions self ++ txs));
        [by symmetry|]. by apply exact_for_debited.
  - destruct Hexact as (Hb&Hwhole&Hbound).
    apply Forall_app in Hwhole as [Hwhole _].
    rewrite magnitude_app in Hbound. split_and!; [done..|].
    eapply Qc_bound_tail; [apply magnitude_nonneg|exact Hbound].
Qed.

(** X12: when transactions with a sender wallet attached are added to the
    pool one after the other and the pool is then mixed, no call raises and
    no balance is checked on the way.  Every wallet's balance is first
    lowered by the amounts it sends, in the order of the calls, then raised
    by the amounts delivered to it, in the order of the shuffled pool, each
    result rounded.  When the balance and the amounts are whole numbers whose
    magnitudes, the added amounts counted twice, add up to less than 2^53,
    nothing is rounded and the wallet ends with its balance less what it sent
    plus what was delivered to it. *)
Theorem pooling_then_mixing_nets_each_wallet shuffle self σ reads ws txs :
  Forall (λ tx, is_Some (sender_wallet tx)) txs →
  shuffle (pending_transactions self ++ txs) ≡ₚ
    pending_transactions self ++ txs →
  let pooled := add_transactions_to_pool rnd self σ txs in
  let after :=
    mix_and_send rnd transaction_digest clock shuffle pooled.1.1 pooled.1.2
                 reads ws in
  pooled.2 = Returned ∧
  (∀ l, balance (after.1.2 l) =
          foldl (credit rnd σ ws l) (foldl (debit rnd l) (balance (σ l)) txs)
                (shuffle (pending_transactions self ++ txs))) ∧
  (keeps_small_wholes rnd →
   ∀ l, exact_for (balance (σ l)) (txs ++ pending_transactions self ++ txs) →
        balance (after.1.2 l) =
          balance (σ l) - debited l txs +
          credited σ ws l (pending_transactions self ++ txs)).
Proof.
  intros Hattached Hperm. cbv zeta.
  destruct (pool_and_mix shuffle self σ reads ws txs Hattached)
    as (Hreturned&_&Hσ).
  split_and!; [done| |].
  - intros l. by destruct (Hσ l) as (_&_&->).
  - intros Hrnd l Hexact. by apply pool_and_mix_exact.
Qed.

(** X13: when the wallets of [all_wallets] are distinct objects, the pool
    starts empty, every sender is one of the wallets, every receiver address
    is that of one of the wallets, and the balances and the amounts are whole
    numbers whose magnitudes, the amounts counted twice, add up to less than
    2^53, pooling and mixing keep the total of the balances. *)
Theorem pooling_then_mixing_conserves_the_total shuffle self σ reads ws txs :
  keeps_small_wholes rnd →
  (∀ l, l ∈ ws → exact_for (balance (σ l)) (txs ++ txs)) →
  NoDup ws →
  pending_transactions self = [] →
  Forall (λ tx, ∃ w, sender_wallet tx = Some w ∧ w ∈ ws) txs →
  Forall (λ tx, ∃ w, w ∈ ws ∧ address (σ w) = receiver_address tx) txs →
  shuffle txs ≡ₚ txs →
  let pooled := add_transactions_to_pool rnd self σ txs in
  let after :=
    mix_and_send rnd transaction_digest clock shuffle pooled.1.1 pooled.1.2
                 reads ws in
  total_balance after.1.2 ws = total_balance σ ws.
Proof.
  intros Hrnd Hexact Hnodup Hempty Hsenders Hreceivers Hperm. cbv zeta.
  assert (Forall (λ tx, is_Some (sender_wallet tx)) txs) as Hattached.
  { eapply Forall_impl; [exact Hsenders|]. simpl. intros tx (w&Hw&_).
    by exists w. }
  rewrite <-(app_nil_l txs), <-Hempty in Hperm.
  unfold total_balance.
  rewrite (sum_wallets_add _
             (λ l, balance (σ l) + credited σ ws l txs)
             (λ l, - debited l txs)).
  - rewrite (sum_wallets_add _ (λ l, balance (σ l))
               (λ l, credited σ ws l txs)) by done.
    rewrite sum_credited by done.
    rewrite sum_wallets_opp, sum_debited by done.
    rewrite deliverable_all by done. ring.
  - intros l Hl.
    rewrite (pool_and_mix_exact shuffle self σ reads ws txs l Hrnd Hattached
               Hperm).
    + rewrite Hempty. simpl. ring.
    + rewrite Hempty. by apply Hexact.
Qed.

(** X14: a transaction as its constructor leaves it has no sender wallet:
    [add_transaction_to_pool] queues it, then raises, and no wallet is
    debited.  A later [mix_and_send] still delivers it, adding its amount to
    the receiver's balance when its turn in the shuffled pool comes.  When the
    balances and the pooled amounts are whole numbers whose magnitudes add up
    to less than 2^53, the receiver's balance rises by this amount on top of
    what else is delivered to it, as does the total. *)
Theorem unattached_transaction_is_pooled_but_not_debited
    shuffle self σ reads ws now sender receiver amount' w :
  NoDup ws →
  find_recipient σ ws receiver = Some w →
  let tx := Transaction_init transaction_digest now sender receiver amount' in
  let pooled := add_transaction_to_pool rnd self σ tx in
  shuffle (pending_transactions pooled.1.1) ≡ₚ
    pending_transactions pooled.1.1 →
  let after :=
    mix_and_send rnd transaction_digest clock shuffle pooled.1.1 pooled.1.2
                 reads ws in
  pooled = ({| pending_transactions := pending_transactions self ++ [tx];
               ledger := ledger self |}, σ, AttributeError) ∧
  balance (after.1.2 w) =
    foldl (credit rnd σ ws w) (balance (σ w))
          (shuffle (pending_transactions self ++ [tx])) ∧
  tx ∈ deliverable σ ws (shuffle (pending_transactions self ++ [tx])) ∧
  (keeps_small_wholes rnd →
   (∀ l, l ∈ ws →
      exact_for (balance (σ l)) (pending_transactions self ++ [tx])) →
   balance (after.1.2 w) =
     balance (σ w) + credited σ ws w (pending_transactions self) + amount' ∧
   total_balance after.1.2 ws =
     total_balance σ ws +
     sum_amounts (deliverable σ ws (pending_transactions self)) + amount').
Proof.
  intros Hnodup Hfind. cbv zeta.
  change (add_transaction_to_pool rnd self σ
            (Transaction_init transaction_digest now sender receiver amount'))
    with ({| pending_transactions :=
               pending_transactions self ++
               [Transaction_init transaction_digest now sender receiver
                  amount'];
             ledger := ledger self |}, σ, AttributeError).
  simpl. intros Hperm. split; [done|].
  set (tx := Transaction_init transaction_digest now sender receiver amount')
    in *.
  set (pooled := {| pending_transactions := pending_transactions self ++ [tx];
                    ledger := ledger self |}) in *.
  destruct (mix_and_send_spec shuffle pooled σ reads ws) as (_&Hσ&_).
  split_and!.
  - by destruct (Hσ w) as (_&_&->).
  - unfold deliverable. apply list_elem_of_filter. split.
    + simpl. by rewrite Hfind.
    + rewrite Hperm. apply elem_of_app. right. by left.
  - intros Hrnd Hexact.
    assert (∀ l, l ∈ ws →
              balance ((mix shuffle pooled σ reads ws).1.2 l) =
              balance (σ l) +
              credited σ ws l (pending_transactions self ++ [tx])) as Hb.
    { intros l Hl. by apply (mix_and_send_exact shuffle pooled), Hexact. }
    split.
    + rewrite Hb by (by eapply find_recipient_elem_of).
      rewrite credited_app, credited_cons. simpl.
      rewrite Hfind, decide_True by done. ring.
    + unfold total_balance.
      rewrite (sum_wallets_add _ (λ l, balance (σ l))
                 (λ l, credited σ ws l (pending_transactions self ++ [tx])))
        by done.
      rewrite sum_credited by done. unfold deliverable.
      rewrite filter_app, sum_amounts_app.
      rewrite filter_cons_True by (simpl; by rewrite Hfind).
      simpl. ring.
Qed.

End mixing.

(** The wallets of [sample_store] and the sample transactions hold whole
    numbers far below 2^53. *)
Ltac exact_for_sample :=
  split_and!; [by eexists|repeat constructor; by eexists|by vm_compute].

(** Sums that round depend on the order: the machine adds 0.1, 0.2 and 33.33
    to 100 and arrives at 133.63, and adds them in the reverse order and
    arrives at 133.62999999999997. *)
Lemma shuffle_changes_a_rounded_balance :
  let mixer := {| pending_transactions := fractional_pool; ledger := [] |} in
  let after1 :=
    mix_and_send binary64 sample_digest sample_clock (λ pool, pool) mixer
                 sample_store 0 [0; 1]%nat in
  let after2 :=
    mix_and_send binary64 sample_digest sample_clock reverse mixer
                 sample_store 0 [0; 1]%nat in
  balance (after1.1.2 0%nat) = Q2Qc (1175421910557655 # 8796093022208) ∧
  balance (after2.1.2 0%nat) = Q2Qc (4701687642230619 # 35184372088832) ∧
  balance (after1.1.2 0%nat) ≠ balance (after2.1.2 0%nat).
Proof. split_and!; by_evaluation. Qed.

Lemma mixing_credits_the_recipients_witness :
  balance
    ((mix_and_send binary64 sample_digest sample_clock reverse sample_mixer
        sample_store 0 [0; 1]%nat).1.2 1%nat) =
  balance (sample_store 1) +
  credited sample_store [0; 1]%nat 1 (pending_transactions sample_mixer).
Proof.
  destruct (mixing_credits_the_recipients binary64 sample_digest sample_clock
              reverse sample_mixer sample_store 0 [0; 1]%nat)
    as (_&_&Hexact).
  - apply reverse_Permutation.
  - apply Hexact; [apply binary64_keeps_small_wholes|].
    exact_for_sample.
Defined.

Lemma mixing_never_credits_a_shadowed_wallet_witness :
  (mix_and_send binary64 sample_digest sample_clock reverse
     {| pending_transactions :=
          [Transaction_init sample_digest 0 "1xa" "1xc" 1];
        ledger := [] |}
     sample_store 0 [2; 3]%nat).1.2 3%nat = sample_store 3.
Proof.
  apply mixing_never_credits_a_shadowed_wallet. right. split.
  - by_evaluation.
  - exists 0%nat, 1%nat, 2%nat. split_and!; [reflexivity..|lia|reflexivity].
Defined.

Lemma mixing_is_independent_of_the_shuffle_witness :
  (mix_and_send binary64 sample_digest sample_clock reverse sample_mixer
     sample_store 0 [0; 1]%nat).1.2 0%nat =
  (mix_and_send binary64 sample_digest sample_clock (λ pool, pool)
     sample_mixer sample_store 0 [0; 1]%nat).1.2 0%nat.
Proof.
  destruct (mixing_is_independent_of_the_shuffle binary64 sample_digest
              sample_clock reverse (λ pool, pool) sample_mixer sample_store 0
              [0; 1]%nat) as (_&_&_&Hexact).
  - apply reverse_Permutation.
  - reflexivity.
  - apply Hexact; [apply binary64_keeps_small_wholes|].
    exact_for_sample.
Defined.

Lemma mixing_adds_the_delivered_amounts_witness :
  total_balance
    (mix_and_send binary64 sample_digest sample_clock reverse sample_mixer
       sample_store 0 [0; 1]%nat).1.2 [0; 1]%nat =
  total_balance sample_store [0; 1]%nat +
  sum_amounts
    (deliverable sample_store [0; 1]%nat (pending_transactions sample_mixer)).
Proof.
  apply mixing_adds_the_delivered_amounts.
  - apply binary64_keeps_small_wholes.
  - intros l _. exact_for_sample.
  - by_evaluation.
  - apply reverse_Permutation.
Defined.

Lemma pooling_then_mixing_nets_each_wallet_witness :
  let txs := [sample_transaction; sample_transaction'] in
  let pooled := add_transactions_to_pool binary64 Mixer_init sample_store txs in
  pooled.2 = Returned ∧
  balance
    ((mix_and_send binary64 sample_digest sample_clock reverse pooled.1.1
        pooled.1.2 0 [0; 1]%nat).1.2 0%nat) =
  balance (sample_store 0) - debited 0 txs +
  credited sample_store [0; 1]%nat 0 txs.
Proof.
  cbv zeta.
  destruct (pooling_then_mixing_nets_each_wallet binary64 sample_digest
              sample_clock reverse Mixer_init sample_store 0 [0; 1]%nat
              [sample_transaction; sample_transaction'])
    as (Hreturned&_&Hexact).
  - by_evaluation.
  - apply reverse_Permutation.
  - split; [exact Hreturned|].
    apply Hexact; [apply binary64_keeps_small_wholes|].
    exact_for_sample.
Defined.

Lemma pooling_then_mixing_conserves_the_total_witness :
  let txs := [sample_transaction; sample_transaction'] in
  let pooled := add_transactions_to_pool binary64 Mixer_init sample_store txs in
  total_balance
    (mix_and_send binary64 sample_digest sample_clock reverse pooled.1.1
       pooled.1.2 0 [0; 1]%nat).1.2 [0; 1]%nat =
  total_balance sample_store [0; 1]%nat.
Proof.
  cbv zeta.
  apply (pooling_then_mixing_conserves_the_total binary64 sample_digest
           sample_clock reverse Mixer_init sample_store 0 [0; 1]%nat
           [sample_transaction; sample_transaction']).
  - apply binary64_keeps_small_wholes.
  - intros l _. exact_for_sample.
  - by_evaluation.
  - reflexivity.
  - repeat constructor.
    + exists 0%nat. split; [reflexivity|by left].
    + exists 1%nat. split; [reflexivity|by right; left].
  - repeat constructor.
    + exists 1%nat. split; [by right; left|reflexivity].
    + exists 0%nat. split; [by left|reflexivity].
  - apply reverse_Permutation.
Defined.

Lemma unattached_transaction_is_pooled_but_not_debited_witness :
  let tx := Transaction_init sample_digest 0 "1xa" "1xb" (Qc_of_Z 10) in
  let pooled := add_transaction_to_pool binary64 Mixer_init sample_store tx in
  let after :=
    mix_and_send binary64 sample_digest sample_clock reverse pooled.1.1
                 pooled.1.2 0 [0; 1]%nat in
  pooled.2 = AttributeError ∧
  total_balance after.1.2 [0; 1]%nat = Qc_of_Z 210.
Proof.
  cbv zeta.
  destruct (unattached_transaction_is_pooled_but_not_debited binary64
              sample_digest sample_clock reverse Mixer_init sample_store 0
              [0; 1]%nat 0 "1xa" "1xb" (Qc_of_Z 10) 1%nat)
    as (Hpooled&_&_&Hexact).
  - by_evaluation.
  - reflexivity.
  - apply reverse_Permutation.
  - split; [by rewrite Hpooled|].
    destruct Hexact as [_ Htotal];
      [apply binary64_keeps_small_wholes|intros l _; exact_for_sample|].
    rewrite Htotal. by_evaluation.
Defined.

End SimulationTheory.

(** * The wallet registry *)

Module RegistryTheory.
Import Registry.

Section registry.
Variable sha256_hexdigest : string → string.

Abbreviation address_of := (wallet_address sha256_hexdigest).
Abbreviation created := (create_users sha256_hexdigest).

Lemma Wallet_init_registry reg owner :
  (Wallet_init sha256_hexdigest reg owner).1 =
  <[address_of owner := owner]> reg.
Proof. done. Qed.

Lemma create_users_cons reg owner owners :
  created reg (owner :: owners) =
  created (<[address_of owner := owner]> reg) owners.
Proof. done. Qed.

Lemma last_cons_default {A} (x : A) (l : list A) :
  last (x :: l) = Some (default x (last l)).
Proof.
  revert x. induction l as [|y l IH]; intros x; [done|].
  change (last (x :: y :: l)) with (last (y :: l)). by rewrite !IH.
Qed.

Lemma create_users_lookup reg owners a :
  created reg owners !! a =
  match last (filter (λ owner, address_of owner = a) owners) with
  | Some owner => Some owner
  | None => reg !! a
  end.
Proof.
  revert reg. induction owners as [|owner owners IH]; intros reg; [done|].
  rewrite create_users_cons, IH.
  destruct (decide (address_of owner = a)) as [Ha|Ha].
  - rewrite filter_cons_True, last_cons_default by done.
    destruct (last (filter _ owners)); [done|].
    by rewrite <-Ha, lookup_insert_eq.
  - rewrite filter_cons_False by done.
    destruct (last (filter _ owners)); [done|].
    by rewrite lookup_insert_ne.
Qed.

Lemma get_owner_name_after_create reg owners a :
  get_owner_name_from_address (created reg owners) a =
  match last (filter (λ owner, address_of owner = a) owners) with
  | Some owner => owner
  | None => get_owner_name_from_address reg a
  end.
Proof.
  unfold get_owner_name_from_address. rewrite create_users_lookup.
  by destruct (last _).
Qed.

Lemma last_constant {A} (x : A) (l : list A) :
  x ∈ l → Forall (λ y, y = x) l → last l = Some x.
Proof.
  intros Hin Hall. destruct l as [|y l]; [by apply elem_of_nil in Hin|].
  rewrite last_cons_default. f_equal.
  apply Forall_cons in Hall as [-> Hall].
  destruct (last l) as [z|] eqn:Hlast; [|done]. simpl.
  apply last_Some in Hlast as [l' ->].
  rewrite Forall_app, Forall_singleton in Hall. apply Hall.
Qed.

(** X15: after users have been created, [get_owner_name_from_address] gives
    for an address the name of the user created last among those whose wallet
    has that address, and, when no created wallet has it, what the registry
    gave before. *)
Theorem registry_gives_the_last_owner_of_an_address reg owners a :
  get_owner_name_from_address (created reg owners) a =
  match last (filter (λ owner, address_of owner = a) owners) with
  | Some owner => owner
  | None => get_owner_name_from_address reg a
  end.
Proof. apply get_owner_name_after_create. Qed.

Lemma created_owner_lookup reg owners owner :
  owner ∈ owners →
  Forall (λ other, address_of other = address_of owner → other = owner)
         owners →
  get_owner_name_from_address (created reg owners) (address_of owner) = owner.
Proof.
  intros Hin Hfree.
  rewrite get_owner_name_after_create, (last_constant owner); [done| |].
  - by apply list_elem_of_filter.
  - apply list.Forall_forall. intros other [Haddr Hother]%list_elem_of_filter.
    by apply (proj1 (list.Forall_forall _ _) Hfree).
Qed.

(** X16: a created user is found again by the address of their wallet, as
    long as no other created user's name hashes to the same address. *)
Theorem registered_owner_is_found reg owners owner :
  owner ∈ owners →
  Forall (λ other, address_of other = address_of owner → other = owner)
         owners →
  let wallet := (Wallet_init sha256_hexdigest reg owner).2 in
  Public.owner_name wallet = owner ∧
  get_owner_name_from_address (created reg owners) (Public.address wallet) =
  owner.
Proof.
  intros Hin Hfree. cbv zeta. split; [done|]. simpl.
  by apply created_owner_lookup.
Qed.

End registry.

Lemma registered_owner_is_found_witness :
  get_owner_name_from_address
    (create_users (λ name, name) ∅ ["Alice"; "Bob"; "Alice"])
    (Public.address (Wallet_init (λ name, name) ∅ "Bob").2) = "Bob".
Proof.
  apply (registered_owner_is_found (λ name, name) ∅ ["Alice"; "Bob"; "Alice"]
           "Bob").
  - by right; left.
  - by_evaluation.
Defined.

End RegistryTheory.

(** * Public transactions, one after the other *)

Module PublicInvariants.
Import Public.

Lemma Qc_non_negative_add (x y : Qc) : 0 ≤ x → 0 ≤ y → 0 ≤ x + y.
Proof.
  intros Hx Hy. replace (0 : Qc) with (0 + 0 : Qc) at 1 by ring.
  by apply Qcplus_le_compat.
Qed.

Lemma Qc_non_negative_sub (x y : Qc) : ¬ x < y → 0 ≤ x - y.
Proof. intros Hxy%Qcnot_lt_le. by apply Qcle_minus_iff in Hxy. Qed.

Section invariants.
Variable rnd : Qc → Qc.
Variable sha256_hexdigest : string → string → Qc → Qc → string.

(** X17: the check of the sender's balance keeps the balances from going
    below zero, the rounding giving nothing negative for a number that is
    not negative: when no balance is negative and the amount is not
    negative, no balance is negative after the constructor call, whether it
    raises or returns. *)
Theorem Transaction_init_keeps_balances_non_negative
    now σ sender receiver amount :
  keeps_sign rnd →
  (∀ l, 0 ≤ balance (σ l)) → 0 ≤ amount →
  ∀ l, 0 ≤ balance ((Transaction_init rnd now sha256_hexdigest σ sender
                       receiver amount).1 l).
Proof.
  intros Hsign Hσ Hamount l.
  destruct (decide (balance (σ sender) < amount)) as [Hlt|Hfunds].
  { by rewrite PublicTheory.Transaction_init_failure. }
  rewrite PublicTheory.Transaction_init_balance by done. unfold settled.
  assert (0 ≤ (if decide (l = sender) then rnd (balance (σ l) - amount)
               else balance (σ l))) as Hlowered.
  { destruct (decide (l = sender)) as [Hs|_]; [|apply Hσ].
    apply Hsign, Qc_non_negative_sub. by rewrite Hs. }
  destruct (decide (l = receiver)) as [_|_]; [|done].
  by apply Hsign, Qc_non_negative_add.
Qed.


End invariants.

Lemma Transaction_init_keeps_balances_non_negative_witness :
  0 ≤ balance
        ((Transaction_init binary64 0 (λ _ _ _ _, "id") fresh_store 0%nat
            1%nat (Qc_of_Z 100)).1 0%nat).
Proof.
  apply Transaction_init_keeps_balances_non_negative.
  - apply binary64_keeps_sign.
  - intros l. by vm_compute.
  - by vm_compute.
Defined.


End PublicInvariants.

(** * The displayed order of a scenario *)

Module DisplayTheory.
Import Mixer.

Abbreviation by_amount := (λ x y : flow, sort_key x ≤ sort_key y).
Abbreviation of_amount a := (λ x : flow, sort_key x = a).

Lemma insert_sorted_filter a x l :
  filter (of_amount a) (insert_sorted x l) = filter (of_amount a) (x :: l).
Proof.
  induction l as [|y l IH]; [done|]. simpl. case_decide as Hxy; [done|].
  rewrite (filter_cons _ y), IH, !(filter_cons _ x), (filter_cons _ y).
  destruct (decide (sort_key y = a)) as [Hy|Hy]; [|done].
  assert (sort_key x ≠ a) as Hx.
  { intros Hx. apply Hxy. rewrite Hx, Hy. apply Qcle_refl. }
  by rewrite !decide_False by done.
Qed.

Lemma sorted_by_amount_filter a l :
  filter (of_amount a) (sorted_by_amount l) = filter (of_amount a) l.
Proof.
  induction l as [|x l IH]; [done|]. simpl.
  by rewrite insert_sorted_filter, !filter_cons, IH.
Qed.

Lemma stable_sort_unique l1 l2 :
  StronglySorted by_amount l1 → StronglySorted by_amount l2 →
  (∀ a, filter (of_amount a) l1 = filter (of_amount a) l2) →
  l1 = l2.
Proof.
  intros Hl1. revert l2.
  induction Hl1 as [|x l1 Hl1 IH Hx]; intros l2 Hl2 Hsame.
  - destruct l2 as [|y l2]; [done|].
    specialize (Hsame (sort_key y)). by rewrite filter_cons_True in Hsame.
  - destruct Hl2 as [|y l2 Hl2 Hy].
    { specialize (Hsame (sort_key x)). by rewrite filter_cons_True in Hsame. }
    assert (x = y) as <-.
    { pose proof (Hsame (sort_key x)) as Hkx.
      rewrite filter_cons_True in Hkx by done.
      destruct (decide (sort_key y = sort_key x)) as [Heq|Hne].
      { rewrite (filter_cons_True _ y) in Hkx by done. congruence. }
      exfalso. apply Hne.
      rewrite (filter_cons_False _ y) in Hkx by done.
      assert (x ∈ l2) as Hx2.
      { eapply (proj1 (list_elem_of_filter (of_amount (sort_key x)) l2 x)).
        rewrite <-Hkx. left. }
      pose proof (Hsame (sort_key y)) as Hky.
      rewrite (filter_cons_True _ y) in Hky by done.
      rewrite (filter_cons_False _ x) in Hky by (by intros ?).
      assert (y ∈ l1) as Hy1.
      { eapply (proj1 (list_elem_of_filter (of_amount (sort_key y)) l1 y)).
        rewrite Hky. left. }
      apply Qcle_antisym.
      - by apply (proj1 (list.Forall_forall _ _) Hy).
      - by apply (proj1 (list.Forall_forall _ _) Hx). }
    f_equal. apply IH; [done|]. intros a. specialize (Hsame a).
    rewrite !(filter_cons _ x) in Hsame. case_decide; congruence.
Qed.

(** X19: the displayed list is the stable sort of the enumeration by
    amount: it is ascending by amount and holds, for every amount, the pairs
    of that amount in the order of the enumeration; and it is the only list
    that does. *)
Theorem display_is_the_stable_sort l l' :
  l' = sorted_by_amount l ↔
  StronglySorted by_amount l' ∧
  ∀ a, filter (of_amount a) l' = filter (of_amount a) l.
Proof.
  split.
  - intros ->. split; [apply MixerTheory.sorted_by_amount_sorted|].
    intros a. apply sorted_by_amount_filter.
  - intros [Hsorted Hstable]. apply stable_sort_unique; [done| |].
    + apply MixerTheory.sorted_by_amount_sorted.
    + intros a. by rewrite sorted_by_amount_filter.
Qed.

(** X20: when the pairs of a solution have pairwise distinct amounts, every
    enumeration of the solution is displayed as the same list: the printing
    is consistent as long as no amount repeats. *)
Theorem display_is_consistent_without_ties (s : solution) l1 l2 :
  (∀ x y, x ∈ s → y ∈ s → x.2 = y.2 → x = y) →
  enumerates l1 s → enumerates l2 s →
  sorted_by_amount l1 = sorted_by_amount l2.
Proof.
  intros Hdistinct [Hnodup1 Hs1] [Hnodup2 Hs2].
  apply StronglySorted_unique_strong with (R := by_amount).
  - intros x y Hx Hy Hxy Hyx.
    rewrite MixerTheory.sorted_by_amount_Permutation in Hx, Hy.
    apply Hdistinct.
    + rewrite <-Hs1. by apply elem_of_list_to_set.
    + rewrite <-Hs2. by apply elem_of_list_to_set.
    + by apply Qcle_antisym.
  - apply MixerTheory.sorted_by_amount_sorted.
  - apply MixerTheory.sorted_by_amount_sorted.
  - rewrite !MixerTheory.sorted_by_amount_Permutation.
    apply NoDup_Permutation; [done..|]. intros x.
    by rewrite <-(elem_of_list_to_set (C := solution) x l1),
               <-(elem_of_list_to_set (C := solution) x l2), Hs1, Hs2.
Qed.

Lemma display_is_consistent_without_ties_witness :
  sorted_by_amount [("A -> B", Qc_of_Z 5); ("B -> A", Qc_of_Z 3)] =
  sorted_by_amount [("B -> A", Qc_of_Z 3); ("A -> B", Qc_of_Z 5)].
Proof.
  apply (display_is_consistent_without_ties
           {[ ("A -> B", Qc_of_Z 5); ("B -> A", Qc_of_Z 3) ]}).
  - intros x y [Hx|Hx]%elem_of_union [Hy|Hy]%elem_of_union;
      apply elem_of_singleton in Hx as ->;
      apply elem_of_singleton in Hy as ->; by vm_compute.
  - split; by_evaluation.
  - split; by_evaluation.
Defined.

End DisplayTheory.

(** * The simulation and the analysis together *)

Module MainTheory.
Import Mixer Scenarios Simulation Main.

(** ** The observed balances *)

Lemma balances_by_name_snoc σ users u :
  balances_by_name σ (users ++ [u]) =
  <[name u := balance (σ (wallet u))]> (balances_by_name σ users).
Proof. unfold balances_by_name. by rewrite foldl_app. Qed.

Lemma balances_by_name_None σ users n :
  n ∉ name <$> users → balances_by_name σ users !! n = None.
Proof.
  induction users as [|u users IH] using rev_ind; intros Hn; [done|].
  rewrite fmap_app, not_elem_of_app in Hn. destruct Hn as [Hn Hu].
  rewrite balances_by_name_snoc, lookup_insert_ne; [by apply IH|].
  intros <-. apply Hu. by left.
Qed.

Lemma balances_by_name_Some σ users u :
  NoDup (name <$> users) → u ∈ users →
  balances_by_name σ users !! name u = Some (balance (σ (wallet u))).
Proof.
  induction users as [|v users IH] using rev_ind; intros Hnodup Hu.
  { by apply elem_of_nil in Hu. }
  rewrite fmap_app in Hnodup. apply NoDup_app in Hnodup as (Hnodup&Hv&_).
  rewrite balances_by_name_snoc.
  apply elem_of_app in Hu as [Hu|Hu].
  - rewrite lookup_insert_ne; [by apply IH|].
    intros Heq. apply (Hv (name u)); [by apply list_elem_of_fmap_2|].
    rewrite <-Heq. by left.
  - apply list_elem_of_singleton in Hu as ->. by rewrite lookup_insert_eq.
Qed.

(** ** The net effect of a scenario *)

Lemma outflow_cons n t transfers :
  outflow n (t :: transfers) =
  (if decide (name t.1.1 = n) then t.2 else 0) + outflow n transfers.
Proof. simpl. case_decide; ring. Qed.

Lemma inflow_cons n t transfers :
  inflow n (t :: transfers) =
  (if decide (name t.1.2 = n) then t.2 else 0) + inflow n transfers.
Proof. simpl. case_decide; ring. Qed.

Lemma apply_transfer_net b t :
  is_Some (b !! name t.1.1) → is_Some (b !! name t.1.2) →
  ∃ b', apply_transfer b t = Ok b' ∧
    ∀ n, b' !! n =
         (λ v, v - (if decide (name t.1.1 = n) then t.2 else 0)
                 + (if decide (name t.1.2 = n) then t.2 else 0)) <$> b !! n.
Proof.
  destruct t as [[sender receiver] amount]. simpl. intros [v Hv] [w Hw].
  unfold apply_transfer.
  rewrite (proj2 (dict_isub_Ok b (name sender) amount _)) by eauto. simpl.
  destruct (decide (name sender = name receiver)) as [Heq|Hne].
  - rewrite (proj2 (dict_iadd_Ok _ (name receiver) amount
                      (<[name receiver := v - amount + amount]>
                         (<[name sender := v - amount]> b))))
      by (exists (v - amount); by rewrite Heq, lookup_insert_eq).
    eexists. split; [done|]. intros n. rewrite <-Heq in *.
    destruct (decide (name sender = n)) as [<-|Hn].
    + rewrite lookup_insert_eq, Hv. simpl. done.
    + rewrite !lookup_insert_ne by done.
      destruct (b !! n); simpl; [|done]. f_equal. ring.
  - rewrite (proj2 (dict_iadd_Ok _ (name receiver) amount
                      (<[name receiver := w + amount]>
                         (<[name sender := v - amount]> b))))
      by (exists w; by rewrite lookup_insert_ne).
    eexists. split; [done|]. intros n.
    destruct (decide (name receiver = n)) as [<-|Hr].
    + rewrite lookup_insert_eq, Hw, decide_False by done. simpl.
      f_equal. ring.
    + rewrite lookup_insert_ne by done.
      destruct (decide (name sender = n)) as [<-|Hs].
      * rewrite lookup_insert_eq, Hv. simpl. f_equal. ring.
      * rewrite lookup_insert_ne by done.
        destruct (b !! n); simpl; [|done]. f_equal. ring.
Qed.

Lemma replay_net transfers b :
  Forall (λ t : transfer,
            is_Some (b !! name t.1.1) ∧ is_Some (b !! name t.1.2))
         transfers →
  ∃ b', replay transfers b = Ok b' ∧
    ∀ n, b' !! n =
         (λ v, v - outflow n transfers + inflow n transfers) <$> b !! n.
Proof.
  revert b. induction transfers as [|t transfers IH]; intros b Hcover.
  - exists b. split; [done|]. intros n.
    destruct (b !! n); simpl; [|done]. f_equal. ring.
  - apply Forall_cons in Hcover as [[Hs Hr] Hcover].
    destruct (apply_transfer_net b t Hs Hr) as (b1&Hb1&Hnet1).
    destruct (IH b1) as (b'&Hb'&Hnet).
    { eapply Forall_impl; [exact Hcover|]. simpl. intros t' [Hs' Hr'].
      rewrite !Hnet1, !fmap_is_Some. done. }
    exists b'. split; [simpl; by rewrite Hb1|].
    intros n. rewrite Hnet, Hnet1, outflow_cons, inflow_cons.
    destruct (b !! n); simpl; [|done]. f_equal. ring.
Qed.

(** ** Users, wallets and addresses *)

Lemma NoDup_fmap_eq {A B} (f : A → B) (l : list A) x y :
  NoDup (f <$> l) → x ∈ l → y ∈ l → f x = f y → x = y.
Proof.
  intros Hnodup [i Hi]%list_elem_of_lookup_1 [j Hj]%list_elem_of_lookup_1 Hxy.
  assert (i = j) as ->; [|congruence].
  apply (NoDup_lookup (f <$> l) i j (f x)); [done| |].
  - by rewrite list_lookup_fmap, Hi.
  - by rewrite list_lookup_fmap, Hj, Hxy.
Qed.

Lemma find_recipient_own σ users r :
  NoDup ((λ u, address (σ (wallet u))) <$> users) → r ∈ users →
  find_recipient σ (wallet <$> users) (address (σ (wallet r))) =
  Some (wallet r).
Proof.
  intros Hnodup [i Hi]%list_elem_of_lookup_1.
  apply SimulationTheory.find_recipient_Some. exists i. split_and!.
  - by rewrite list_lookup_fmap, Hi.
  - done.
  - intros j w' Hj Hji Haddr.
    rewrite list_lookup_fmap in Hj.
    destruct (users !! j) as [r'|] eqn:Hr'; [|done]. injection Hj as <-.
    assert (j = i) as ->; [|lia].
    apply (NoDup_lookup _ j i (address (σ (wallet r))) Hnodup).
    + by rewrite list_lookup_fmap, Hr', <-Haddr.
    + by rewrite list_lookup_fmap, Hi.
Qed.

(** A transaction as [main] hands it to the mixer for a transfer. *)
Abbreviation submitted σ :=
  (λ (tx : Transaction) (t : transfer),
     sender_wallet tx = Some (wallet t.1.1) ∧
     receiver_address tx = address (σ (wallet t.1.2)) ∧
     amount tx = t.2).

Section users.
Variables (σ : store) (users : list User).
Hypothesis distinct_wallets : NoDup (wallet <$> users).
Hypothesis distinct_names : NoDup (name <$> users).
Hypothesis distinct_addresses :
  NoDup ((λ u, address (σ (wallet u))) <$> users).

Lemma same_wallet_same_name u v :
  u ∈ users → v ∈ users → wallet u = wallet v ↔ name u = name v.
Proof.
  intros Hu Hv. split; intros Heq.
  - by rewrite (NoDup_fmap_eq wallet users u v).
  - by rewrite (NoDup_fmap_eq name users u v).
Qed.

Lemma debited_outflow txs transfers u :
  u ∈ users →
  Forall (admissible users) transfers →
  Forall2 (submitted σ) txs transfers →
  debited (wallet u) txs = outflow (name u) transfers.
Proof.
  intros Hu Hadm Htxs. revert Hadm.
  induction Htxs as [|tx t txs transfers (Hs&_&Ha) _ IH]; intros Hadm;
    [done|].
  apply Forall_cons in Hadm as [(Hsender&_&_) Hadm].
  rewrite SimulationTheory.debited_cons, outflow_cons, IH, Hs, Ha by done.
  f_equal.
  destruct (decide (name t.1.1 = name u)) as [Hname|Hname].
  - rewrite decide_True; [done|]. f_equal.
    by apply same_wallet_same_name.
  - rewrite decide_False; [done|]. intros [= Hwallet].
    by apply Hname, same_wallet_same_name.
Qed.

Lemma credited_inflow txs transfers u :
  u ∈ users →
  Forall (admissible users) transfers →
  Forall2 (submitted σ) txs transfers →
  credited σ (wallet <$> users) (wallet u) txs = inflow (name u) transfers.
Proof.
  intros Hu Hadm Htxs. revert Hadm.
  induction Htxs as [|tx t txs transfers (_&Hr&Ha) _ IH]; intros Hadm;
    [done|].
  apply Forall_cons in Hadm as [(_&Hreceiver&_) Hadm].
  rewrite SimulationTheory.credited_cons, inflow_cons, IH, Hr, Ha by done.
  rewrite find_recipient_own by done. f_equal.
  destruct (decide (name t.1.2 = name u)) as [Hname|Hname].
  - rewrite decide_True; [done|]. f_equal.
    by apply same_wallet_same_name.
  - rewrite decide_False; [done|]. intros [= Hwallet].
    by apply Hname, same_wallet_same_name.
Qed.

End users.

(** ** Handing the transactions to the mixer *)

Lemma outflow_bound n transfers :
  Forall whole (transfers.*2) →
  whole (outflow n transfers) ∧
  Qcabs (outflow n transfers) ≤ Rounded.sum_abs (transfers.*2).
Proof.
  induction transfers as [|t transfers IH]; intros Hwhole.
  - split; [exists 0%Z; symmetry; apply Z2Qc_inj_0|by vm_compute].
  - rewrite fmap_cons in Hwhole. apply Forall_cons in Hwhole as [Ha Hwhole].
    destruct (IH Hwhole) as [IHw IHb].
    rewrite outflow_cons, fmap_cons, RoundedTheory.sum_abs_cons. case_decide.
    + split; [by apply whole_add|by apply Qcabs_add_le].
    + rewrite Qcplus_0_l. split; [done|].
      eapply Qcle_trans; [exact IHb|].
      apply Qc_le_add_nonneg, Qcabs_nonneg.
Qed.

Lemma inflow_bound n transfers :
  Forall whole (transfers.*2) →
  whole (inflow n transfers) ∧
  Qcabs (inflow n transfers) ≤ Rounded.sum_abs (transfers.*2).
Proof.
  induction transfers as [|t transfers IH]; intros Hwhole.
  - split; [exists 0%Z; symmetry; apply Z2Qc_inj_0|by vm_compute].
  - rewrite fmap_cons in Hwhole. apply Forall_cons in Hwhole as [Ha Hwhole].
    destruct (IH Hwhole) as [IHw IHb].
    rewrite inflow_cons, fmap_cons, RoundedTheory.sum_abs_cons. case_decide.
    + split; [by apply whole_add|by apply Qcabs_add_le].
    + rewrite Qcplus_0_l. split; [done|].
      eapply Qcle_trans; [exact IHb|].
      apply Qc_le_add_nonneg, Qcabs_nonneg.
Qed.

(** The balance that is left after what was sent is taken from it and what
    was received is added to it stays within the bound. *)
Lemma net_balance_bound (b o i s B : Qc) :
  Qcabs o ≤ s → Qcabs i ≤ s → Qcabs b + (s + s) < B →
  Qcabs (b - o + i) ≤ B.
Proof.
  intros. pose proof (Qcabs_triangle (b - o) i).
  pose proof (Qcabs_sub_triangle b o). qc_linear.
Qed.

Lemma submitted_amounts σ txs transfers :
  Forall2 (submitted σ) txs transfers →
  magnitude txs = Rounded.sum_abs (transfers.*2) ∧
  (Forall whole (transfers.*2) → Forall (λ tx, whole (amount tx)) txs).
Proof.
  induction 1 as [|tx t txs transfers (_&_&Ha) _ [IHm IHw]].
  - by split.
  - rewrite fmap_cons, SimulationTheory.magnitude_cons,
      RoundedTheory.sum_abs_cons, IHm, Ha.
    split; [done|]. intros [Ht Hwhole]%Forall_cons.
    constructor; [by rewrite Ha|by apply IHw].
Qed.

Lemma balances_by_name_lookup σ users n v :
  balances_by_name σ users !! n = Some v →
  ∃ u, u ∈ users ∧ v = balance (σ (wallet u)).
Proof.
  induction users as [|u users IH] using rev_ind; [done|].
  rewrite balances_by_name_snoc.
  destruct (decide (n = name u)) as [->|Hne].
  - rewrite lookup_insert_eq. intros [= <-]. exists u.
    split; [|done]. apply elem_of_app. right. by left.
  - rewrite lookup_insert_ne by done. intros (u'&Hu'&->)%IH.
    exists u'. split; [|done]. apply elem_of_app. by left.
Qed.

Section submitting.
Variable rnd : Qc → Qc.
Variable transaction_digest : string → string → Qc → Qc → string.
Variable clock : nat → Qc.

Lemma submit_all_cons mixer σ reads sender receiver amount' transfers :
  let tx :=
    attach (Transaction_init transaction_digest (clock reads)
              (address (σ (wallet sender))) (address (σ (wallet receiver)))
              amount')
           (wallet sender) in
  submit_all rnd transaction_digest clock mixer σ reads
             ((sender, receiver, amount') :: transfers) =
  submit_all rnd transaction_digest clock
    {| pending_transactions := pending_transactions mixer ++ [tx];
       ledger := ledger mixer |}
    (<[wallet sender :=
         set_balance (σ (wallet sender))
                     (rnd (balance (σ (wallet sender)) - amount'))]> σ)
    (S reads) transfers.
Proof. done. Qed.

Lemma submit_all_returns mixer σ reads transfers :
  ∃ σ' txs,
    submit_all rnd transaction_digest clock mixer σ reads transfers =
      ({| pending_transactions := pending_transactions mixer ++ txs;
          ledger := ledger mixer |},
       σ', (reads + length transfers)%nat, Returned) ∧
    Forall2 (submitted σ) txs transfers ∧
    ∀ l, address (σ' l) = address (σ l) ∧
         owner_name (σ' l) = owner_name (σ l) ∧
         balance (σ' l) = foldl (debit rnd l) (balance (σ l)) txs.
Proof.
  revert mixer σ reads.
  induction transfers as [|[[sender receiver] amount'] transfers IH];
    intros mixer σ reads.
  - exists σ, []. split_and!.
    + simpl. rewrite app_nil_r, Nat.add_0_r. by destruct mixer.
    + constructor.
    + intros l. by split_and!.
  - rewrite submit_all_cons. cbv zeta.
    set (tx := attach _ _).
    set (σ1 := <[wallet sender := _]> σ).
    assert (∀ l, address (σ1 l) = address (σ l) ∧
                 owner_name (σ1 l) = owner_name (σ l) ∧
                 balance (σ1 l) = debit rnd l (balance (σ l)) tx) as Hσ1.
    { intros l. unfold σ1, debit.
      change (sender_wallet tx) with (Some (wallet sender)).
      change (amount tx) with amount'.
      destruct (decide (l = wallet sender)) as [->|Hne].
      - by rewrite fn_lookup_insert, decide_True.
      - by rewrite fn_lookup_insert_ne, decide_False by congruence. }
    destruct (IH {| pending_transactions := pending_transactions mixer ++ [tx];
                    ledger := ledger mixer |} σ1 (S reads))
      as (σ'&txs&->&Htxs&Hσ').
    exists σ', (tx :: txs). split_and!.
    + simpl. rewrite <-(assoc_L (++)), Nat.add_succ_r. done.
    + constructor; [done|].
      eapply Forall2_impl; [exact Htxs|]. simpl.
      intros tx' t (?&?&?). by rewrite <-(proj1 (Hσ1 _)).
    + intros l. destruct (Hσ' l) as (->&->&->).
      destruct (Hσ1 l) as (->&->&->). by rewrite foldl_step.
Qed.

(** Pooling and mixing, as [main] does them, raise nothing; when nothing is
    rounded, they leave with a user the balance they had, less what they
    sent, plus what they received. *)
Lemma observed_net_balances shuffle σ users transfers :
  NoDup (wallet <$> users) →
  NoDup (name <$> users) →
  NoDup ((λ u, address (σ (wallet u))) <$> users) →
  Forall (admissible users) transfers →
  (∀ pool, shuffle pool ≡ₚ pool) →
  ∃ mixer σ1 reads,
    submit_all rnd transaction_digest clock Mixer_init σ 0 transfers =
      (mixer, σ1, reads, Returned) ∧
    (keeps_small_wholes rnd →
     Forall whole (transfers.*2) →
     ∀ u, u ∈ users →
       whole (balance (σ (wallet u))) →
       Qcabs (balance (σ (wallet u))) +
         (Rounded.sum_abs (transfers.*2) + Rounded.sum_abs (transfers.*2))
         < Qc_of_Z (2 ^ 53) →
       balance ((mix_and_send rnd transaction_digest clock shuffle mixer σ1
                   reads (wallet <$> users)).1.2 (wallet u)) =
       balance (σ (wallet u)) - outflow (name u) transfers
       + inflow (name u) transfers).
Proof.
  intros Hwallets Hnames Haddresses Hadm Hshuffle.
  destruct (submit_all_returns Mixer_init σ 0 transfers)
    as (σ1&txs&->&Htxs&Hσ1).
  change (pending_transactions Mixer_init ++ txs) with txs.
  change (ledger Mixer_init) with ([] : list Transaction).
  set (pooled := {| pending_transactions := txs; ledger := [] |}).
  exists pooled, σ1, (0 + length transfers)%nat. split; [done|].
  intros Hrnd Hamounts u Hu Hwhole Hbound.
  destruct (submitted_amounts σ txs transfers Htxs) as [Hmagnitude Htxs_whole].
  assert (exact_for (balance (σ (wallet u))) (txs ++ txs)) as Hexact.
  { split_and!; [done| |].
    - apply Forall_app. split; by apply Htxs_whole.
    - by rewrite SimulationTheory.magnitude_app, Hmagnitude. }
  destruct (SimulationTheory.mix_and_send_spec rnd transaction_digest clock
              shuffle pooled σ1 (0 + length transfers) (wallet <$> users))
    as (_&Hσ2&_).
  destruct (Hσ2 (wallet u)) as (_&_&->).
  destruct (Hσ1 (wallet u)) as (_&_&->).
  rewrite (SimulationTheory.foldl_credit_ext rnd σ σ1) by apply Hσ1.
  rewrite (SimulationTheory.foldl_debit_exact rnd Hrnd)
    by (by eapply SimulationTheory.exact_for_app_l).
  rewrite (SimulationTheory.foldl_credit_exact rnd Hrnd).
  - rewrite (SimulationTheory.credited_Permutation _ _ _ _ _
               (Hshuffle (pending_transactions pooled))).
    rewrite (debited_outflow σ users Hwallets Hnames txs transfers) by done.
    by rewrite (credited_inflow σ users Hwallets Hnames Haddresses txs
                  transfers).
  - apply (SimulationTheory.exact_for_Permutation _ txs);
      [symmetry; apply Hshuffle|].
    by apply SimulationTheory.exact_for_debited.
Qed.

(** X21: the analysis finds what the simulation did, when nothing is
    rounded.  When the users have wallets, names and addresses of their own,
    every transfer is between two distinct users, the shuffle rearranges the
    pool, and the balances and the amounts are whole numbers, every balance
    below 2^52 in magnitude with twice the magnitudes of the amounts added,
    [main] raises nothing and the set of scenarios its analysis returns has
    the pair set of the transfers that were made among its members. *)
Theorem the_analysis_finds_what_the_simulation_did shuffle σ users transfers :
  keeps_small_wholes rnd →
  keeps_tolerance_small rnd →
  Forall whole (transfers.*2) →
  (∀ u, u ∈ users →
     whole (balance (σ (wallet u))) ∧
     Qcabs (balance (σ (wallet u))) +
       (Rounded.sum_abs (transfers.*2) + Rounded.sum_abs (transfers.*2))
       < Qc_of_Z (2 ^ 52)) →
  NoDup (wallet <$> users) →
  NoDup (name <$> users) →
  NoDup ((λ u, address (σ (wallet u))) <$> users) →
  Forall (admissible users) transfers →
  (∀ pool, shuffle pool ≡ₚ pool) →
  ∃ S,
    main rnd transaction_digest clock shuffle σ users transfers =
      Analysed (Ok S) ∧
    frozenset (path_of transfers) ∈ S.
Proof.
  intros Hrnd Htol Hamounts Hwhole Hwallets Hnames Haddresses Hadm Hshuffle.
  unfold main.
  destruct (observed_net_balances shuffle σ users transfers)
    as (mixer&σ1&reads&->&Hnet); [done..|].
  cbv zeta.
  set (σ2 := (mix_and_send rnd transaction_digest clock shuffle mixer σ1
                reads (wallet <$> users)).1.2) in *.
  assert (∀ u, u ∈ users →
            balance (σ2 (wallet u)) =
            balance (σ (wallet u)) - outflow (name u) transfers
            + inflow (name u) transfers) as Hnet'.
  { intros u Hu. destruct (Hwhole u Hu) as [Hw Hlt].
    apply Hnet; [done..|].
    eapply Qclt_le_trans; [exact Hlt|by vm_compute]. }
  rewrite RoundedTheory.analyze_exact_on_wholes; [|done|done|].
  - destruct (replay_net transfers (balances_by_name σ users))
      as (b'&Hreplay&Hb').
    { eapply Forall_impl; [exact Hadm|]. simpl. intros t (Hs&Hr&_).
      by rewrite !balances_by_name_Some. }
    destruct (AnalysisTheory.consistent_scenario_is_found
                (balances_by_name σ users) (balances_by_name σ2 users)
                (transfers.*2) users transfers b') as (S&->&HS);
      [done| |done| |done|by exists S].
    + intros u Hu. by rewrite !balances_by_name_Some.
    + intros n (u&->&Hu)%list_elem_of_fmap.
      exists (balance (σ2 (wallet u))), (balance (σ2 (wallet u))).
      split_and!.
      * by rewrite Hb', balances_by_name_Some, Hnet'.
      * by rewrite balances_by_name_Some.
      * replace (balance (σ2 (wallet u)) - balance (σ2 (wallet u)))
          with (Q2Qc 0) by ring.
        done.
  - split_and!; [done| |].
    + intros n v (u&Hu&->)%balances_by_name_lookup. by apply Hwhole.
    + intros n f (u&Hu&->)%balances_by_name_lookup.
      destruct (Hwhole u Hu) as [Hw Hlt].
      destruct (outflow_bound (name u) transfers Hamounts) as [How Hob].
      destruct (inflow_bound (name u) transfers Hamounts) as [Hiw Hib].
      rewrite Hnet' by done. split.
      * by apply whole_add; [apply whole_sub|].
      * by eapply net_balance_bound.
Qed.

(** X26: what the observer is given.  When the wallets are as
    [User.__init__] creates them, each for a user of its own and no two with
    the same address, pooling and mixing raise nothing and the balances
    before the transfers are 100 for every user.  When the amounts are whole
    numbers whose magnitudes, counted twice and added to 100, stay below
    2^53, nothing is rounded and the balances after pooling and mixing are
    100 less what the user sent plus what the user received. *)
Theorem fresh_users_are_observed_with_their_net_flows sha256_hexdigest
    shuffle σ users transfers :
  (∀ u, u ∈ users → σ (wallet u) = Wallet_init sha256_hexdigest (name u)) →
  NoDup (wallet <$> users) →
  NoDup ((λ u, address (Wallet_init sha256_hexdigest (name u))) <$> users) →
  Forall (admissible users) transfers →
  (∀ pool, shuffle pool ≡ₚ pool) →
  let pooled :=
    submit_all rnd transaction_digest clock Mixer_init σ 0 transfers in
  let σ2 :=
    (mix_and_send rnd transaction_digest clock shuffle pooled.1.1.1
                  pooled.1.1.2 pooled.1.2 (wallet <$> users)).1.2 in
  pooled.2 = Returned ∧
  (∀ u, u ∈ users →
     balances_by_name σ users !! name u = Some (Qc_of_Z 100)) ∧
  (keeps_small_wholes rnd →
   Forall whole (transfers.*2) →
   Qc_of_Z 100 +
     (Rounded.sum_abs (transfers.*2) + Rounded.sum_abs (transfers.*2))
     < Qc_of_Z (2 ^ 53) →
   ∀ u, u ∈ users →
     balances_by_name σ2 users !! name u =
       Some (Qc_of_Z 100 - outflow (name u) transfers
             + inflow (name u) transfers)).
Proof.
  intros Hcreated Hwallets Haddresses Hadm Hshuffle. cbv zeta.
  assert (NoDup (name <$> users)) as Hnames.
  { apply (NoDup_fmap_1
             (λ n, address (Wallet_init sha256_hexdigest n))).
    by rewrite <-list_fmap_compose. }
  assert (NoDup ((λ u, address (σ (wallet u))) <$> users)) as Haddresses'.
  { erewrite list_fmap_ext; [exact Haddresses|].
    intros i u Hu%list_elem_of_lookup_2. simpl. by rewrite Hcreated. }
  destruct (observed_net_balances shuffle σ users transfers)
    as (mixer&σ1&reads&->&Hnet); [done..|].
  split_and!; [done| |].
  - intros u Hu. by rewrite balances_by_name_Some, Hcreated.
  - intros Hrnd Hamounts Hbound u Hu. simpl.
    assert (balance (σ (wallet u)) = Qc_of_Z 100) as Hb
      by (by rewrite Hcreated).
    rewrite balances_by_name_Some by done.
    rewrite Hnet; [by rewrite Hb|done|done|done| |].
    + rewrite Hb. by exists 100%Z.
    + by rewrite Hb, Qcabs_of_Z.
Qed.

End submitting.

(** The analysis can miss what the simulation did when sums are rounded: A
    and B send each other 33554400.2.  Both end with 100, as they began; the
    analysis, which takes the amounts in another order than the mixer, arrives
    at 100.00000000372529 for one of them and returns no scenario. *)
Lemma rounding_hides_the_true_scenario :
  let x := binary64 (Q2Qc (335544002 # 10)) in
  main binary64 sample_digest sample_clock (λ pool, pool) sample_store
       sample_users [(user_A, user_B, x); (user_B, user_A, x)]
  = Analysed (Ok ∅) ∧
  binary64 (binary64 (Qc_of_Z 100 + x) - x)
  = Q2Qc (26843545601 # 268435456).
Proof. split; by_evaluation. Qed.

Lemma the_analysis_finds_what_the_simulation_did_witness :
  ∃ S,
    main binary64 sample_digest sample_clock reverse sample_store
         sample_users
         [(user_A, user_B, Qc_of_Z 10); (user_B, user_A, Qc_of_Z 5)] =
      Analysed (Ok S) ∧
    frozenset (path_of [(user_A, user_B, Qc_of_Z 10);
                        (user_B, user_A, Qc_of_Z 5)]) ∈ S.
Proof.
  apply the_analysis_finds_what_the_simulation_did.
  - apply binary64_keeps_small_wholes.
  - apply binary64_keeps_tolerance_small.
  - repeat constructor; by eexists.
  - intros u _. split; [by eexists|by vm_compute].
  - by_evaluation.
  - by_evaluation.
  - by_evaluation.
  - repeat constructor; by_evaluation.
  - apply reverse_Permutation.
Defined.

Lemma fresh_users_are_observed_with_their_net_flows_witness :
  let σ : store :=
    λ l, Wallet_init sample_sha (match l with 0%nat => "A" | _ => "B" end) in
  let transfers :=
    [(user_A, user_B, Qc_of_Z 10); (user_B, user_A, Qc_of_Z 5)] in
  let pooled :=
    submit_all binary64 sample_digest sample_clock Mixer_init σ 0 transfers in
  let σ2 :=
    (mix_and_send binary64 sample_digest sample_clock reverse pooled.1.1.1
                  pooled.1.1.2 pooled.1.2 (wallet <$> sample_users)).1.2 in
  balances_by_name σ sample_users !! "A" = Some (Qc_of_Z 100) ∧
  balances_by_name σ2 sample_users !! "A" =
    Some (Qc_of_Z 100 - outflow "A" transfers + inflow "A" transfers).
Proof.
  cbv zeta.
  destruct (fresh_users_are_observed_with_their_net_flows binary64
              sample_digest sample_clock sample_sha reverse
              (λ l, Wallet_init sample_sha
                      (match l with 0%nat => "A" | _ => "B" end))
              sample_users
              [(user_A, user_B, Qc_of_Z 10); (user_B, user_A, Qc_of_Z 5)])
    as (_&Hbefore&Hafter).
  - intros u [->|[->|[]%elem_of_nil]%elem_of_cons]%elem_of_cons; reflexivity.
  - by_evaluation.
  - by_evaluation.
  - repeat constructor; by_evaluation.
  - apply reverse_Permutation.
  - split.
    + apply (Hbefore user_A). by left.
    + refine (Hafter binary64_keeps_small_wholes _ _ user_A _).
      * repeat constructor; by eexists.
      * by vm_compute.
      * by left.
Defined.

End MainTheory.

(** * What the analysis reads *)

Module FrameTheory.
Import Mixer.

Lemma for_each_ext_elem_of {A S} (body body' : A → S → result S) l s :
  (∀ x s', x ∈ l → body x s' = body' x s') →
  for_each body l s = for_each body' l s.
Proof.
  revert s. induction l as [|x l IH]; intros s Hbody; [done|].
  simpl. rewrite Hbody by left.
  destruct (body' x s); simpl; [|done].
  apply IH. intros. apply Hbody. by right.
Qed.

Section frame.
Variables (final_balances final_balances' : balances).
Variable tx_amounts : list Qc.
Variable users : list User.

(** Two dictionaries with the same entries for the names of the users. *)
Abbreviation agree b1 b2 :=
  (∀ u, u ∈ users → (b1 : balances) !! name u = (b2 : balances) !! name u).

Hypothesis final_agree : agree final_balances final_balances'.

Lemma balances_match_frame b b' names :
  (∀ n, n ∈ names → n ∈ user_names users) → agree b b' →
  balances_match final_balances b names =
  balances_match final_balances' b' names.
Proof.
  intros Hnames Hb. induction names as [|n names IH]; [done|].
  assert (n ∈ user_names users) as (u&->&Hu)%list_elem_of_fmap
    by (apply Hnames; left).
  simpl. unfold dict_get. rewrite (Hb u Hu), (final_agree u Hu).
  destruct (b' !! name u); simpl; [|done].
  destruct (final_balances' !! name u); simpl; [|done].
  case_decide; [|done]. apply IH. intros. apply Hnames. by right.
Qed.

Lemma search_frame suffix i b b' path acc :
  agree b b' →
  find_solutions_from final_balances tx_amounts users suffix i b path acc =
  find_solutions_from final_balances' tx_amounts users suffix i b' path acc.
Proof.
  revert i b b' path acc.
  induction suffix as [|amount suffix IH]; intros i b b' path acc Hb;
    destruct (decide (i = num_tx tx_amounts)) as [->|Hi].
  - rewrite !MixerTheory.search_base.
    by rewrite (balances_match_frame b b').
  - by rewrite !MixerTheory.search_out_of_range.
  - rewrite !MixerTheory.search_base.
    by rewrite (balances_match_frame b b').
  - rewrite !MixerTheory.search_step by done.
    apply for_each_ext_elem_of. intros sender acc1 Hsender.
    apply for_each_ext_elem_of. intros receiver acc2 Hreceiver.
    unfold try_pair. case_decide; [done|].
    unfold dict_isub, dict_iadd, dict_get. rewrite (Hb sender Hsender).
    destruct (b' !! name sender) as [v|]; simpl; [|done].
    assert (agree (<[name sender := v - amount]> b)
                  (<[name sender := v - amount]> b')) as Hb1.
    { intros u Hu. destruct (decide (name sender = name u)) as [<-|].
      - by rewrite !lookup_insert_eq.
      - rewrite !lookup_insert_ne by done. by apply Hb. }
    rewrite (Hb1 receiver Hreceiver).
    destruct (<[name sender := v - amount]> b' !! name receiver) as [w|];
      simpl; [|done].
    apply IH. intros u Hu.
    destruct (decide (name receiver = name u)) as [<-|].
    + by rewrite !lookup_insert_eq.
    + rewrite !(lookup_insert_ne _ (name receiver)) by done. by apply Hb1.
Qed.

End frame.

(** X22: the analysis reads the two dictionaries at the names of the users
    only: dictionaries with the same entries for these names give the same
    result, exception included, whatever else they hold. *)
Theorem analysis_reads_only_the_users_balances initial_balances
    initial_balances' final_balances final_balances' tx_amounts users :
  (∀ u, u ∈ users → initial_balances !! name u = initial_balances' !! name u) →
  (∀ u, u ∈ users → final_balances !! name u = final_balances' !! name u) →
  analyze_mixer_privacy initial_balances final_balances tx_amounts users =
  analyze_mixer_privacy initial_balances' final_balances' tx_amounts users.
Proof.
  intros Hinitial Hfinal. unfold analyze_mixer_privacy, run_orderings.
  apply for_each_ext_elem_of. intros p acc _.
  unfold find_solutions_recursive. by apply search_frame.
Qed.

Lemma analysis_reads_only_the_users_balances_witness :
  analyze_mixer_privacy initial_100
    (balances_of (Qc_of_Z 90) (Qc_of_Z 110)) [Qc_of_Z 10] [user_A; user_B] =
  analyze_mixer_privacy (<["C" := Qc_of_Z 7]> initial_100)
    (balances_of (Qc_of_Z 90) (Qc_of_Z 110)) [Qc_of_Z 10] [user_A; user_B].
Proof.
  apply analysis_reads_only_the_users_balances.
  - intros u [->|[->|[]%elem_of_nil]%elem_of_cons]%elem_of_cons;
      by_evaluation.
  - done.
Defined.

End FrameTheory.

(** * The public simulation *)

Module PublicMainTheory.
Import Public Registry PublicMain.

(** A ledger entry made for a transfer, with the addresses as they are in
    the store [σ]. *)
Abbreviation entry_of σ :=
  (λ (tx : Transaction) (t : transfer),
     sender_address tx = address (σ (wallet t.1.1)) ∧
     receiver_address tx = address (σ (wallet t.1.2)) ∧
     amount tx = t.2).

Section executing.
Variable rnd : Qc → Qc.
Variable transaction_digest : string → string → Qc → Qc → string.
Variable clock : nat → Qc.

Abbreviation run := (execute rnd transaction_digest clock).

Lemma execute_spec σ reads public_ledger transfers :
  let after := run σ reads public_ledger transfers in
  ∃ k new,
    (k ≤ length transfers)%nat ∧
    after.1.2 = public_ledger ++ new ∧
    Forall2 (entry_of σ) new (take k transfers) ∧
    (∀ l, address (after.1.1 l) = address (σ l) ∧
          owner_name (after.1.1 l) = owner_name (σ l) ∧
          balance (after.1.1 l) =
            foldl (settle rnd l) (balance (σ l)) (take k transfers)) ∧
    match after.2 with
    | None => k = length transfers
    | Some e =>
        e = ValueError ∧
        ∃ t, transfers !! k = Some t ∧
             balance (after.1.1 (wallet t.1.1)) < t.2
    end.
Proof.
  cbv zeta. revert σ reads public_ledger.
  induction transfers as [|[[sender receiver] amount'] transfers IH];
    intros σ reads public_ledger.
  - exists 0%nat, []. simpl. by rewrite app_nil_r.
  - destruct (decide (balance (σ (wallet sender)) < amount')) as [Hlt|Hfunds].
    + exists 0%nat, []. simpl. unfold Transaction_init.
      rewrite decide_True by done. simpl.
      split_and!; [lia|by rewrite app_nil_r|done|done|done|].
      by exists (sender, receiver, amount').
    + destruct (PublicTheory.Transaction_init_returns rnd (clock reads)
                  transaction_digest σ (wallet sender) (wallet receiver)
                  amount' Hfunds) as (tx&Hcall&Hs&Hr&Ha).
      set (σ1 := (Transaction_init rnd (clock reads) transaction_digest σ
                    (wallet sender) (wallet receiver) amount').1) in *.
      assert (∀ l, address (σ1 l) = address (σ l) ∧
                   owner_name (σ1 l) = owner_name (σ l)) as Hkeep.
      { intros l. apply PublicTheory.Transaction_init_keeps_identity. }
      assert (∀ l, balance (σ1 l) =
                   settle rnd l (balance (σ l)) (sender, receiver, amount'))
        as Hbalance.
      { intros l. unfold σ1.
        by rewrite PublicTheory.Transaction_init_balance. }
      destruct (IH σ1 (S reads) (public_ledger ++ [tx]))
        as (k&new&Hk&Hledger&Hnew&Hσ&Hend).
      exists (S k), (tx :: new).
      change (run σ reads public_ledger
                ((sender, receiver, amount') :: transfers))
        with (match Transaction_init rnd (clock reads) transaction_digest σ
                      (wallet sender) (wallet receiver) amount' with
              | (σ', Ok tx) =>
                  run σ' (S reads) (public_ledger ++ [tx]) transfers
              | (σ', Raise e) => (σ', public_ledger, Some e)
              end).
      rewrite Hcall. split_and!.
      * simpl. lia.
      * by rewrite Hledger, <-(assoc_L (++)).
      * simpl. constructor; [done|].
        eapply Forall2_impl; [exact Hnew|]. simpl.
        intros tx' t (Hs'&Hr'&Ha').
        by rewrite Hs', Hr', !(proj1 (Hkeep _)).
      * intros l. destruct (Hσ l) as (->&->&->).
        destruct (Hkeep l) as [-> ->]. split_and!; [done..|].
        by rewrite Hbalance.
      * destruct (run σ1 (S reads) (public_ledger ++ [tx]) transfers).2;
          [|simpl; lia].
        done.
Qed.


End executing.

(** ** Creating the users *)

Section creating.
Variable sha256_hexdigest : string → string.

Abbreviation create := (create_all sha256_hexdigest).
Abbreviation address_of := (wallet_address sha256_hexdigest).

Lemma create_all_snoc state users u :
  create state (users ++ [u]) =
  ((Wallet_init sha256_hexdigest (create state users).1 (name u)).1,
   <[wallet u := (Wallet_init sha256_hexdigest (create state users).1
                    (name u)).2]> (create state users).2).
Proof.
  unfold create_all. rewrite foldl_app. simpl.
  by destruct (foldl _ state users).
Qed.

Lemma create_all_registry reg σ users :
  (create (reg, σ) users).1 =
  create_users sha256_hexdigest reg (name <$> users).
Proof.
  induction users as [|u users IH] using rev_ind; [done|].
  rewrite create_all_snoc, fmap_app. unfold create_users.
  rewrite foldl_app. simpl. by rewrite IH.
Qed.

Lemma create_all_store reg σ users u :
  NoDup (wallet <$> users) → u ∈ users →
  (create (reg, σ) users).2 (wallet u) =
  {| owner_name := name u; address := address_of (name u);
     balance := Qc_of_Z 100 |}.
Proof.
  induction users as [|v users IH] using rev_ind; intros Hnodup Hu.
  { by apply elem_of_nil in Hu. }
  rewrite fmap_app in Hnodup. apply NoDup_app in Hnodup as (Hnodup&Hv&_).
  rewrite create_all_snoc. simpl.
  apply elem_of_app in Hu as [Hu|Hu].
  - rewrite fn_lookup_insert_ne; [by apply IH|].
    intros Heq. apply (Hv (wallet u)); [by apply list_elem_of_fmap_2|].
    rewrite <-Heq. by left.
  - apply list_elem_of_singleton in Hu as ->. by rewrite fn_lookup_insert.
Qed.

Variable rnd : Qc → Qc.
Variable transaction_digest : string → string → Qc → Qc → string.
Variable clock : nat → Qc.

(** X24: the public ledger tells who paid whom.  When the users are created
    with wallets of their own and no two of their names give the same
    address, and they then make transfers among themselves, the names that
    the registry gives for the two addresses of each ledger entry are the
    names of the sender and of the receiver of the transfer, entry by entry
    in the order of the transfers. *)
Theorem public_ledger_names_sender_and_receiver reg σ users transfers :
  NoDup (wallet <$> users) →
  NoDup ((λ u, address_of (name u)) <$> users) →
  Forall (λ t : transfer, t.1.1 ∈ users ∧ t.1.2 ∈ users) transfers →
  let created := create_all sha256_hexdigest (reg, σ) users in
  let after :=
    execute rnd transaction_digest clock created.2 0 [] transfers in
  ∃ k,
    shown created.1 <$> after.1.2 =
      (λ t : transfer, (name t.1.1, name t.1.2, t.2)) <$> take k transfers ∧
    (after.2 = None → k = length transfers).
Proof.
  intros Hwallets Haddresses Hamong. cbv zeta.
  destruct (execute_spec rnd transaction_digest clock
              (create (reg, σ) users).2
              0 [] transfers) as (k&new&_&->&Hnew&_&Hend).
  exists k. split; [|intros Hnone; by rewrite Hnone in Hend].
  rewrite app_nil_l.
  assert (∀ u, u ∈ users →
            get_owner_name_from_address (create (reg, σ) users).1
              (address ((create (reg, σ) users).2 (wallet u))) = name u)
    as Hlookup.
  { intros u Hu. rewrite create_all_registry, create_all_store by done.
    simpl. apply RegistryTheory.created_owner_lookup.
    - by apply list_elem_of_fmap_2.
    - apply list.Forall_forall.
      intros other (u'&->&Hu')%list_elem_of_fmap Haddr. f_equal.
      by apply (MainTheory.NoDup_fmap_eq (λ u, address_of (name u)) users). }
  assert (Forall (λ t : transfer, t.1.1 ∈ users ∧ t.1.2 ∈ users)
                 (take k transfers)) as Htaken by (by apply Forall_take).
  induction Hnew as [|tx t new taken (Hs&Hr&Ha) _ IH]; [done|].
  apply Forall_cons in Htaken as [[Hsender Hreceiver] Htaken].
  rewrite !fmap_cons, IH by done. f_equal.
  unfold shown. by rewrite Hs, Hr, Ha, !Hlookup.
Qed.

End creating.

Lemma public_ledger_names_sender_and_receiver_witness :
  let created := create_all sample_sha (∅, fresh_store) [alice; bob] in
  let after :=
    execute binary64 (λ _ _ _ _, "id") (λ _, 0) created.2 0 []
            [(alice, bob, Qc_of_Z 10); (bob, alice, Qc_of_Z 500)] in
  ∃ k,
    shown created.1 <$> after.1.2 =
      (λ t : transfer, (name t.1.1, name t.1.2, t.2)) <$>
        take k [(alice, bob, Qc_of_Z 10); (bob, alice, Qc_of_Z 500)] ∧
    (after.2 = None → k = 2%nat).
Proof.
  apply (public_ledger_names_sender_and_receiver sample_sha binary64
           (λ _ _ _ _, "id") (λ _, 0) ∅ fresh_store [alice; bob]
           [(alice, bob, Qc_of_Z 10); (bob, alice, Qc_of_Z 500)]).
  - by_evaluation.
  - by_evaluation.
  - repeat constructor; by_evaluation.
Defined.

End PublicMainTheory.

(** * The number of orderings *)

Module OrderingsTheory.
Import Mixer.

Section interleaving.
Context {A : Type} `{!EqDecision A}.
Implicit Types (x y : A) (l p : list A).

Lemma filter_others x l : x ∉ l → filter (λ y, y ≠ x) l = l.
Proof.
  induction l as [|y l IH]; [done|]. intros [Hy Hl]%not_elem_of_cons.
  rewrite filter_cons_True by done. by rewrite IH.
Qed.

(** Taking [x] out again gives the list that [x] was put into. *)
Lemma interleave_filter x l p :
  x ∉ l → p ∈ interleave x l → filter (λ y, y ≠ x) p = l.
Proof.
  revert p. induction l as [|y l IH]; intros p Hx Hp.
  - apply list_elem_of_singleton in Hp as ->.
    by rewrite filter_cons_False by (by intros ?).
  - apply not_elem_of_cons in Hx as [Hxy Hx].
    apply elem_of_cons in Hp as [->|(p'&->&Hp')%list_elem_of_fmap].
    + rewrite filter_cons_False by (by intros ?).
      rewrite filter_cons_True by done. by rewrite filter_others.
    + rewrite filter_cons_True by done. by rewrite (IH p').
Qed.

Lemma NoDup_interleave x l : x ∉ l → NoDup (interleave x l).
Proof.
  induction l as [|y l IH]; intros Hx.
  - apply NoDup_singleton.
  - apply not_elem_of_cons in Hx as [Hxy Hx]. simpl. constructor.
    + intros (p&[= ? _]&_)%list_elem_of_fmap. done.
    + apply (NoDup_fmap_2 _). by apply IH.
Qed.

Lemma NoDup_permutations l : NoDup l → NoDup (permutations l).
Proof.
  induction 1 as [|x l Hx Hl IH]; [apply NoDup_singleton|].
  simpl. apply NoDup_bind; [| |done].
  - intros p1 p2 p Hp1%permutations_Permutation Hp2%permutations_Permutation
           Hp Hp'.
    rewrite <-(interleave_filter x p1 p), <-(interleave_filter x p2 p);
      [done|by rewrite <-Hp2|done|by rewrite <-Hp1|done].
  - intros p Hp%permutations_Permutation. apply NoDup_interleave.
    by rewrite <-Hp.
Qed.

End interleaving.

(** X25: when the observed amounts are pairwise distinct, the orderings that
    are tried number exactly N!, N being the number of amounts. *)
Theorem distinct_amounts_have_factorial_orderings tx_amounts :
  NoDup tx_amounts →
  length (amount_permutations tx_amounts) = fact (length tx_amounts).
Proof.
  intros Hnodup. rewrite <-MixerTheory.length_permutations.
  apply Permutation_length, NoDup_Permutation.
  - unfold amount_permutations. apply NoDup_elements.
  - by apply NoDup_permutations.
  - intros p.
    by rewrite MixerTheory.elem_of_amount_permutations,
       permutations_Permutation.
Qed.

Lemma distinct_amounts_have_factorial_orderings_witness :
  length (amount_permutations [Qc_of_Z 10; Qc_of_Z 5; Qc_of_Z 15]) = 6%nat.
Proof.
  apply (distinct_amounts_have_factorial_orderings
           [Qc_of_Z 10; Qc_of_Z 5; Qc_of_Z 15]).
  by_evaluation.
Defined.

End OrderingsTheory.
